(** * geo-model-builder: the instruction interpreter and geometry kernel
      of [src/optimizer.py], embedded over exact real arithmetic. *)

From Stdlib Require Import Reals Lra Lia String Ascii List Bool Arith.
From Stdlib Require Import DecimalString DecimalNat.
Import ListNotations.

Local Open Scope R_scope.

(** ** The scalar backend *)

(** A scalar is a real number or undefined.  [None] is the value the source
  calls NaN: the result of a division by zero or of a square root of a
  negative number.  It propagates through arithmetic, and every comparison
  with it is false. *)
Definition scalar : Type := option R.

Declare Scope S_scope.
Delimit Scope S_scope with S.
Bind Scope S_scope with scalar.

Definition Rltb (a b : R) : bool := if Rlt_dec a b then true else false.
Definition Rleb (a b : R) : bool := if Rle_dec a b then true else false.

(** Modelled from the spec: the numeric backend, which the source leaves as
  abstract methods of [Optimizer] ([const], [sqrt], [sin], [cos], [acos],
  [tanh], [sigmoid], [exp], [abs], [max], [sum], [lt], [lte], [gt], [gte],
  [logical_or], [cond]) and as the arithmetic operators of its scalars.
  This is the exact-arithmetic instance: real numbers, with the partial
  operations undefined outside their domain. *)
Module Scalar.

Definition const (r : R) : scalar := Some r.

Definition lift1 (f : R -> R) (a : scalar) : scalar :=
  match a with Some u => Some (f u) | None => None end.

Definition lift2 (f : R -> R -> R) (a b : scalar) : scalar :=
  match a, b with Some u, Some v => Some (f u v) | _, _ => None end.

Definition add : scalar -> scalar -> scalar := lift2 Rplus.
Definition sub : scalar -> scalar -> scalar := lift2 Rminus.
Definition mul : scalar -> scalar -> scalar := lift2 Rmult.
Definition neg : scalar -> scalar := lift1 Ropp.

Definition div (a b : scalar) : scalar :=
  match a, b with
  | Some u, Some v => if Req_dec_T v 0 then None else Some (u / v)
  | _, _ => None
  end.

(** [a ** n] for a literal natural exponent. *)
Definition pow (a : scalar) (n : nat) : scalar := lift1 (fun u => u ^ n) a.

Definition sqrt (a : scalar) : scalar :=
  match a with
  | Some u => if Rlt_dec u 0 then None else Some (R_sqrt.sqrt u)
  | None => None
  end.

(** [a ** (1 / 2)] *)
Definition pow_half (a : scalar) : scalar := sqrt a.

Definition sin : scalar -> scalar := lift1 Rtrigo_def.sin.
Definition cos : scalar -> scalar := lift1 Rtrigo_def.cos.
Definition tanh : scalar -> scalar := lift1 Rtrigo_def.tanh.
Definition exp : scalar -> scalar := lift1 Rtrigo_def.exp.
Definition sigmoid : scalar -> scalar :=
  lift1 (fun u => 1 / (1 + Rtrigo_def.exp (- u))).

Definition acos (a : scalar) : scalar :=
  match a with
  | Some u => if Rle_dec (-1) u
                then if Rle_dec u 1 then Some (Ratan.acos u) else None
                else None
  | None => None
  end.

Definition abs : scalar -> scalar := lift1 Rabs.
Definition max : scalar -> scalar -> scalar := lift2 Rmax.
Definition sum (xs : list scalar) : scalar := fold_left add xs (const 0).

Definition lt (a b : scalar) : bool :=
  match a, b with Some u, Some v => Rltb u v | _, _ => false end.
Definition lte (a b : scalar) : bool :=
  match a, b with Some u, Some v => Rleb u v | _, _ => false end.
Definition gt (a b : scalar) : bool := lt b a.
Definition gte (a b : scalar) : bool := lte b a.

Definition logical_or (p q : bool) : bool := p || q.

(** The select primitive: both branches are values already. *)
Definition cond {A : Type} (c : bool) (t_val f_val : A) : A :=
  if c then t_val else f_val.

End Scalar.

Arguments Scalar.const _%_R.

Notation "a + b" := (Scalar.add a b) : S_scope.
Notation "a - b" := (Scalar.sub a b) : S_scope.
Notation "a * b" := (Scalar.mul a b) : S_scope.
Notation "a / b" := (Scalar.div a b) : S_scope.
Notation "- a" := (Scalar.neg a) : S_scope.
Notation "a ^ n" := (Scalar.pow a n) : S_scope.
(** A numeric literal of the source. *)
Notation "# r" := (Scalar.const r) (at level 5, r at level 1, format "# r") : S_scope.

(** ** Points *)

(** Modelled from the spec: the [Point] class of the backend, a pair of
  scalars with [x], [y], addition, subtraction and [smul]; the source has
  only its uses. *)
Module Point.

Record t : Type := get_point { x : scalar; y : scalar }.

Definition add (A B : t) : t := get_point (x A + x B)%S (y A + y B)%S.
Definition sub (A B : t) : t := get_point (x A - x B)%S (y A - y B)%S.
Definition smul (A : t) (k : scalar) : t := get_point (x A * k)%S (y A * k)%S.

End Point.

#[warnings="-notation-for-abbreviation"]
Notation Point := Point.t.
#[warnings="-notation-for-abbreviation"]
Notation get_point := Point.get_point.

Declare Scope P_scope.
Delimit Scope P_scope with P.
Bind Scope P_scope with Point.t.
Notation "A + B" := (Point.add A B) : P_scope.
Notation "A - B" := (Point.sub A B) : P_scope.

(** A point with real coordinates. *)
Definition RPt (u v : R) : Point := get_point (Scalar.const u) (Scalar.const v).

(** Also stores the points used to compute it *)
Record SlopeInterceptForm : Type :=
  mkSif { sif_m : scalar; sif_b : scalar; sif_p1 : Point; sif_p2 : Point }.

Record CircleNF : Type := mkCircleNF { center : Point; radius : scalar }.

(** ** Exceptions *)

(** The exceptions the interpreter can raise.  [NameError] carries the
  identifier that is not bound, [KeyError] the missing key. *)
Inductive exn : Type :=
| NameError (id : string)
| KeyError (key : string)
| ValueError
| TypeError
| AttributeError
| IndexError
| ZeroDivisionError
| AssertionError
| RuntimeError
| NotImplementedError.

Inductive result (A : Type) : Type :=
| Ok (a : A)
| Raise (e : exn).

Arguments Ok {A} a.
Arguments Raise {A} e.

(** ** The computational-geometry kernel: the pure part *)

Section Kernel.

Local Open Scope S_scope.

Import Point.

Definition midp (A B : Point) : Point := smul (A + B) #0.5.

Definition midp_from (M A : Point) : Point := (A + smul (M - A) #2)%P.

Definition sqdist (A B : Point) : scalar :=
  (x A - x B) ^ 2 + (y A - y B) ^ 2.

Definition dist (A B : Point) : scalar := Scalar.pow_half (sqdist A B).

Definition inner_product (A B : Point) : scalar :=
  let '(get_point a1 a2) := A in
  let '(get_point b1 b2) := B in
  a1 * b1 + a2 * b2.

Definition scalar_product (O A B : Point) : scalar :=
  let lhs := (x A - x O) * (x B - x O) in
  let rhs := (y A - y O) * (y B - y O) in
  lhs + rhs.

Definition matrix_mul (mat : Point * Point) (pt : Point) : Point :=
  let '(pt1, pt2) := mat in
  get_point (inner_product pt1 pt) (inner_product pt2 pt).

Definition rotation_matrix (theta : scalar) : Point * Point :=
  let r1 := get_point (Scalar.cos theta) (- Scalar.sin theta) in
  let r2 := get_point (Scalar.sin theta) (Scalar.cos theta) in
  (r1, r2).

Definition rotate_counterclockwise (theta : scalar) (pt : Point) : Point :=
  matrix_mul (rotation_matrix theta) pt.

Definition rotate_clockwise_90 (pt : Point) : Point :=
  matrix_mul (get_point #0 #1, get_point #(-1) #0) pt.

Definition rotate_counterclockwise_90 (pt : Point) : Point :=
  matrix_mul (get_point #0 #(-1), get_point #1 #0) pt.

Definition side_lengths (A B C : Point) : scalar * scalar * scalar :=
  (dist B C, dist C A, dist A B).

Definition angle (A B C : Point) : scalar :=
  let '(a, b, c) := side_lengths A B C in
  Scalar.acos ((a ^ 2 + c ^ 2 - b ^ 2) / (#2 * a * c)).

Definition conway_vals (A B C : Point) : scalar * scalar * scalar :=
  let '(a, b, c) := side_lengths A B C in
  ((b ^ 2 + c ^ 2 - a ^ 2) / #2,
   (c ^ 2 + a ^ 2 - b ^ 2) / #2,
   (a ^ 2 + b ^ 2 - c ^ 2) / #2).

Definition trilinear (A B C : Point) (x0 y0 z0 : scalar) : Point :=
  let '(a, b, c) := side_lengths A B C in
  let denom := a * x0 + b * y0 + c * z0 in
  get_point ((a * x0 * x A + b * y0 * x B + c * z0 * x C) / denom)
            ((a * x0 * y A + b * y0 * y B + c * z0 * y C) / denom).

Definition barycentric (A B C : Point) (x0 y0 z0 : scalar) : Point :=
  let '(a, b, c) := side_lengths A B C in
  trilinear A B C (x0 / a) (y0 / b) (z0 / c).

Definition circumcenter (A B C : Point) : Point :=
  let '(a, b, c) := side_lengths A B C in
  let '(Sa, Sb, Sc) := conway_vals A B C in
  let res := barycentric A B C (a ^ 2 * Sa) (b ^ 2 * Sb) (c ^ 2 * Sc) in
  res.

Definition orthocenter (A B C : Point) : Point :=
  let '(a, b, c) := side_lengths A B C in
  let '(Sa, Sb, Sc) := conway_vals A B C in
  barycentric A B C (Sb * Sc) (Sc * Sa) (Sa * Sb).

Definition centroid (A B C : Point) : Point := barycentric A B C #1 #1 #1.

Definition incenter (A B C : Point) : Point := trilinear A B C #1 #1 #1.

Definition excenter (A B C : Point) : Point := trilinear A B C #(-1) #1 #1.

Definition perp_phi (A B C D : Point) : scalar :=
  (x A - x B) * (x C - x D) + (y A - y B) * (y C - y D).

Definition para_phi (A B C D : Point) : scalar :=
  (x A - x B) * (y C - y D) - (y A - y B) * (x C - x D).

Definition cong_diff (A B C D : Point) : scalar := sqdist A B - sqdist C D.

Definition coll_phi (A B C : Point) : scalar :=
  x A * (y B - y C) + x B * (y C - y A) + x C * (y A - y B).

Definition diff_signs (u v : scalar) : scalar := Scalar.max #0 (u * v).

Definition between_gap (X A B : Point) : list scalar :=
  let eps := #0.2 in
  let A1 := get_point (x A + eps * (x B - x A)) (y A + eps * (y B - y A)) in
  let B1 := get_point (x B + eps * (x A - x B)) (y B + eps * (y A - y B)) in
  [diff_signs (x X - x A1) (x X - x B1); diff_signs (y X - y A1) (y X - y B1)].

Definition onray_gap (X A B : Point) : list scalar :=
  let eps := #0.2 in
  let A1 := get_point (x A + eps * (x B - x A)) (y A + eps * (y B - y A)) in
  [diff_signs (x X - x A1) (x A1 - x B); diff_signs (y X - y A1) (y A1 - y B)].

Definition det3 (A O B : Point) : scalar :=
  let lhs := (x A - x O) * (y B - y O) in
  let rhs := (y A - y O) * (x B - x O) in
  lhs - rhs.

Definition side_score_prod (a b u v : Point) : scalar :=
  det3 a u v * det3 b u v.

Definition opp_sides (a b u v : Point) : bool :=
  Scalar.lt (side_score_prod a b u v) #0.

Definition same_side (a b u v : Point) : bool :=
  Scalar.gt (side_score_prod a b u v) #0.

Definition inter_ll (sif1 sif2 : SlopeInterceptForm) : Point :=
  let '(mkSif m1 b1 _ _) := sif1 in
  let '(mkSif m2 b2 _ _) := sif2 in
  let px := (b2 - b1) / (m1 - m2) in
  let py := m1 * px + b1 in
  get_point px py.

(** Two points on a line to slope-intercept form (y = mx + b) *)
Definition pp2sif (p1 p2 : Point) : SlopeInterceptForm :=
  let '(get_point x1 y1) := p1 in
  let '(get_point x2 y2) := p2 in
  let m := (y2 - y1) / (x2 - x1) in
  let b := y1 - m * x1 in
  mkSif m b p1 p2.

Definition shift (O : Point) (Ps : list Point) : list Point :=
  map (fun P => get_point (x P - x O) (y P - y O)) Ps.

Definition unshift (O : Point) (Ps : list Point) : list Point :=
  map (fun P => get_point (x P + x O) (y P + y O)) Ps.

Definition pt_eq (p1 p2 : Point) : bool := Scalar.lt (dist p1 p2) #1e-6.

Definition pt_neq (p1 p2 : Point) : bool := Scalar.gt (dist p1 p2) #1e-6.

(** The local function [sgnstar] of [inter_pp_c]. *)
Definition sgnstar (u : scalar) : scalar :=
  Scalar.cond (Scalar.lt u #0) #(-1) #1.

(** The value bound to [radicand] in [inter_pp_c], after the shift. *)
Definition radicand (P1 P2 : Point) (r : scalar) : scalar :=
  let dx := x P1 - x P2 in
  let dy := y P1 - y P2 in
  let dr := Scalar.sqrt (dx ^ 2 + dy ^ 2) in
  let D := x P2 * y P1 - x P1 * y P2 in
  r ^ 2 * dr ^ 2 - D ^ 2.

(** The local function [on_nneg] of [inter_pp_c]; [P1] and [P2] are the
  shifted points. *)
Definition on_nneg (O P1 P2 : Point) (r : scalar) : list Point :=
  let dx := x P1 - x P2 in
  let dy := y P1 - y P2 in
  let dr := Scalar.sqrt (dx ^ 2 + dy ^ 2) in
  let D := x P2 * y P1 - x P1 * y P2 in
  let radicand := r ^ 2 * dr ^ 2 - D ^ 2 in
  let Q1 := get_point
              ((D * dy + sgnstar dy * dx * Scalar.sqrt radicand) / (dr ^ 2))
              ((- D * dx + Scalar.abs dy * Scalar.sqrt radicand) / (dr ^ 2)) in
  let Q2 := get_point
              ((D * dy - sgnstar dy * dx * Scalar.sqrt radicand) / (dr ^ 2))
              ((- D * dx - Scalar.abs dy * Scalar.sqrt radicand) / (dr ^ 2)) in
  unshift O [Q1; Q2].

(** The local function [on_neg] of [inter_pp_c]; [P1] and [P2] are the
  shifted points, [O] is the centre as it was passed. *)
Definition on_neg (O P1 P2 : Point) (r : scalar) : list Point :=
  let Operp := (rotate_counterclockwise_90 (P1 - P2) + O)%P in
  let F := inter_ll (pp2sif P1 P2) (pp2sif O Operp) in
  let X := (O + smul (F - O) (r / dist O F))%P in
  let Q := midp F X in
  unshift O [Q; Q].

(** We follow http://mathworld.wolfram.com/Circle-LineIntersection.html *)
Definition inter_pp_c (P1 P2 : Point) (cnf : CircleNF) : list Point :=
  let O := center cnf in
  let r := radius cnf in
  match shift O [P1; P2] with
  | [P1; P2] =>
      Scalar.cond (Scalar.lt (radicand P1 P2 r) #0)
                  (on_neg O P1 P2 r) (on_nneg O P1 P2 r)
  | _ => []
  end.

Definition radical_axis_pts (cnf1 cnf2 : CircleNF) : Point * Point :=
  let '(mkCircleNF (get_point c1x c1y) r1) := cnf1 in
  let '(mkCircleNF (get_point c2x c2y) r2) := cnf2 in
  let A := #2 * (c2x - c1x) in
  let B := #2 * (c2y - c1y) in
  let C := (r1 ^ 2 - r2 ^ 2) + (c2y ^ 2 - c1y ^ 2) + (c2x ^ 2 - c1x ^ 2) in
  let test := Scalar.gt (Scalar.abs A) #1e-6 in
  let p1 := Scalar.cond test (get_point ((C - B) / A) #1) (get_point #1 (C / B)) in
  let p2 := Scalar.cond test (get_point (C / A) #0) (get_point #0 (C / B)) in
  (p1, p2).

Definition radical_axis (cnf1 cnf2 : CircleNF) : SlopeInterceptForm :=
  let '(p1, p2) := radical_axis_pts cnf1 cnf2 in
  pp2sif p1 p2.

Definition eqangle6_diff (A B C P Q R : Point) : scalar :=
  let s1 := det3 A B C in
  let c1 := scalar_product A B C in
  let s2 := det3 P Q R in
  let c2 := scalar_product P Q R in
  #0.1 * (s1 * c2 - s2 * c1).

Definition cycl_diff (A B C D : Point) : scalar := eqangle6_diff A B D A C D.

Definition eqangle8_diff (A B1 B2 C P Q1 Q2 R : Point) : scalar :=
  eqangle6_diff A B1 (C - B2 + B1)%P P Q1 (R - Q2 + Q1)%P.

Definition semiperimeter (A B C : Point) : scalar :=
  let '(a, b, c) := side_lengths A B C in
  (a + b + c) / #2.

Definition area (A B C : Point) : scalar :=
  let '(a, b, c) := side_lengths A B C in
  let s := semiperimeter A B C in
  Scalar.sqrt (s * (s - a) * (s - b) * (s - c)).

Definition inradius (A B C : Point) : scalar :=
  area A B C / semiperimeter A B C.

Definition exradius (A B C : Point) : scalar :=
  let r := inradius A B C in
  let '(a, b, c) := side_lengths A B C in
  let s := (a + b + c) / #2 in
  r * s / (s - a).

Definition mixtilinear_incenter (A B C : Point) : Point :=
  let '(ta, tb, tc) := (angle C A B, angle A B C, angle B C A) in
  trilinear A B C
    ((#1 / #2) * (#1 + Scalar.cos ta - Scalar.cos tb - Scalar.cos tc)) #1 #1.

Definition mixtilinear_inradius (A B C : Point) : scalar :=
  let r := inradius A B C in
  let ta := angle C A B in
  r * (#1 / Scalar.cos (ta / #2) ^ 2).

Definition to_trilinear (P A B C : Point) : scalar * scalar * scalar :=
  let la := pp2sif B C in
  let lb := pp2sif C A in
  let lc := pp2sif A B in
  let ga := pp2sif P (P + rotate_counterclockwise_90 (C - B))%P in
  let gb := pp2sif P (P + rotate_counterclockwise_90 (A - C))%P in
  let gc := pp2sif P (P + rotate_counterclockwise_90 (B - A))%P in
  let da := dist P (inter_ll la ga) in
  let db := dist P (inter_ll lb gb) in
  let dc := dist P (inter_ll lc gc) in
  let da := Scalar.cond (opp_sides P A B C) (- da) da in
  let db := Scalar.cond (opp_sides P B C A) (- db) db in
  let dc := Scalar.cond (opp_sides P C A B) (- dc) dc in
  (da, db, dc).

Definition invert_or_zero (u : scalar) : scalar :=
  Scalar.cond (Scalar.lt (Scalar.abs u) #1e-5) #0 (#1 / u).

Definition isogonal (P A B C : Point) : Point :=
  let '(u, v, w) := to_trilinear P A B C in
  trilinear A B C (invert_or_zero u) (invert_or_zero v) (invert_or_zero w).

Definition isotomic (P A B C : Point) : Point :=
  let '(a, b, c) := side_lengths A B C in
  let '(u, v, w) := to_trilinear P A B C in
  trilinear A B C (a ^ 2 * invert_or_zero u) (b ^ 2 * invert_or_zero v)
                  (c ^ 2 * invert_or_zero w).

Definition inverse (X O A : Point) : Point :=
  (O + smul (X - O) (sqdist O A / sqdist O X))%P.

Definition second_meet_pp_c (A B O : Point) : result Point :=
  match inter_pp_c A B (mkCircleNF O (dist O A)) with
  | [P1; P2] => Ok (Scalar.cond (Scalar.lt (sqdist A P1) (sqdist A P2)) P2 P1)
  | _ => Raise ValueError
  end.

Definition amidp_opp (B C A : Point) : result Point :=
  let O := circumcenter A B C in
  let I := incenter A B C in
  second_meet_pp_c A I O.

Definition amidp_same (B C A : Point) : result Point :=
  match amidp_opp B C A with
  | Ok M =>
      let O := circumcenter A B C in
      second_meet_pp_c M O O
  | Raise e => Raise e
  end.

End Kernel.

(** ** Instructions *)

(** Modelled from the spec: the instruction classes of the frontend (module
  [instruction], star-imported by the source), with the attributes the source
  reads: a line and a circle have [pred] and [points], a root selector has
  [pred] and [vars], a constraint has [pred], [points] and [negate]. *)
Record Line : Type := mkLine { line_pred : string; line_points : list string }.

Record Circle : Type := mkCircle { circ_pred : string; circ_points : list string }.

(** An element of the [vars] of a root selector: a point name, a collection
  of point names, or a line. *)
Inductive rs_var : Type :=
| RsName (p : string)
| RsNames (ps : list string)
| RsLine (l : Line).

Record RootSelect : Type := mkRootSelect { rs_pred : string; rs_vars : list rs_var }.

(** An argument of a computation or of a parameterization. *)
Inductive arg : Type :=
| ArgPoints (ps : list string)
| ArgLine (l : Line)
| ArgCircle (c : Circle)
| ArgRootSelect (rs : RootSelect).

Record Constraint : Type :=
  mkConstraint { cons_pred : string; cons_points : list string; cons_negate : bool }.

(** [Compute] and [Parameterize] carry the tuple (method, arguments...): its
  element 0 is the method tag, element [k] is [nth (k - 1)] of the list. *)
Inductive Instruction : Type :=
| Sample (sampler : string) (points : list string) (args : list string)
| Compute (point : string) (method : string) (c_args : list arg)
| Parameterize (point : string) (method : string) (p_args : list arg)
| Assert (constraint : Constraint)
| AssertNDG (constraint : Constraint)
| Confirm (constraint : Constraint)
| OtherInstruction.

(** ** The optimizer object *)

(** The fields [__init__] sets, but for [opts], which this file never reads. *)
Record Optimizer : Type := mkOptimizer {
  name2pt : list (string * Point);
  losses : list (string * (scalar * R));
  has_loss : bool;
  instructions : list Instruction;
  ndgs : list (string * (scalar * R));
  goals : list (string * (scalar * R));
  circles : list (Point * scalar);
  segments : list (Point * Point)
}.

Definition init (instrs : list Instruction) : Optimizer :=
  mkOptimizer [] [] false instrs [] [] [] [].

Definition set_name2pt (v : list (string * Point)) (o : Optimizer) : Optimizer :=
  mkOptimizer v (losses o) (has_loss o) (instructions o) (ndgs o) (goals o)
              (circles o) (segments o).

Definition set_losses (v : list (string * (scalar * R))) (o : Optimizer) : Optimizer :=
  mkOptimizer (name2pt o) v (has_loss o) (instructions o) (ndgs o) (goals o)
              (circles o) (segments o).

Definition set_ndgs (v : list (string * (scalar * R))) (o : Optimizer) : Optimizer :=
  mkOptimizer (name2pt o) (losses o) (has_loss o) (instructions o) v (goals o)
              (circles o) (segments o).

Definition set_goals (v : list (string * (scalar * R))) (o : Optimizer) : Optimizer :=
  mkOptimizer (name2pt o) (losses o) (has_loss o) (instructions o) (ndgs o) v
              (circles o) (segments o).

Definition set_circles (v : list (Point * scalar)) (o : Optimizer) : Optimizer :=
  mkOptimizer (name2pt o) (losses o) (has_loss o) (instructions o) (ndgs o)
              (goals o) v (segments o).

Definition set_segments (v : list (Point * Point)) (o : Optimizer) : Optimizer :=
  mkOptimizer (name2pt o) (losses o) (has_loss o) (instructions o) (ndgs o)
              (goals o) (circles o) v.

(** ** The monad of methods: state of the object, and exceptions *)

(** A method takes the object and returns a value or raises, with the object
  as it is at that moment: what was mutated before an exception stays. *)
Definition M (A : Type) : Type := Optimizer -> result A * Optimizer.

Definition ret {A : Type} (a : A) : M A := fun o => (Ok a, o).

Definition bind {A B : Type} (m : M A) (k : A -> M B) : M B :=
  fun o => match m o with
           | (Ok a, o') => k a o'
           | (Raise e, o') => (Raise e, o')
           end.

Definition raise {A : Type} (e : exn) : M A := fun o => (Raise e, o).

Definition lift {A : Type} (r : result A) : M A := fun o => (r, o).

Definition gets {A : Type} (f : Optimizer -> A) : M A := fun o => (Ok (f o), o).

Definition modify (f : Optimizer -> Optimizer) : M unit := fun o => (Ok tt, f o).

Declare Scope M_scope.
Delimit Scope M_scope with M.
Bind Scope M_scope with M.

Notation "x <- m ;; k" := (bind m (fun x => k))
  (at level 61, m at next level, right associativity) : M_scope.
Notation "' pat <- m ;; k" := (bind m (fun x => let 'pat := x in k))
  (at level 61, pat pattern, m at next level, right associativity) : M_scope.
Notation "m ;; k" := (bind m (fun _ => k))
  (at level 61, right associativity) : M_scope.

Fixpoint mapM {A B : Type} (f : A -> M B) (l : list A) : M (list B) :=
  match l with
  | [] => ret []
  | a :: l' => (b <- f a ;; bs <- mapM f l' ;; ret (b :: bs))%M
  end.

Fixpoint forM_ {A : Type} (l : list A) (f : A -> M unit) : M unit :=
  match l with
  | [] => ret tt
  | a :: l' => (f a ;; forM_ l' f)%M
  end.

(** *** Python's containers *)

(** [d[key]] on a dict kept in insertion order. *)
Fixpoint dict_get {V : Type} (d : list (string * V)) (key : string) : option V :=
  match d with
  | [] => None
  | (k, v) :: d' => if String.eqb k key then Some v else dict_get d' key
  end.

(** [d[key] = v]: replaces the value of a key that is there, else appends. *)
Fixpoint dict_set {V : Type} (d : list (string * V)) (key : string) (v : V)
  : list (string * V) :=
  match d with
  | [] => [(key, v)]
  | (k, w) :: d' =>
      if String.eqb k key then (k, v) :: d' else (k, w) :: dict_set d' key v
  end.

(** [l[i]] for [0 <= i]. *)
Definition getitem {A : Type} (l : list A) (i : nat) : M A :=
  match nth_error l i with
  | Some a => ret a
  | None => raise IndexError
  end.

(** [l[-1]] *)
Definition last_item {A : Type} (l : list A) : M A :=
  match rev l with
  | a :: _ => ret a
  | [] => raise IndexError
  end.

(** [a, = l], [a, b = l], ...: unpacking into a fixed number of targets. *)
Definition unpack1 {A : Type} (l : list A) : M A :=
  match l with [a] => ret a | _ => raise ValueError end.

Definition unpack2 {A : Type} (l : list A) : M (A * A) :=
  match l with [a; b] => ret (a, b) | _ => raise ValueError end.

Definition unpack3 {A : Type} (l : list A) : M (A * A * A) :=
  match l with [a; b; c] => ret (a, b, c) | _ => raise ValueError end.

Definition unpack4 {A : Type} (l : list A) : M (A * A * A * A) :=
  match l with [a; b; c; d] => ret (a, b, c, d) | _ => raise ValueError end.

Definition unpack5 {A : Type} (l : list A) : M (A * A * A * A * A) :=
  match l with [a; b; c; d; e] => ret (a, b, c, d, e) | _ => raise ValueError end.

Definition unpack6 {A : Type} (l : list A) : M (A * A * A * A * A * A) :=
  match l with
  | [a; b; c; d; e; f] => ret (a, b, c, d, e, f)
  | _ => raise ValueError
  end.

(** [f( *l )]: a list splatted into a fixed number of parameters. *)
Definition splat3 {A : Type} (l : list A) : M (A * A * A) :=
  match l with [a; b; c] => ret (a, b, c) | _ => raise TypeError end.

Definition splat4 {A : Type} (l : list A) : M (A * A * A * A) :=
  match l with [a; b; c; d] => ret (a, b, c, d) | _ => raise TypeError end.

Definition splat8 {A : Type} (l : list A) : M (A * A * A * A * A * A * A * A) :=
  match l with
  | [a; b; c; d; e; f; g; h] => ret (a, b, c, d, e, f, g, h)
  | _ => raise TypeError
  end.

(** [itertools.combinations(l, r)], in the order it yields them. *)
Fixpoint combinations {A : Type} (l : list A) (r : nat) : list (list A) :=
  match r with
  | O => [[]]
  | S r' =>
      match l with
      | [] => []
      | a :: l' => map (cons a) (combinations l' r') ++ combinations l' r
      end
  end.

(** [str(n)] for a natural number. *)
Definition str_nat (n : nat) : string :=
  DecimalString.NilZero.string_of_uint (Nat.to_uint n).

(** [sep.join(l)] *)
Definition join (sep : string) (l : list string) : string := String.concat sep l.

(** *** Names of the module *)

(** What is bound at the level of the module: its imports, the six
  instruction classes of the star-import, the two named tuples and the
  class. *)
Definition module_globals : list string :=
  ["ABC"; "abstractmethod"; "math"; "pdb"; "collections"; "itertools";
   "Sample"; "Compute"; "Parameterize"; "Assert"; "AssertNDG"; "Confirm";
   "SlopeInterceptForm"; "CircleNF"; "Optimizer"]%string.

(** The use of an identifier that is not a local of the function:
  [NameError] when the module does not bind it.  What the module binds are
  modules and classes, none of which can stand for a point, a distance or a
  list of names. *)
Definition load_global {A : Type} (id : string) : result A :=
  if existsb (String.eqb id) module_globals then Raise TypeError
  else Raise (NameError id).

(** ** The interpreter *)

Section Interpreter.

(** The backend's [mkvar]: the value of the free variable of that name,
  created with the bounds [lo] and [hi]. *)
Variable mkvar : string -> R -> R -> scalar.

(** The backend's [simplify]. *)
Variable simplify : Point -> string -> Point.

Local Open Scope S_scope.
Local Open Scope M_scope.

Import Point.

Definition lookup_pts (ps : list string) : M (list Point) :=
  mapM (fun p => d <- gets name2pt ;;
                 match dict_get d p with
                 | Some P => ret P
                 | None => raise (KeyError p)
                 end) ps.

(** Modelled from the spec: [register_pt], abstract in the source.  The
  registry is insertion-ordered with unique keys, and registering a name
  again is an error of the caller. *)
Definition register_pt (p : string) (P : Point) : M unit :=
  d <- gets name2pt ;;
  match dict_get d p with
  | Some _ => raise AssertionError
  | None => modify (set_name2pt (d ++ [(p, P)]))
  end.

(** Modelled from the spec: [register_loss], [register_ndg] and
  [register_goal], abstract in the source.  Each registry maps a label to
  the pair of the residual and its weight; a goal has no weight of its own
  and gets the default one. *)
Definition register_loss (key : string) (var : scalar) (weight : R) : M unit :=
  modify (fun o => set_losses (dict_set (losses o) key (var, weight)) o).

Definition register_ndg (key : string) (var : scalar) (weight : R) : M unit :=
  modify (fun o => set_ndgs (dict_set (ndgs o) key (var, weight)) o).

Definition register_goal (key : string) (var : scalar) : M unit :=
  modify (fun o => set_goals (dict_set (goals o) key (var, 1.0%R)) o).

Definition circles_append (c : Point * scalar) : M unit :=
  modify (fun o => set_circles (circles o ++ [c]) o).

Definition segments_extend (l : list (Point * Point)) : M unit :=
  modify (fun o => set_segments (segments o ++ l) o).

Definition segments_append (sg : Point * Point) : M unit := segments_extend [sg].

Definition softmax (xs : list scalar) : list scalar :=
  let exps := map Scalar.exp xs in
  let sum_exps := Scalar.sum exps in
  map (fun e => e / sum_exps) exps.

(** *** Reading the arguments of an instruction *)

(** Iterating over an argument that has to be a collection of names. *)
Definition as_points (a : arg) : M (list string) :=
  match a with ArgPoints ps => ret ps | _ => raise TypeError end.

(** Reading [pred] and [points] of an argument that has to be a line. *)
Definition as_line (a : arg) : M Line :=
  match a with ArgLine l => ret l | _ => raise AttributeError end.

Definition as_circle (a : arg) : M Circle :=
  match a with ArgCircle c => ret c | _ => raise AttributeError end.

Definition as_root_select (a : arg) : M RootSelect :=
  match a with ArgRootSelect rs => ret rs | _ => raise AttributeError end.

(** Iterating over the list of [vars] itself: its elements have to be names. *)
Definition names_of_vars (vs : list rs_var) : M (list string) :=
  mapM (fun v => match v with RsName p => ret p | _ => raise TypeError end) vs.

(** Iterating over one element of [vars]: a collection gives its names, a
  string gives its characters. *)
Definition iter_var (v : rs_var) : M (list string) :=
  match v with
  | RsNames ps => ret ps
  | RsName p => ret (map (fun c => String c EmptyString) (list_ascii_of_string p))
  | RsLine _ => raise TypeError
  end.

Definition line_of_var (v : rs_var) : M Line :=
  match v with RsLine l => ret l | _ => raise AttributeError end.

(** *** Utilities *)

Definition line2twoPts (l : Line) : M (list Point) :=
  let pred := line_pred l in
  let ps := line_points l in
  if (pred =? "connecting")%string then lookup_pts ps
  else if (pred =? "paraAt")%string then
    Ps <- lookup_pts ps ;; '(X, A, B) <- unpack3 Ps ;;
    ret [X; (X + B - A)%P]
  else if (pred =? "perpAt")%string then
    Ps <- lookup_pts ps ;; '(X, A, B) <- unpack3 Ps ;;
    ret [X; (X + rotate_counterclockwise_90 (A - B))%P]
  else if (pred =? "mediator")%string then
    Ps <- lookup_pts ps ;; '(A, B) <- unpack2 Ps ;;
    let M := midp A B in
    ret [M; (M + rotate_counterclockwise_90 (A - B))%P]
  else if (pred =? "ibisector")%string then
    Ps <- lookup_pts ps ;; '(A, B, C) <- unpack3 Ps ;;
    let X := (B + smul (A - B) (dist B C / dist B A))%P in
    let M := midp X C in
    ret [B; M]
  else if (pred =? "ebisector")%string then
    Ps <- lookup_pts ps ;; '(A, B, C) <- unpack3 Ps ;;
    let X := (B + smul (A - B) (dist B C / dist B A))%P in
    let M := midp X C in
    let Y := (B + rotate_counterclockwise_90 (M - B))%P in
    ret [B; Y]
  else if (pred =? "eqoangle")%string then
    Ps <- lookup_pts ps ;; '(B, C, D, E, F) <- unpack5 Ps ;;
    let theta := angle D E F in
    let X := (B + rotate_counterclockwise theta (C - B))%P in
    (* A, P, Q and R are not names of this function *)
    A <- lift (load_global "A") ;;
    P <- lift (load_global "P") ;;
    Q <- lift (load_global "Q") ;;
    R0 <- lift (load_global "R") ;;
    segments_extend [(A, B); (B, C); (P, Q); (Q, R0)] ;;
    ret [B; X]
  else raise RuntimeError.

Definition line2sif (l : Line) : M SlopeInterceptForm :=
  Ps <- line2twoPts l ;; '(p1, p2) <- unpack2 Ps ;;
  ret (pp2sif p1 p2).

Definition circ2nf (circ : Circle) : M CircleNF :=
  let pred := circ_pred circ in
  let ps := circ_points circ in
  if (pred =? "c3")%string then
    Ps <- lookup_pts ps ;; '(A, B, C) <- unpack3 Ps ;;
    let O := circumcenter A B C in
    ret (mkCircleNF O (dist O A))
  else if (pred =? "coa")%string then
    Ps <- lookup_pts ps ;; '(O', A) <- unpack2 Ps ;;
    ret (mkCircleNF O' (dist O' A))
  else if (pred =? "cong")%string then
    Ps <- lookup_pts ps ;; '(O', X, Y) <- unpack3 Ps ;;
    ret (mkCircleNF O' (dist X Y))
  else if (pred =? "diam")%string then
    Ps <- lookup_pts ps ;; '(B, C) <- unpack2 Ps ;;
    let O := midp B C in
    (* CircleNF(center=O, radius=dist(O, B)) *)
    r <- lift (load_global "dist") ;;
    ret (mkCircleNF O r)
  else raise RuntimeError.

Definition process_rs (P1 P2 : Point) (root_select : arg) : M Point :=
  rs <- as_root_select root_select ;;
  let pred := rs_pred rs in
  let rs_args := rs_vars rs in
  if (pred =? "neq")%string then
    ns <- names_of_vars rs_args ;; Ps <- lookup_pts ns ;; pt <- unpack1 Ps ;;
    ret (Scalar.cond (pt_neq P1 pt) P1 P2)
  else if (pred =? "closerTo")%string then
    ns <- names_of_vars rs_args ;; Ps <- lookup_pts ns ;; pt <- unpack1 Ps ;;
    let test := Scalar.lte (sqdist P1 pt) (sqdist P2 pt) in
    ret (Scalar.cond test P1 P2)
  else if (pred =? "furtherFrom")%string then
    ns <- names_of_vars rs_args ;; Ps <- lookup_pts ns ;; pt <- unpack1 Ps ;;
    let test := Scalar.lt (sqdist P2 pt) (sqdist P1 pt) in
    ret (Scalar.cond test P1 P2)
  else if (pred =? "oppSides")%string then
    v0 <- getitem rs_args 0 ;; ns <- iter_var v0 ;;
    Ps <- lookup_pts ns ;; pt <- unpack1 Ps ;;
    v1 <- getitem rs_args 1 ;; l <- line_of_var v1 ;;
    ab <- line2twoPts l ;; '(a, b) <- unpack2 ab ;;
    ret (Scalar.cond (opp_sides P1 pt a b) P1 P2)
  else if (pred =? "sameSide")%string then
    v0 <- getitem rs_args 0 ;; ns <- iter_var v0 ;;
    Ps <- lookup_pts ns ;; pt <- unpack1 Ps ;;
    v1 <- getitem rs_args 1 ;; l <- line_of_var v1 ;;
    ab <- line2twoPts l ;; '(a, b) <- unpack2 ab ;;
    ret (Scalar.cond (same_side P1 pt a b) P1 P2)
  else if (pred =? "arbitrary")%string then ret P2
  else raise NotImplementedError.

(** *** Comp. Geo: the methods that touch the object *)

Definition inter_lc (l : SlopeInterceptForm) (c : CircleNF)
    (root_select : arg) : M Point :=
  let p1 := sif_p1 l in
  let p2 := sif_p2 l in
  '(I1, I2) <- unpack2 (inter_pp_c p1 p2 c) ;;
  circles_append (center c, radius c) ;;
  process_rs I1 I2 root_select.

Definition inter_cc (cnf1 cnf2 : CircleNF) (root_select : arg) : M Point :=
  let l := radical_axis cnf1 cnf2 in
  result <- inter_lc l cnf1 root_select ;;
  circles_append (center cnf1, radius cnf1) ;;
  circles_append (center cnf2, radius cnf2) ;;
  ret result.

(** The value bound to [loss] in [make_lc_intersect]. *)
Definition lc_intersect_loss (l : SlopeInterceptForm) (c : CircleNF) : scalar :=
  let A := sif_p1 l in
  let B := sif_p2 l in
  let O := center c in
  let r := radius c in
  let Operp := (rotate_counterclockwise_90 (A - B) + O)%P in
  let F := inter_ll l (pp2sif O Operp) in
  let d := dist O F in
  let f_val := Scalar.cond (Scalar.lt r d) d #0 in
  Scalar.cond (Scalar.logical_or (Scalar.lt (dist O Operp) #1e-6)
                                 (Scalar.lt (dist A B) #1e-6))
              #0 f_val.

Definition make_lc_intersect (name : string) (l : SlopeInterceptForm)
    (c : CircleNF) : M unit :=
  register_loss ("interLC_" ++ name)%string (lc_intersect_loss l c) 1e-1%R.

Definition eqratio_diff (A B C D P Q R S : Point) : result scalar :=
  (* AB/CD = PQ/RS *)
  match load_global "dist" with
  | Ok d_AB =>
      Ok (Scalar.sqrt (d_AB * dist R S) - Scalar.sqrt (dist P Q * dist C D))
  | Raise e => Raise e
  end.

Definition harmonic_l_conj (X A B : Point) : result Point :=
  (* see picture in https://en.wikipedia.org/wiki/Projective_harmonic_conjugate
     L is arbitrary here, not on the line X A B *)
  match load_global "const" with
  | Ok theta =>
      let L := (A + smul (rotate_counterclockwise theta (X - A)) #0.5)%P in
      let M := midp A L in
      let N := inter_ll (pp2sif B L) (pp2sif X M) in
      let K := inter_ll (pp2sif A N) (pp2sif B M) in
      let Y := inter_ll (pp2sif L K) (pp2sif A X) in
      Ok Y
  | Raise e => Raise e
  end.

(** [Ps[i]] where the index was reduced modulo the length. *)
Definition item_mod (Ps : list Point) (i : nat) (dflt : Point) : Point :=
  nth (i mod length Ps) Ps dflt.

Definition in_poly_phis (X : Point) (Ps : list Point) : list scalar :=
  let n := length Ps in
  map (fun i =>
         let A := item_mod Ps i X in
         let B := item_mod Ps (i + 1) X in
         let C := item_mod Ps (i + 2) X in
         (* X and C are on the same side of AB *)
         Scalar.max #0 (- side_score_prod X C A B))
      (seq 0 n).

(** Equality of two scalars, [a == b]: an undefined value is equal to
  nothing, not to another undefined value either (NaN != NaN). *)
Definition scalar_eqb (a b : scalar) : bool :=
  match a, b with
  | Some u, Some v => if Req_dec_T u v then true else false
  | _, _ => false
  end.

Definition Point_eqb (A B : Point) : bool :=
  scalar_eqb (x A) (x B) && scalar_eqb (y A) (y B).

(** Membership of a point in a list of points, [A in [C, D]]: Python takes
  an element that is the same object, and else one with equal coordinates.
  A point comes here with the name it was looked up under: the registry
  holds one object for a name, so two points that were looked up under the
  same name are the same object. *)
Definition Point_in (A : string * Point) (l : list (string * Point)) : bool :=
  existsb (fun C => String.eqb (fst A) (fst C) || Point_eqb (snd A) (snd C)) l.

(** *** Assert *)

Definition assertion_vals (pred : string) (ps : list string) : M (list scalar) :=
  if (pred =? "amidpOpp")%string then
    Ps <- lookup_pts ps ;; '(M', B, C, A) <- unpack4 Ps ;;
    X <- lift (amidp_opp B C A) ;;
    ret [dist M' X]
  else if (pred =? "amidpSame")%string then
    Ps <- lookup_pts ps ;; '(M', B, C, A) <- unpack4 Ps ;;
    X <- lift (amidp_same B C A) ;;
    ret [dist M' X]
  else if (pred =? "between")%string then
    Ps <- lookup_pts ps ;; '(X, A, B) <- splat3 Ps ;;
    ret (between_gap X A B)
  else if (pred =? "circumcenter")%string then
    Ps <- lookup_pts ps ;; '(O', A, B, C) <- unpack4 Ps ;;
    circles_append (O', dist O' A) ;;
    ret [dist O' (circumcenter A B C)]
  else if (pred =? "coll")%string then
    coll_ps <- lookup_pts ps ;;
    diffs <- mapM (fun t => '(A, B, C) <- unpack3 t ;; ret (coll_phi A B C))
                  (combinations coll_ps 3) ;;
    forM_ (seq 0 (length coll_ps - 1))
          (fun i => Pi <- getitem coll_ps i ;; Pj <- getitem coll_ps (i + 1) ;;
                    segments_append (Pi, Pj)) ;;
    ret diffs
  else if (pred =? "cong")%string then
    Ps <- lookup_pts ps ;;
    (* A, B, C, D = ...: the points, each with its name *)
    '(nA, nB, nC, nD) <- unpack4 (combine ps Ps) ;;
    let A := snd nA in
    let B := snd nB in
    let C := snd nC in
    let D := snd nD in
    (if Point_in nA [nC; nD] then circles_append (A, dist A B)
     else if Point_in nB [nC; nD] then circles_append (B, dist A B)
     else ret tt) ;;
    ret [cong_diff A B C D]
  else if (pred =? "contri")%string then
    Ps <- lookup_pts ps ;; '(A, B, C, P, Q, R) <- unpack6 Ps ;;
    segments_extend [(A, B); (B, C); (C, A); (P, Q); (Q, R); (R, P)] ;;
    ret [eqangle6_diff A B C P Q R;
         eqangle6_diff B C A Q R P;
         eqangle6_diff C A B R P Q;
         cong_diff A B P Q;
         cong_diff A C P R;
         cong_diff B C Q R]
  else if (pred =? "cycl")%string then
    cycl_ps <- lookup_pts ps ;;
    (if (3 <? length ps)%nat then ret tt else raise AssertionError) ;;
    '(A0, B0, C0) <- splat3 (firstn 3 cycl_ps) ;;
    let O := circumcenter A0 B0 C0 in
    diffs <- mapM (fun t => '(A, B, C, D) <- unpack4 t ;;
                            ret (eqangle6_diff A B D A C D))
                  (combinations cycl_ps 4) ;;
    P0 <- getitem cycl_ps 0 ;;
    circles_append (O, dist O P0) ;;
    ret diffs
  else if (pred =? "distLt")%string then
    Ps <- lookup_pts ps ;; '(X, Y, A, B) <- unpack4 Ps ;;
    (* self.dist(X, Y) - dist(A, B) *)
    d_AB <- lift (load_global "dist") ;;
    ret [Scalar.max #0 (dist X Y - d_AB)]
  else if (pred =? "distGt")%string then
    Ps <- lookup_pts ps ;; '(X, Y, A, B) <- unpack4 Ps ;;
    ret [Scalar.max #0 (dist A B - dist X Y)]
  else if (pred =? "eqangle")%string then
    Ps <- lookup_pts ps ;; '(A, B1, B2, C, P, Q1, Q2, R) <- splat8 Ps ;;
    ret [eqangle8_diff A B1 B2 C P Q1 Q2 R]
  else if (pred =? "eqoangle")%string then
    Ps <- lookup_pts ps ;; '(A, B, C, P, Q, R) <- unpack6 Ps ;;
    ret [angle A B C - angle P Q R]
  else if (pred =? "eqratio")%string then
    Ps <- lookup_pts ps ;; '(A, B, C, D, P, Q, R, S') <- splat8 Ps ;;
    v <- lift (eqratio_diff A B C D P Q R S') ;;
    ret [v]
  else if (pred =? "foot")%string then
    Ps <- lookup_pts ps ;; '(F, X, A, B) <- unpack4 Ps ;;
    ret [coll_phi F A B; perp_phi F X A B]
  else if (pred =? "ibisector")%string then
    Ps <- lookup_pts ps ;; '(X, B, A, C) <- unpack4 Ps ;;
    segments_extend [(B, A); (A, X); (A, C)] ;;
    ret [eqangle8_diff B A A X X A A C]
  else if (pred =? "incenter")%string then
    Ps <- lookup_pts ps ;; '(I', A, B, C) <- unpack4 Ps ;;
    ret [dist I' (incenter A B C)]
  else if (pred =? "insidePolygon")%string then
    Ps <- lookup_pts ps ;;
    match Ps with
    | X :: Ps' => ret (in_poly_phis X Ps')
    | [] => raise TypeError
    end
  else if (pred =? "interLL")%string then
    Ps <- lookup_pts ps ;; '(X, A, B, C, D) <- unpack5 Ps ;;
    ret [coll_phi X A B; coll_phi X C D]
  else if (pred =? "isogonal")%string then
    Ps <- lookup_pts ps ;; '(X, Y, A, B, C) <- unpack5 Ps ;;
    ret [dist X (isogonal Y A B C)]
  else if (pred =? "midp")%string then
    Ps <- lookup_pts ps ;; '(M', A, B) <- unpack3 Ps ;;
    ret [dist M' (midp A B)]
  else if (pred =? "onRay")%string then
    Ps <- lookup_pts ps ;; '(X, A, B) <- splat3 Ps ;;
    Ps2 <- lookup_pts ps ;; '(X2, A2, B2) <- splat3 Ps2 ;;
    ret ([coll_phi X A B] ++ onray_gap X2 A2 B2)
  else if (pred =? "onSeg")%string then
    Ps <- lookup_pts ps ;; '(X, A, B) <- splat3 Ps ;;
    Ps2 <- lookup_pts ps ;; '(X2, A2, B2) <- splat3 Ps2 ;;
    ret ([coll_phi X A B] ++ between_gap X2 A2 B2)
  else if (pred =? "oppSides")%string then
    Ps <- lookup_pts ps ;; '(A, B, X, Y) <- unpack4 Ps ;;
    ret [Scalar.max #0 (side_score_prod A B X Y)]
  else if (pred =? "orthocenter")%string then
    Ps <- lookup_pts ps ;; '(H, A, B, C) <- unpack4 Ps ;;
    ret [dist H (orthocenter A B C)]
  else if (pred =? "perp")%string then
    Ps <- lookup_pts ps ;; '(A, B, C, D) <- splat4 Ps ;;
    ret [perp_phi A B C D]
  else if (pred =? "para")%string then
    Ps <- lookup_pts ps ;; '(A, B, C, D) <- splat4 Ps ;;
    ret [para_phi A B C D]
  else if (pred =? "reflectPL")%string then
    Ps <- lookup_pts ps ;; '(X, Y, A, B) <- unpack4 Ps ;;
    ret [perp_phi X Y A B; cong_diff A X A Y]
  else if (pred =? "sameSide")%string then
    Ps <- lookup_pts ps ;; '(A, B, X, Y) <- unpack4 Ps ;;
    ret [Scalar.max #0 (- side_score_prod A B X Y)]
  else if (pred =? "simtri")%string then
    Ps <- lookup_pts ps ;; '(A, B, C, P, Q, R) <- unpack6 Ps ;;
    segments_extend [(A, B); (B, C); (C, A); (P, Q); (Q, R); (R, P)] ;;
    ret [eqangle6_diff A B C P Q R; eqangle6_diff B C A Q R P;
         eqangle6_diff C A B R P Q]
  else raise NotImplementedError.

(** The label of residual [i] among [n]: the bare label when there is one. *)
Definition val_label (a_str : string) (n i : nat) : string :=
  if (n =? 1)%nat then a_str else (a_str ++ "_" ++ str_nat i)%string.

(** [1 / len(vals)] *)
Definition inv_len {A : Type} (vals : list A) : M R :=
  match vals with
  | [] => raise ZeroDivisionError
  | _ => ret (1 / INR (length vals))%R
  end.

Definition enumerate {A : Type} (l : list A) : list (nat * A) :=
  combine (seq 0 (length l)) l.

Definition add (cons : Constraint) : M unit :=
  let pred := cons_pred cons in
  let ps := cons_points cons in
  let negate := cons_negate cons in
  if negate then raise RuntimeError
  else
    vals <- assertion_vals pred ps ;;
    let a_str := (pred ++ "_" ++ join "_" ps)%string in
    weight <- inv_len vals ;;
    forM_ (enumerate vals)
          (fun '(i, val) =>
             let loss_str := val_label a_str (length vals) i in
             register_loss loss_str val weight).

Definition addNDG (ndg_cons : Constraint) : M unit :=
  let pred := cons_pred ndg_cons in
  let ps := cons_points ndg_cons in
  vals <- assertion_vals pred ps ;;
  let a_str := ("not_" ++ pred ++ "_" ++ join "_" ps)%string in
  weight <- inv_len vals ;;
  forM_ (enumerate vals)
        (fun '(i, val) =>
           let ndg_str := val_label a_str (length vals) i in
           register_ndg ndg_str val weight).

Definition confirm (goal_cons : Constraint) : M unit :=
  let pred := cons_pred goal_cons in
  let ps := cons_points goal_cons in
  let negate := cons_negate goal_cons in
  vals <- assertion_vals pred ps ;;
  let g_str := (pred ++ "_" ++ join "_" ps)%string in
  let g_str := if negate then ("not_" ++ g_str)%string else g_str in
  forM_ (enumerate vals)
        (fun '(i, val) =>
           let goal_str := val_label g_str (length vals) i in
           register_goal goal_str val).

(** *** Sample *)

Definition sample_uniform (ps : list string) : M unit :=
  p <- unpack1 ps ;;
  let P := get_point (mkvar (p ++ "x") (-1.0) 1.0) (mkvar (p ++ "y") (-1.0) 1.0) in
  register_pt p P.

(** [Ps[-2:]] *)
Definition last_two {A : Type} (l : list A) : list A := skipn (length l - 2) l.

(** The loop of [sample_polygon] that builds the vertices, over the values of
  its index. *)
Fixpoint polygon_vertices (idx : list nat) (angles scales : list scalar)
    (s : scalar) (Ps : list Point) : M (list Point) :=
  match idx with
  | [] => ret Ps
  | i :: idx' =>
      '(A, B) <- unpack2 (last_two Ps) ;;
      a <- getitem angles (i - 1) ;;
      let X := (B + rotate_counterclockwise (- a) (A - B))%P in
      sc <- getitem scales (i - 1) ;;
      let P := (B + smul (X - B) (s * (#1 + sc) / dist X B))%P in
      polygon_vertices idx' angles scales s (Ps ++ [simplify P "trig"])
  end.

Definition sample_polygon (ps : list string) : M unit :=
  let n := length ps in
  let angle_zs :=
    map (fun i => mkvar ("polygon_angle_zs_" ++ str_nat i) (-0.5) 0.5) (seq 0 n) in
  (if (n =? 0)%nat then raise ZeroDivisionError else ret tt) ;;
  let multiplicand := (((INR n - 2) / INR n) * PI + (PI / 3))%R in
  let angles := map (fun az => #multiplicand * Scalar.tanh (#0.2 * az)) angle_zs in
  let scale_zs :=
    map (fun i => mkvar ("polygon_scale_zs_" ++ str_nat i) (-1.0) 1.0) (seq 0 n) in
  let scales := map (fun sz => #0.5 * Scalar.tanh (#0.2 * sz)) scale_zs in
  let Ps := [get_point #(-2.0) #0.0; get_point #2.0 #0.0] in
  P0 <- getitem Ps 0 ;; P1 <- getitem Ps 1 ;;
  let s := dist P0 P1 in
  Ps <- polygon_vertices (seq 2 (n - 1)) angles scales s Ps ;;
  (* Angles should sum to (n-2) * pi *)
  let angle_sum := Scalar.sum angles in
  let expected_angle_sum := (PI * (INR n - 2))%R in
  register_loss "polygon-angle-sum" (angle_sum - #expected_angle_sum) 1e-1 ;;
  (* First point shoudl equal the last point *)
  P0 <- getitem Ps 0 ;; Pn <- getitem Ps n ;;
  register_loss "polygon-first-eq-last" (dist P0 Pn) 1e-2 ;;
  (* First angle should be the one sampled (known to be <180) *)
  a0 <- getitem angles 0 ;;
  Pl <- last_item Ps ;; P0 <- getitem Ps 0 ;; P1 <- getitem Ps 1 ;;
  register_loss "polygon-first-angle-eq-sampled" (a0 - angle Pl P0 P1) 1e-2 ;;
  forM_ (seq 0 n)
        (fun i => Pi <- getitem Ps i ;; Pj <- getitem Ps ((i + 1) mod n) ;;
                  segments_append (Pi, Pj)) ;;
  forM_ (combine ps (removelast Ps)) (fun '(p, P) => register_pt p P).

(** Truth value of an optional name: [None] and the empty string are false. *)
Definition truthy (o : option string) : bool :=
  match o with Some s => negb (s =? "")%string | None => false end.

Definition is_not_None (o : option string) : bool :=
  match o with Some _ => true | None => false end.

(** [o == n] for an optional name and a name. *)
Definition eq_name (o : option string) (n : string) : bool :=
  match o with Some s => (s =? n)%string | None => false end.

Definition sample_triangle (ps : list string) (iso right : option string)
    (acute equi : bool) : M unit :=
  if negb (truthy iso || truthy right || acute || equi) then sample_polygon ps
  else
    '(nA, nB, nC) <- unpack3 ps ;;
    let B := get_point #(-2.0) #0.0 in
    let C := get_point #2.0 #0.0 in
    let Ax := if is_not_None iso || equi then #0.0
              else mkvar "tri_x" (-1.0) 1.2 in
    let Ay := if is_not_None right then Scalar.sqrt (#4 - Ax ^ 2)
              else if equi then #2 * Scalar.sqrt #3.0
              else
                let AyLo := (if acute then 1.1 else 0.4)%R in
                let z := mkvar "tri" (-1.0) 1.0 in
                #AyLo + #3.0 * Scalar.sigmoid z in
    let A := get_point Ax Ay in
    (* Shuffle if the isosceles vertex was not C *)
    let '(A, B, C) :=
      if eq_name iso nB || eq_name right nB then (B, A, C)
      else if eq_name iso nC || eq_name right nC then (C, B, A)
      else (A, B, C) in
    register_pt nA A ;;
    register_pt nB B ;;
    register_pt nC C ;;
    segments_extend [(A, B); (B, C); (C, A)].

Definition sample (s_method : string) (points : list string)
    (s_args : list string) : M unit :=
  if (s_method =? "acuteIsoTri")%string then
    (* iso=args[0] *)
    a0 <- lift (load_global "args") ;;
    sample_triangle points (Some a0) None true false
  else if (s_method =? "acuteTri")%string then
    sample_triangle points None None true false
  else if (s_method =? "equiTri")%string then
    sample_triangle points None None false true
  else if (s_method =? "isoTri")%string then
    a0 <- lift (load_global "args") ;;
    sample_triangle points (Some a0) None false false
  else if (s_method =? "polygon")%string then sample_polygon points
  else if (s_method =? "rightTri")%string then
    a0 <- lift (load_global "args") ;;
    sample_triangle points None (Some a0) false false
  else if (s_method =? "triangle")%string then
    sample_triangle points None None false false
  else if (s_method =? "uniform")%string then sample_uniform points
  else raise NotImplementedError.

(** *** Compute *)

Definition compute_midp (m : string) (ps : arg) : M unit :=
  ns <- as_points ps ;; Ps <- lookup_pts ns ;; '(A, B) <- unpack2 Ps ;;
  let M' := midp A B in
  register_pt m M' ;;
  segments_append (A, B).

Definition compute_midp_from (p : string) (ps : arg) : M unit :=
  ns <- as_points ps ;; Ps <- lookup_pts ns ;; '(M', A) <- unpack2 Ps ;;
  let P := midp_from M' A in
  register_pt p P ;;
  segments_append (P, A).

Definition compute_amidp_opp (p : string) (ps : arg) : M unit :=
  ns <- as_points ps ;; Ps <- lookup_pts ns ;; '(B, C, A) <- unpack3 Ps ;;
  P <- lift (amidp_opp B C A) ;;
  register_pt p P.

Definition compute_amidp_same (p : string) (ps : arg) : M unit :=
  ns <- as_points ps ;; Ps <- lookup_pts ns ;; '(B, C, A) <- unpack3 Ps ;;
  P <- lift (amidp_same B C A) ;;
  register_pt p P.

Definition compute_circumcenter (o : string) (ps : arg) : M unit :=
  ns <- as_points ps ;; Ps <- lookup_pts ns ;; '(A, B, C) <- unpack3 Ps ;;
  let O := circumcenter A B C in
  register_pt o O ;;
  circles_append (O, dist O A).

Definition compute_orthocenter (h : string) (ps : arg) : M unit :=
  ns <- as_points ps ;; Ps <- lookup_pts ns ;; '(A, B, C) <- unpack3 Ps ;;
  let H := orthocenter A B C in
  register_pt h H.

Definition compute_centroid (g : string) (ps : arg) : M unit :=
  ns <- as_points ps ;; Ps <- lookup_pts ns ;; '(A, B, C) <- unpack3 Ps ;;
  let G := centroid A B C in
  register_pt g G.

Definition compute_incenter (i : string) (ps : arg) : M unit :=
  ns <- as_points ps ;; Ps <- lookup_pts ns ;; '(A, B, C) <- unpack3 Ps ;;
  let I' := incenter A B C in
  register_pt i I' ;;
  circles_append (I', inradius A B C).

Definition compute_excenter (i : string) (ps : arg) : M unit :=
  ns <- as_points ps ;; Ps <- lookup_pts ns ;; '(A, B, C) <- unpack3 Ps ;;
  let I' := excenter A B C in
  register_pt i I' ;;
  circles_append (I', exradius A B C).

Definition compute_inter_ll (p : string) (l1 l2 : arg) : M unit :=
  l1 <- as_line l1 ;; sif1 <- line2sif l1 ;;
  l2 <- as_line l2 ;; sif2 <- line2sif l2 ;;
  let P := inter_ll sif1 sif2 in
  register_pt p P.

Definition compute_inter_lc (p : string) (l c root_select : arg) : M unit :=
  l <- as_line l ;; l_sif <- line2sif l ;;
  c <- as_circle c ;; cnf <- circ2nf c ;;
  P <- inter_lc l_sif cnf root_select ;;
  make_lc_intersect p l_sif cnf ;;
  register_pt p P.

Definition compute_inter_cc (p : string) (c1 c2 root_select : arg) : M unit :=
  c1 <- as_circle c1 ;; cnf1 <- circ2nf c1 ;;
  c2 <- as_circle c2 ;; cnf2 <- circ2nf c2 ;;
  P <- inter_cc cnf1 cnf2 root_select ;;
  make_lc_intersect p (radical_axis cnf1 cnf2) cnf1 ;;
  register_pt p P.

Definition compute_mixtilinear_incenter (i : string) (ps : arg) : M unit :=
  ns <- as_points ps ;; Ps <- lookup_pts ns ;; '(A, B, C) <- unpack3 Ps ;;
  let I' := mixtilinear_incenter A B C in
  register_pt i I' ;;
  circles_append (I', mixtilinear_inradius A B C).

Definition compute_isogonal (y : string) (ps : arg) : M unit :=
  ns <- as_points ps ;; Ps <- lookup_pts ns ;; '(X, A, B, C) <- unpack4 Ps ;;
  let Y := isogonal X A B C in
  register_pt y Y.

Definition compute_isotomic (y : string) (ps : arg) : M unit :=
  ns <- as_points ps ;; Ps <- lookup_pts ns ;; '(X, A, B, C) <- unpack4 Ps ;;
  let Y := isotomic X A B C in
  register_pt y Y.

Definition compute_inverse (y : string) (ps : arg) : M unit :=
  ns <- as_points ps ;; Ps <- lookup_pts ns ;; '(X, O', A) <- unpack3 Ps ;;
  let Y := inverse X O' A in
  register_pt y Y ;;
  circles_append (O', dist O' A).

Definition compute_harmonic_l_conj (y : string) (ps : arg) : M unit :=
  ns <- as_points ps ;; Ps <- lookup_pts ns ;; '(X, A, B) <- unpack3 Ps ;;
  Y <- lift (harmonic_l_conj X A B) ;;
  register_pt y Y ;;
  segments_append (A, B) ;;
  segments_append (X, Y).

(** [c_args[k]], for [1 <= k]: element 0 of the tuple is the method tag. *)
Definition c_arg (c_args : list arg) (k : nat) : M arg := getitem c_args (k - 1).

Definition compute (p : string) (c_method : string) (c_args : list arg) : M unit :=
  if (c_method =? "amidpOpp")%string then
    a1 <- c_arg c_args 1 ;; compute_amidp_opp p a1
  else if (c_method =? "amidpSame")%string then
    a1 <- c_arg c_args 1 ;; compute_amidp_same p a1
  else if (c_method =? "centroid")%string then
    a1 <- c_arg c_args 1 ;; compute_centroid p a1
  else if (c_method =? "circumcenter")%string then
    a1 <- c_arg c_args 1 ;; compute_circumcenter p a1
  else if (c_method =? "excenter")%string then
    a1 <- c_arg c_args 1 ;; compute_excenter p a1
  else if (c_method =? "harmonicLConj")%string then
    a1 <- c_arg c_args 1 ;; compute_harmonic_l_conj p a1
  else if (c_method =? "incenter")%string then
    a1 <- c_arg c_args 1 ;; compute_incenter p a1
  else if (c_method =? "interLL")%string then
    a1 <- c_arg c_args 1 ;; a2 <- c_arg c_args 2 ;; compute_inter_ll p a1 a2
  else if (c_method =? "interLC")%string then
    a1 <- c_arg c_args 1 ;; a2 <- c_arg c_args 2 ;; a3 <- c_arg c_args 3 ;;
    compute_inter_lc p a1 a2 a3
  else if (c_method =? "interCC")%string then
    a1 <- c_arg c_args 1 ;; a2 <- c_arg c_args 2 ;; a3 <- c_arg c_args 3 ;;
    compute_inter_cc p a1 a2 a3
  else if (c_method =? "isogonal")%string then
    a1 <- c_arg c_args 1 ;; compute_isogonal p a1
  else if (c_method =? "isotomic")%string then
    a1 <- c_arg c_args 1 ;; compute_isotomic p a1
  else if (c_method =? "inverse")%string then
    a1 <- c_arg c_args 1 ;; compute_inverse p a1
  else if (c_method =? "midp")%string then
    a1 <- c_arg c_args 1 ;; compute_midp p a1
  else if (c_method =? "midpFrom")%string then
    a1 <- c_arg c_args 1 ;; compute_midp_from p a1
  else if (c_method =? "mixtilinearIncenter")%string then
    a1 <- c_arg c_args 1 ;; compute_mixtilinear_incenter p a1
  else if (c_method =? "orthocenter")%string then
    a1 <- c_arg c_args 1 ;; compute_orthocenter p a1
  else raise NotImplementedError.

(** *** Parameterize *)

Definition parameterize_coords (p : string) : M unit := sample_uniform [p].

Definition parameterize_on_seg (p : string) (ps : arg) : M unit :=
  ns <- as_points ps ;; Ps <- lookup_pts ns ;; '(A, B) <- unpack2 Ps ;;
  let z := mkvar (p ++ "_seg") (-1.0) 1.0 in
  let z := #0.2 * z in
  register_loss (p ++ "_seg_regularization") z 1e-4 ;;
  register_pt p (A + smul (B - A) (Scalar.sigmoid z))%P ;;
  segments_append (A, B).

Definition parameterize_on_line (p : string) (l : arg) : M unit :=
  l <- as_line l ;; Ps <- line2twoPts l ;; '(A, B) <- unpack2 Ps ;;
  let z := mkvar (p ++ "_line") (-1.0) 1.0 in
  let z := #0.2 * z in
  register_loss (p ++ "_line_regularization") z 1e-4 ;;
  let s := #3.0 in
  let P1 := (A + smul (A - B) s)%P in
  let P2 := (B + smul (B - A) s)%P in
  register_pt p (P1 + smul (P2 - P1) (Scalar.sigmoid z))%P ;;
  segments_append (A, B).

Definition parameterize_on_ray (p : string) (ps : arg) : M unit :=
  ns <- as_points ps ;; Ps <- lookup_pts ns ;; '(A, B) <- unpack2 Ps ;;
  let z := mkvar (p ++ "_ray") (-1.0) 1.0 in
  let P := (A + smul (B - A) (Scalar.exp z))%P in
  register_pt p P ;;
  segments_extend [(A, B); (A, P)].

Definition parameterize_on_ray_opp (p : string) (ps : arg) : M unit :=
  ns <- as_points ps ;; Ps <- lookup_pts ns ;; '(A, B) <- unpack2 Ps ;;
  let z := mkvar (p ++ "_ray_opp") (-1.0) 1.0 in
  let P := (A + smul (A - B) (Scalar.exp z))%P in
  register_pt p P ;;
  segments_extend [(A, B); (A, P)].

Definition parameterize_on_circ (p : string) (circ : arg) : M unit :=
  circ <- as_circle circ ;; cnf <- circ2nf circ ;;
  let O := center cnf in
  let r := radius cnf in
  let rot := mkvar (p ++ "_rot") (-1.0) 1.0 in
  let theta := rot * #2 * #PI in
  let X := get_point (x O + r * Scalar.cos theta) (y O + r * Scalar.sin theta) in
  register_pt p X ;;
  circles_append (O, r).

Definition parameterize_in_poly (p : string) (ps : arg) : M unit :=
  ns <- as_points ps ;; Ps <- lookup_pts ns ;;
  let zs := map (fun poly_p => mkvar (p ++ "_in_poly_" ++ poly_p) (-1.0) 1.0) ns in
  let ws := softmax zs in
  let Px := Scalar.sum (map (fun '(P, w) => x P * w) (combine Ps ws)) in
  let Py := Scalar.sum (map (fun '(P, w) => y P * w) (combine Ps ws)) in
  let P := get_point Px Py in
  register_pt p P.

Definition parameterize (p : string) (p_method : string) (p_args : list arg)
  : M unit :=
  if (p_method =? "coords")%string then parameterize_coords p
  else if (p_method =? "inPoly")%string then
    a1 <- c_arg p_args 1 ;; parameterize_in_poly p a1
  else if (p_method =? "onCirc")%string then
    a1 <- c_arg p_args 1 ;; parameterize_on_circ p a1
  else if (p_method =? "onLine")%string then
    a1 <- c_arg p_args 1 ;; parameterize_on_line p a1
  else if (p_method =? "onRay")%string then
    a1 <- c_arg p_args 1 ;; parameterize_on_ray p a1
  else if (p_method =? "onRayOpp")%string then
    a1 <- c_arg p_args 1 ;; parameterize_on_ray_opp p a1
  else if (p_method =? "onSeg")%string then
    a1 <- c_arg p_args 1 ;; parameterize_on_seg p a1
  else raise NotImplementedError.

(** *** The pass over the instructions *)

Definition process_instruction (i : Instruction) : M unit :=
  match i with
  | Sample s_method points s_args => sample s_method points s_args
  | Compute p c_method c_args => compute p c_method c_args
  | Parameterize p p_method p_args => parameterize p p_method p_args
  | Assert constraint => add constraint
  | AssertNDG constraint => addNDG constraint
  | Confirm constraint => confirm constraint
  | OtherInstruction => raise NotImplementedError
  end.

Definition preprocess : M unit :=
  instrs <- gets instructions ;;
  forM_ instrs process_instruction.

End Interpreter.

(** Running [preprocess] on a fresh object. *)
Definition run (mkvar : string -> R -> R -> scalar)
    (simplify : Point -> string -> Point) (instrs : list Instruction)
  : result unit * Optimizer :=
  preprocess mkvar simplify (init instrs).

(** ** Definitions for the statements *)

(** Twice the signed area of a triangle: the value of [coll_phi]. *)
Definition twice_area (ax ay bx by_ cx cy : R) : R :=
  ax * (by_ - cy) + bx * (cy - ay) + cx * (ay - by_).

(** The root selector [arbitrary], with any [vars]. *)
Definition arbitrary (vars : list rs_var) : arg :=
  ArgRootSelect (mkRootSelect "arbitrary" vars).

(** A name is registered in the object. *)
Definition registered (o : Optimizer) (p : string) : Prop :=
  dict_get (name2pt o) p <> None.

(** The vertices that [equiTri] places. *)
Definition equi_A : Point := RPt 0 (2 * sqrt 3).
Definition equi_B : Point := RPt (-2) 0.
Definition equi_C : Point := RPt 2 0.

(** The binomial coefficient, by Pascal's rule. *)
Fixpoint binom (n k : nat) : nat :=
  match k with
  | O => 1
  | S k' => match n with
            | O => 0
            | S n' => binom n' k' + binom n' k
            end
  end.

(** The residual of a triple of points. *)
Definition coll3 (t : list Point) : scalar :=
  match t with
  | [A; B; C] => coll_phi A B C
  | _ => None
  end.

(** The point of a pair of real coordinates. *)
Definition pt (q : R * R) : Point := RPt (fst q) (snd q).

(** A set of points has one point [d] off the line [a x + b y + c = 0],
  which carries all the others. *)
Definition one_off_line (qs : list (R * R)) (d : R * R) (a b c : R) : Prop :=
  NoDup qs /\ In d qs /\ (a <> 0 \/ b <> 0) /\
  (forall q, In q qs -> q <> d -> a * fst q + b * snd q + c = 0) /\
  a * fst d + b * snd d + c <> 0.

(** The distance from a point to the line through two points: twice the area
  of the triangle over the base. *)
Definition dist_point_line (O A B : Point) : scalar :=
  Scalar.div (Scalar.abs (coll_phi O A B)) (dist A B).

(** The test under which [make_lc_intersect] gives the loss 0 whatever the
  distance: the base or the perpendicular is shorter than 1e-6. *)
Definition lc_degenerate (O A B : Point) : bool :=
  Scalar.logical_or
    (Scalar.lt (dist O (Point.add (rotate_counterclockwise_90 (Point.sub A B)) O))
               (Scalar.const 1e-6))
    (Scalar.lt (dist A B) (Scalar.const 1e-6)).

(** The point [F] of [make_lc_intersect] and of [on_neg]: where the line
  through [A] and [B] meets the perpendicular through [O]. *)
Definition foot (O A B : Point) : Point :=
  inter_ll (pp2sif A B)
           (pp2sif O (Point.add (rotate_counterclockwise_90 (Point.sub A B)) O)).

(** Objects for the examples: a fresh object with a given registry. *)
Definition with_registry (d : list (string * Point)) : Optimizer :=
  set_name2pt d (init []).

Definition three_on_a_line : Optimizer :=
  with_registry [("A", RPt 0 0); ("B", RPt 1 1); ("C", RPt 2 2)]%string.

Definition eight_points : Optimizer :=
  with_registry [("A", RPt 0 0); ("B", RPt 1 0); ("C", RPt 0 2); ("D", RPt 3 1);
                 ("P", RPt 1 1); ("Q", RPt 2 5); ("R", RPt 4 4); ("S", RPt 5 2)]%string.

(** ** A further utility of the source *)

(** The loop of [points_far_enough_away] over the pairs of names. *)
Fixpoint far_enough_loop (name2pt : list (string * Point)) (min_dist : scalar)
    (pairs : list (list string)) : result bool :=
  match pairs with
  | [] => Ok true
  | t :: pairs' =>
      match t with
      | [a; b] =>
          match dict_get name2pt a with
          | None => Raise (KeyError a)
          | Some A =>
              match dict_get name2pt b with
              | None => Raise (KeyError b)
              | Some B =>
                  let d := dist A B in
                  if Scalar.lt d min_dist then Ok false
                  else far_enough_loop name2pt min_dist pairs'
              end
          end
      | _ => Raise ValueError
      end
  end.

(** [points_far_enough_away(name2pt, min_dist)]: the registry is the one
  that is passed, not the one of the object. *)
Definition points_far_enough_away (name2pt : list (string * Point))
    (min_dist : scalar) : result bool :=
  far_enough_loop name2pt min_dist (combinations (map fst name2pt) 2).

(** ** Definitions for the further statements *)

(** The squared length of the vector between two points given by their
  coordinates. *)
Definition sq_len (x1 y1 x2 y2 : R) : R := (x1 - x2) ^ 2 + (y1 - y2) ^ 2.

(** A root selector that names one reference point. *)
Definition select_by (pred p : string) : arg :=
  ArgRootSelect (mkRootSelect pred [RsName p]).

(** The sum of the values [vs] weighted by [ws]. *)
Definition weighted_sum (vs ws : list R) : R :=
  fold_left Rplus (map (fun '(v, w) => v * w) (combine vs ws)) 0.

(** The entries that the loop of [add] writes: the label and the weighted
  residual, for each index. *)
Definition residual_entries (a_str : string) (weight : R) (n : nat)
    (ivs : list (nat * scalar)) : list (string * (scalar * R)) :=
  map (fun '(i, val) => (val_label a_str n i, (val, weight))) ivs.

(** Every key of the dict [d] is a key of [d']. *)
Definition keeps_keys {V : Type} (d d' : list (string * V)) : Prop :=
  forall k, dict_get d k <> None -> dict_get d' k <> None.

(** The object [o'] extends [o]: the points, the circles and the segments of
  [o] are those of [o'] up to what was added after them, every label of a
  loss, of a non-degeneracy condition and of a goal is still there, and the
  instructions are the same. *)
Definition extends (o o' : Optimizer) : Prop :=
  (exists l, name2pt o' = name2pt o ++ l) /\
  (exists l, circles o' = circles o ++ l) /\
  (exists l, segments o' = segments o ++ l) /\
  keeps_keys (losses o) (losses o') /\
  keeps_keys (ndgs o) (ndgs o') /\
  keeps_keys (goals o) (goals o') /\
  instructions o' = instructions o.

(** A method that only adds to the object, whether it returns or raises. *)
Definition append_only {A : Type} (m : M A) : Prop :=
  forall o, extends o (snd (m o)).

(** ** The free variables of a program *)

(** A free variable as a handler asks the backend for it: its name and the
  bounds it is created with. *)
Definition free_variable : Type := (string * R * R)%type.

(** The variables of [sample_uniform]. *)
Definition uniform_vars (ps : list string) : list free_variable :=
  match ps with
  | [p] => [((p ++ "x")%string, -1.0, 1.0); ((p ++ "y")%string, -1.0, 1.0)]
  | _ => []
  end.

(** The variables of [sample_polygon]: an angle and a scale for each name. *)
Definition polygon_vars (ps : list string) : list free_variable :=
  map (fun i => (("polygon_angle_zs_" ++ str_nat i)%string, -0.5, 0.5))
      (seq 0 (length ps))
  ++ map (fun i => (("polygon_scale_zs_" ++ str_nat i)%string, -1.0, 1.0))
         (seq 0 (length ps)).

(** The variables of [sample_triangle], by its keyword arguments. *)
Definition triangle_vars (ps : list string) (iso right : option string)
    (acute equi : bool) : list free_variable :=
  if negb (truthy iso || truthy right || acute || equi) then polygon_vars ps
  else
    (if is_not_None iso || equi then [] else [("tri_x"%string, -1.0, 1.2)])
    ++ (if is_not_None right then []
        else if equi then [] else [("tri"%string, -1.0, 1.0)]).

(** The variable of a parameterization with one variable. *)
Definition param_var (p suffix : string) : list free_variable :=
  [((p ++ suffix)%string, -1.0, 1.0)].

(** The variables that the handler of an instruction can ask for, read off
  the instruction: the branches are those of [sample] and of
  [parameterize]; the other instructions have none. *)
Definition instruction_vars (i : Instruction) : list free_variable :=
  match i with
  | Sample s_method points _ =>
      if (s_method =? "acuteIsoTri")%string then []
      else if (s_method =? "acuteTri")%string then
        triangle_vars points None None true false
      else if (s_method =? "equiTri")%string then
        triangle_vars points None None false true
      else if (s_method =? "isoTri")%string then []
      else if (s_method =? "polygon")%string then polygon_vars points
      else if (s_method =? "rightTri")%string then []
      else if (s_method =? "triangle")%string then
        triangle_vars points None None false false
      else if (s_method =? "uniform")%string then uniform_vars points
      else []
  | Parameterize p p_method p_args =>
      if (p_method =? "coords")%string then uniform_vars [p]
      else if (p_method =? "inPoly")%string then
        match p_args with
        | ArgPoints ns :: _ =>
            map (fun poly_p => ((p ++ "_in_poly_" ++ poly_p)%string, -1.0, 1.0)) ns
        | _ => []
        end
      else if (p_method =? "onCirc")%string then param_var p "_rot"
      else if (p_method =? "onLine")%string then param_var p "_line"
      else if (p_method =? "onRay")%string then param_var p "_ray"
      else if (p_method =? "onRayOpp")%string then param_var p "_ray_opp"
      else if (p_method =? "onSeg")%string then param_var p "_seg"
      else []
  | _ => []
  end.

Definition free_variables (instrs : list Instruction) : list free_variable :=
  flat_map instruction_vars instrs.

(** Two backends give the same value to each of the variables [vars]; they
  may differ on every other name and on other bounds. *)
Definition agree_on (vars : list free_variable)
    (mk1 mk2 : string -> R -> R -> scalar) : Prop :=
  forall name lo hi, In (name, lo, hi) vars -> mk1 name lo hi = mk2 name lo hi.

(** * Proofs *)

Local Open Scope string_scope.
Local Open Scope list_scope.
Local Open Scope R_scope.

(** ** The embedding on small inputs *)

Example combinations_4_3 :
  combinations [1; 2; 3; 4]%nat 3 = [[1; 2; 3]; [1; 2; 4]; [1; 3; 4]; [2; 3; 4]]%nat.
Proof. reflexivity. Qed.

Example combinations_too_few : combinations [1; 2]%nat 3 = [].
Proof. reflexivity. Qed.

Example val_label_one : val_label "coll_A_B_C" 1 0 = "coll_A_B_C".
Proof. reflexivity. Qed.

Example val_label_many : val_label "coll_A_B_C_D" 4 2 = "coll_A_B_C_D_2".
Proof. reflexivity. Qed.

Example join_names : join "_" ["A"; "B"; "C"] = "A_B_C".
Proof. reflexivity. Qed.

Example load_global_dist : load_global (A := scalar) "dist" = Raise (NameError "dist").
Proof. reflexivity. Qed.

Example load_global_math : load_global (A := scalar) "math" = Raise TypeError.
Proof. reflexivity. Qed.

Example dict_set_replaces :
  dict_set [("a", 1%nat); ("b", 2%nat)] "a" 3%nat = [("a", 3%nat); ("b", 2%nat)].
Proof. reflexivity. Qed.

Example last_two_of_three : last_two [1; 2; 3]%nat = [2; 3]%nat.
Proof. reflexivity. Qed.

Example unknown_sampler :
  fst (sample (fun _ _ _ => None) (fun P _ => P) "square" ["A"] [] (init []))
  = Raise NotImplementedError.
Proof. reflexivity. Qed.

Example unknown_name :
  assertion_vals "coll" ["A"] (init []) = (Raise (KeyError "A"), init []).
Proof. reflexivity. Qed.

(** [A in [C, D]]: a point that was looked up twice under one name is the
  same object, also when its coordinates are undefined; two undefined points
  under different names are not equal. *)
Example cong_same_object :
  circles (snd (assertion_vals "cong" ["A"; "B"; "A"; "C"]
                  (with_registry [("A", get_point None None); ("B", RPt 1 1);
                                  ("C", get_point None None)])))
  = [(get_point None None, dist (get_point None None) (RPt 1 1))].
Proof. reflexivity. Qed.

Example cong_undefined_points :
  circles (snd (assertion_vals "cong" ["A"; "B"; "C"; "D"]
                  (with_registry [("A", get_point None None); ("B", RPt 1 1);
                                  ("C", get_point None None);
                                  ("D", get_point None None)])))
  = [].
Proof. reflexivity. Qed.

(** ** Reduction of the scalar operations on defined values *)

Lemma div_Some (u v : R) :
  v <> 0 -> Scalar.div (Some u) (Some v) = Some (u / v).
Proof.
  intros Hv. unfold Scalar.div.
  destruct (Req_dec_T v 0) as [E | _]; [contradiction | reflexivity].
Qed.

Lemma div_by_zero (u v : R) : v = 0 -> Scalar.div (Some u) (Some v) = None.
Proof.
  intros Hv. unfold Scalar.div.
  destruct (Req_dec_T v 0) as [_ | N]; [reflexivity | contradiction].
Qed.

Lemma sqrt_Some (u : R) : 0 <= u -> Scalar.sqrt (Some u) = Some (sqrt u).
Proof.
  intros Hu. unfold Scalar.sqrt.
  destruct (Rlt_dec u 0) as [L | _]; [lra | reflexivity].
Qed.

Lemma lt_Some_true (u v : R) : u < v -> Scalar.lt (Some u) (Some v) = true.
Proof.
  intros H. unfold Scalar.lt, Rltb. destruct (Rlt_dec u v); [reflexivity | contradiction].
Qed.

Lemma lt_Some_false (u v : R) : v <= u -> Scalar.lt (Some u) (Some v) = false.
Proof.
  intros H. unfold Scalar.lt, Rltb. destruct (Rlt_dec u v); [lra | reflexivity].
Qed.

Lemma lt_Some_inv (u v : R) : Scalar.lt (Some u) (Some v) = true -> u < v.
Proof.
  unfold Scalar.lt, Rltb. destruct (Rlt_dec u v); [auto | discriminate].
Qed.

(** Unfolds the lifted operations on values that are defined. *)
Ltac sc :=
  cbn [Scalar.add Scalar.sub Scalar.mul Scalar.neg Scalar.pow Scalar.lift1
       Scalar.lift2 Scalar.abs Scalar.max
       Point.x Point.y Point.add Point.sub Point.smul
       sif_m sif_b sif_p1 sif_p2 center radius fst snd].

Lemma sumsq_nonneg (a b : R) : 0 <= a ^ 2 + b ^ 2.
Proof. pose proof (pow2_ge_0 a). pose proof (pow2_ge_0 b). lra. Qed.

Lemma sqrt_sumsq_pos (a b : R) : a <> 0 \/ b <> 0 -> 0 < sqrt (a ^ 2 + b ^ 2).
Proof.
  intros H. apply sqrt_lt_R0.
  pose proof (pow2_ge_0 a). pose proof (pow2_ge_0 b).
  destruct H as [H | H]; [assert (0 < a ^ 2) by nra | assert (0 < b ^ 2) by nra]; lra.
Qed.

Lemma dist_RPt (a b c d : R) :
  dist (RPt a b) (RPt c d) = Some (sqrt ((a - c) ^ 2 + (b - d) ^ 2)).
Proof.
  unfold dist, Scalar.pow_half, sqdist, RPt, Scalar.const. sc.
  apply sqrt_Some, sumsq_nonneg.
Qed.

Lemma coll_phi_RPt (ax ay bx by_ cx cy : R) :
  coll_phi (RPt ax ay) (RPt bx by_) (RPt cx cy)
  = Some (ax * (by_ - cy) + bx * (cy - ay) + cx * (ay - by_)).
Proof. reflexivity. Qed.

(** ** The circumcentre *)

Lemma cancel_side (u t : R) : u <> 0 -> u * (u ^ 2 * t / u) = u ^ 2 * t.
Proof. intros H. field. exact H. Qed.


(** On a triangle that is not flat, [circumcenter] is defined and is given by
  the usual Cartesian formula. *)
Lemma circumcenter_RPt (ax ay bx by_ cx cy : R) :
  let k := twice_area ax ay bx by_ cx cy in
  k <> 0 ->
  circumcenter (RPt ax ay) (RPt bx by_) (RPt cx cy)
  = RPt (((ax ^ 2 + ay ^ 2) * (by_ - cy) + (bx ^ 2 + by_ ^ 2) * (cy - ay)
          + (cx ^ 2 + cy ^ 2) * (ay - by_)) / (2 * k))
        (((ax ^ 2 + ay ^ 2) * (cx - bx) + (bx ^ 2 + by_ ^ 2) * (ax - cx)
          + (cx ^ 2 + cy ^ 2) * (bx - ax)) / (2 * k)).
Proof.
  intros k Hk. unfold twice_area in k.
  unfold circumcenter, barycentric, trilinear, conway_vals, side_lengths.
  rewrite !dist_RPt.
  assert (Hu : 0 < sqrt ((bx - cx) ^ 2 + (by_ - cy) ^ 2)).
  { apply sqrt_sumsq_pos. destruct (Req_dec_T bx cx); [right | left]; subst k; nra. }
  assert (Hv : 0 < sqrt ((cx - ax) ^ 2 + (cy - ay) ^ 2)).
  { apply sqrt_sumsq_pos. destruct (Req_dec_T cx ax); [right | left]; subst k; nra. }
  assert (Hw : 0 < sqrt ((ax - bx) ^ 2 + (ay - by_) ^ 2)).
  { apply sqrt_sumsq_pos. destruct (Req_dec_T ax bx); [right | left]; subst k; nra. }
  assert (Hu2 := pow2_sqrt _ (sumsq_nonneg (bx - cx) (by_ - cy))).
  assert (Hv2 := pow2_sqrt _ (sumsq_nonneg (cx - ax) (cy - ay))).
  assert (Hw2 := pow2_sqrt _ (sumsq_nonneg (ax - bx) (ay - by_))).
  set (u := sqrt ((bx - cx) ^ 2 + (by_ - cy) ^ 2)) in *.
  set (v := sqrt ((cx - ax) ^ 2 + (cy - ay) ^ 2)) in *.
  set (w := sqrt ((ax - bx) ^ 2 + (ay - by_) ^ 2)) in *.
  unfold RPt, Scalar.const. sc.
  rewrite !div_Some by lra. sc.
  rewrite !cancel_side by lra.
  rewrite Hu2, Hv2, Hw2.
  clearbody u v w. clear Hu Hv Hw Hu2 Hv2 Hw2 u v w.
  match goal with
  | |- context [Scalar.div _ (Some ?d)] =>
      assert (Hd : d = 2 * k ^ 2) by (subst k; field)
  end.
  rewrite !div_Some by (rewrite Hd; nra).
  rewrite !Hd. f_equal; f_equal; subst k; field; exact Hk.
Qed.

(** C1.  For a triangle of positive area (its three vertices not
  collinear), [circumcenter] is a defined point, and its distances to the
  three vertices are defined and equal, in exact arithmetic. *)
Theorem circumcenter_equidistant (ax ay bx by_ cx cy : R) :
  coll_phi (RPt ax ay) (RPt bx by_) (RPt cx cy) <> Scalar.const 0 ->
  exists ox oy d : R,
    circumcenter (RPt ax ay) (RPt bx by_) (RPt cx cy) = RPt ox oy /\
    dist (RPt ox oy) (RPt ax ay) = Scalar.const d /\
    dist (RPt ox oy) (RPt bx by_) = Scalar.const d /\
    dist (RPt ox oy) (RPt cx cy) = Scalar.const d.
Proof.
  intros H. rewrite coll_phi_RPt in H.
  assert (Hk : twice_area ax ay bx by_ cx cy <> 0).
  { unfold twice_area. intros E. apply H. rewrite E. reflexivity. }
  rewrite (circumcenter_RPt _ _ _ _ _ _ Hk).
  unfold twice_area in *.
  do 3 eexists. split; [reflexivity | ].
  rewrite !dist_RPt. unfold Scalar.const.
  split; [reflexivity | ]. split; do 2 f_equal; field; exact Hk.
Qed.


(** ** Root selection *)


(** C4, as the code has it.  With the policy [arbitrary], [process_rs]
  returns its second candidate, whatever the first one and the object, which
  it leaves as it is; so the two orders of the candidates give the same point
  exactly when the candidates are equal. *)
Theorem process_rs_arbitrary_second (P1 P2 : Point) (vars : list rs_var)
    (o : Optimizer) :
  process_rs P1 P2 (arbitrary vars) o = (Ok P2, o) /\
  (process_rs P1 P2 (arbitrary vars) o = process_rs P2 P1 (arbitrary vars) o
   <-> P1 = P2).
Proof.
  assert (E : forall Q1 Q2, process_rs Q1 Q2 (arbitrary vars) o = (Ok Q2, o))
    by reflexivity.
  split; [apply E | ].
  rewrite !E. split.
  - intros H. injection H as H. symmetry. exact H.
  - intros ->. reflexivity.
Qed.

(** C4, as stated, fails: the two orders of the candidates (0,0) and (1,0)
  give different points. *)
Lemma process_rs_arbitrary_order_matters :
  process_rs (RPt 0 0) (RPt 1 0) (arbitrary []) (init [])
  <> process_rs (RPt 1 0) (RPt 0 0) (arbitrary []) (init []).
Proof.
  cbv [process_rs arbitrary as_root_select bind ret rs_pred rs_vars].
  cbn [String.eqb Ascii.eqb Bool.eqb].
  unfold ret, RPt, Scalar.const. intros H. injection H as H. lra.
Qed.

(** ** Looking names up *)


Lemma lookup_pts_state (ps : list string) (o : Optimizer) :
  snd (lookup_pts ps o) = o.
Proof.
  induction ps as [| p ps IH]; [reflexivity | ].
  unfold lookup_pts in *. cbn [mapM]. unfold bind at 1. unfold bind at 1.
  unfold gets at 1.
  destruct (dict_get (name2pt o) p) as [P | ]; [ | reflexivity].
  unfold ret at 1. unfold bind at 1.
  destruct (mapM _ ps o) as [[bs | e] o'] eqn:E; cbn in IH; subst o'; reflexivity.
Qed.

Lemma lookup_pts_cons (p : string) (ps : list string) (o : Optimizer) :
  lookup_pts (p :: ps) o
  = match dict_get (name2pt o) p with
    | Some P => match lookup_pts ps o with
                | (Ok Ps, o') => (Ok (P :: Ps), o')
                | (Raise e, o') => (Raise e, o')
                end
    | None => (Raise (KeyError p), o)
    end.
Proof.
  unfold lookup_pts. cbn [mapM]. unfold bind at 1. unfold bind at 1.
  unfold gets at 1.
  destruct (dict_get (name2pt o) p) as [P | ]; [ | reflexivity].
  unfold ret at 1. unfold bind at 1.
  destruct (mapM _ ps o) as [[bs | e] o']; reflexivity.
Qed.

Lemma lookup_pts_registered (ps : list string) (o : Optimizer) :
  Forall (registered o) ps ->
  exists Ps, lookup_pts ps o = (Ok Ps, o) /\ length Ps = length ps.
Proof.
  induction 1 as [| p ps Hp _ IH].
  - exists []. split; reflexivity.
  - destruct IH as [Ps [E L]]. rewrite lookup_pts_cons.
    unfold registered in Hp. destruct (dict_get (name2pt o) p) as [P | ]; [ | contradiction].
    rewrite E. exists (P :: Ps). split; [reflexivity | cbn; congruence].
Qed.

(** [lookup_pts] returns or raises, and leaves the object as it is. *)
Lemma lookup_pts_cases (ps : list string) (o : Optimizer) :
  (exists Ps, lookup_pts ps o = (Ok Ps, o)) \/
  (exists e, lookup_pts ps o = (Raise e, o)).
Proof.
  pose proof (lookup_pts_state ps o) as H.
  destruct (lookup_pts ps o) as [[Ps | e] o']; cbn in H; subst o'; eauto.
Qed.

(** ** The identifiers that are not bound *)

Lemma eqratio_diff_raises (A B C D P Q R0 S0 : Point) :
  eqratio_diff A B C D P Q R0 S0 = Raise (NameError "dist").
Proof. reflexivity. Qed.

Lemma harmonic_l_conj_raises (X A B : Point) :
  harmonic_l_conj X A B = Raise (NameError "const").
Proof. reflexivity. Qed.

Lemma assertion_vals_eqratio (ps : list string) (o : Optimizer) :
  assertion_vals "eqratio" ps o
  = match lookup_pts ps o with
    | (Ok [_; _; _; _; _; _; _; _], o') => (Raise (NameError "dist"), o')
    | (Ok _, o') => (Raise TypeError, o')
    | (Raise e, o') => (Raise e, o')
    end.
Proof.
  unfold assertion_vals. cbn [String.eqb Ascii.eqb Bool.eqb].
  unfold bind at 1.
  destruct (lookup_pts ps o) as [[Ps | e] o']; [ | reflexivity].
  do 9 (destruct Ps as [| ? Ps]; try reflexivity).
Qed.

Lemma circ2nf_diam (ps : list string) (o : Optimizer) :
  circ2nf (mkCircle "diam" ps) o
  = match lookup_pts ps o with
    | (Ok [_; _], o') => (Raise (NameError "dist"), o')
    | (Ok _, o') => (Raise ValueError, o')
    | (Raise e, o') => (Raise e, o')
    end.
Proof.
  unfold circ2nf. cbn [circ_pred circ_points String.eqb Ascii.eqb Bool.eqb].
  unfold bind at 1.
  destruct (lookup_pts ps o) as [[Ps | e] o']; [ | reflexivity].
  do 3 (destruct Ps as [| ? Ps]; try reflexivity).
Qed.

(** C9.  [eqratio_diff] raises [NameError] for [dist] on all points.  So the
  predicate [eqratio] and the circle [diam] never give a value and leave the
  object as it is: on eight, respectively two, registered names the
  exception is the [NameError] for [dist]. *)
Theorem eqratio_diam_unbound_dist :
  (forall A B C D P Q R0 S0 : Point,
      eqratio_diff A B C D P Q R0 S0 = Raise (NameError "dist")) /\
  (forall ps o, exists e, assertion_vals "eqratio" ps o = (Raise e, o)) /\
  (forall ps o, exists e, circ2nf (mkCircle "diam" ps) o = (Raise e, o)) /\
  (forall ps o,
      Forall (registered o) ps -> length ps = 8%nat ->
      assertion_vals "eqratio" ps o = (Raise (NameError "dist"), o)) /\
  (forall ps o,
      Forall (registered o) ps -> length ps = 2%nat ->
      circ2nf (mkCircle "diam" ps) o = (Raise (NameError "dist"), o)).
Proof.
  split; [exact eqratio_diff_raises | ].
  split.
  { intros ps o. rewrite assertion_vals_eqratio.
    destruct (lookup_pts_cases ps o) as [[Ps E] | [e E]]; rewrite E; [ | eauto].
    do 9 (destruct Ps as [| ? Ps]; eauto). }
  split.
  { intros ps o. rewrite circ2nf_diam.
    destruct (lookup_pts_cases ps o) as [[Ps E] | [e E]]; rewrite E; [ | eauto].
    do 3 (destruct Ps as [| ? Ps]; eauto). }
  split.
  - intros ps o Hreg Hlen. rewrite assertion_vals_eqratio.
    destruct (lookup_pts_registered ps o Hreg) as [Ps [E L]]. rewrite E.
    rewrite Hlen in L.
    do 9 (destruct Ps as [| ? Ps]; try discriminate L). reflexivity.
  - intros ps o Hreg Hlen. rewrite circ2nf_diam.
    destruct (lookup_pts_registered ps o Hreg) as [Ps [E L]]. rewrite E.
    rewrite Hlen in L.
    do 3 (destruct Ps as [| ? Ps]; try discriminate L). reflexivity.
Qed.

Lemma compute_harmonicLConj (y : string) (c_args : list arg) (o : Optimizer) :
  compute y "harmonicLConj" c_args o
  = match c_args with
    | [] => (Raise IndexError, o)
    | ArgPoints ns :: _ =>
        match lookup_pts ns o with
        | (Ok [_; _; _], o') => (Raise (NameError "const"), o')
        | (Ok _, o') => (Raise ValueError, o')
        | (Raise e, o') => (Raise e, o')
        end
    | _ :: _ => (Raise TypeError, o)
    end.
Proof.
  unfold compute. cbn [String.eqb Ascii.eqb Bool.eqb].
  destruct c_args as [| a c_args]; [reflexivity | ].
  unfold c_arg, getitem. cbn [Nat.sub nth_error]. unfold bind at 1, ret at 1.
  unfold compute_harmonic_l_conj.
  destruct a as [ns | l | c | rs]; try reflexivity.
  unfold bind at 1. cbn [as_points]. unfold ret at 1. unfold bind at 1.
  destruct (lookup_pts ns o) as [[Ps | e] o']; [ | reflexivity].
  do 4 (destruct Ps as [| ? Ps]; try reflexivity).
Qed.

(** C10.  [harmonic_l_conj] raises [NameError] for [const] on all points.
  So a [Compute] instruction with the method [harmonicLConj] never registers
  a point: it raises and leaves the object, with its registry and its
  segments, as it is; on three registered names the exception is the
  [NameError] for [const]. *)
Theorem harmonicLConj_unbound_const
    (mkvar : string -> R -> R -> scalar) (simplify : Point -> string -> Point) :
  (forall X A B : Point, harmonic_l_conj X A B = Raise (NameError "const")) /\
  (forall y c_args o, exists e,
      process_instruction mkvar simplify (Compute y "harmonicLConj" c_args) o
      = (Raise e, o)) /\
  (forall y ns rest o,
      Forall (registered o) ns -> length ns = 3%nat ->
      process_instruction mkvar simplify
        (Compute y "harmonicLConj" (ArgPoints ns :: rest)) o
      = (Raise (NameError "const"), o)).
Proof.
  split; [exact harmonic_l_conj_raises | ].
  split.
  - intros y c_args o. cbn [process_instruction]. rewrite compute_harmonicLConj.
    destruct c_args as [| [ns | l | c | rs] c_args]; eauto.
    destruct (lookup_pts_cases ns o) as [[Ps E] | [e E]]; rewrite E; [ | eauto].
    do 4 (destruct Ps as [| ? Ps]; eauto).
  - intros y ns rest o Hreg Hlen. cbn [process_instruction].
    rewrite compute_harmonicLConj.
    destruct (lookup_pts_registered ns o Hreg) as [Ps [E L]]. rewrite E.
    rewrite Hlen in L.
    do 4 (destruct Ps as [| ? Ps]; try discriminate L). reflexivity.
Qed.

(** C8, on the code.  Sampling with the method [rightTri], [isoTri] or
  [acuteIsoTri] reads [args], which is not bound: it raises [NameError] and
  registers nothing. *)
Theorem sample_vertex_variants_raise
    (mkvar : string -> R -> R -> scalar) (simplify : Point -> string -> Point)
    (points s_args : list string) (o : Optimizer) :
  sample mkvar simplify "rightTri" points s_args o = (Raise (NameError "args"), o) /\
  sample mkvar simplify "isoTri" points s_args o = (Raise (NameError "args"), o) /\
  sample mkvar simplify "acuteIsoTri" points s_args o = (Raise (NameError "args"), o).
Proof. repeat split. Qed.

(** ** Registering points *)

Lemma dict_get_app {V : Type} (d : list (string * V)) (k : string) (v : V)
    (key : string) :
  dict_get (d ++ [(k, v)]) key
  = match dict_get d key with
    | Some w => Some w
    | None => if String.eqb k key then Some v else None
    end.
Proof.
  induction d as [| [k' w] d IH]; cbn [dict_get app].
  - reflexivity.
  - destruct (String.eqb k' key); [reflexivity | exact IH].
Qed.

Lemma register_pt_fresh (p : string) (P : Point) (o : Optimizer) :
  dict_get (name2pt o) p = None ->
  register_pt p P o = (Ok tt, set_name2pt (name2pt o ++ [(p, P)]) o).
Proof.
  intros H. unfold register_pt, bind, gets. rewrite H. reflexivity.
Qed.

Lemma not_registered (o : Optimizer) (p : string) :
  ~ registered o p -> dict_get (name2pt o) p = None.
Proof.
  unfold registered. destruct (dict_get (name2pt o) p); [ | reflexivity].
  intros H. exfalso. apply H. discriminate.
Qed.

(** ** The equilateral triangle *)

Lemma sqrt_16 : sqrt 16 = 4.
Proof. apply sqrt_lem_1; lra. Qed.

Lemma sq_2_sqrt3 : (2 * sqrt 3) ^ 2 = 12.
Proof.
  assert (H : sqrt 3 * sqrt 3 = 3) by (apply sqrt_sqrt; lra).
  replace ((2 * sqrt 3) ^ 2) with (4 * (sqrt 3 * sqrt 3)) by ring. lra.
Qed.

Lemma acos_half : acos (1 / 2) = PI / 3.
Proof.
  rewrite <- cos_PI3. apply acos_cos.
  pose proof PI_RGT_0. lra.
Qed.


Lemma equi_sides :
  dist equi_A equi_B = Scalar.const 4 /\
  dist equi_B equi_C = Scalar.const 4 /\
  dist equi_C equi_A = Scalar.const 4.
Proof.
  unfold equi_A, equi_B, equi_C. rewrite !dist_RPt. unfold Scalar.const.
  pose proof sq_2_sqrt3 as H.
  repeat split; f_equal; rewrite <- sqrt_16; f_equal.
  - replace (2 * sqrt 3 - 0) with (2 * sqrt 3) by ring. rewrite H. lra.
  - lra.
  - replace ((0 - 2 * sqrt 3) ^ 2) with ((2 * sqrt 3) ^ 2) by ring.
    rewrite H. lra.
Qed.

Lemma equi_angle : angle equi_A equi_B equi_C = Scalar.const (PI / 3).
Proof.
  destruct equi_sides as [Hc [Ha Hb]].
  unfold angle, side_lengths. rewrite Ha, Hb, Hc.
  unfold Scalar.const. sc. rewrite div_Some by lra.
  unfold Scalar.acos.
  replace ((4 ^ 2 + 4 ^ 2 - 4 ^ 2) / (2 * 4 * 4)) with (1 / 2) by field.
  destruct (Rle_dec (-1) (1 / 2)) as [_ | N]; [ | exfalso; lra].
  destruct (Rle_dec (1 / 2) 1) as [_ | N]; [ | exfalso; lra].
  rewrite acos_half. reflexivity.
Qed.

Lemma equi_points_literals :
  get_point (Scalar.const 0.0)
            (Scalar.mul (Scalar.const 2) (Scalar.sqrt (Scalar.const 3.0))) = equi_A /\
  get_point (Scalar.const (-2.0)) (Scalar.const 0.0) = equi_B /\
  get_point (Scalar.const 2.0) (Scalar.const 0.0) = equi_C.
Proof.
  unfold equi_A, equi_B, equi_C, RPt, Scalar.const.
  rewrite sqrt_Some by lra. sc.
  replace 0.0 with 0 by lra. replace 3.0 with 3 by lra.
  replace (-2.0) with (-2) by lra. replace 2.0 with 2 by lra.
  repeat split.
Qed.

(** C7.  On three distinct names that are not registered yet, a [Sample]
  instruction with the method [equiTri] registers, with no free variable, the apex (0, 2*sqrt 3) under
  the first name and the base vertices (-2,0) and (2,0) under the other two,
  and adds the three sides to the segments; the three sides have length 4
  exactly, and the angle at the second vertex is pi/3. *)
Theorem sample_equiTri
    (mkvar : string -> R -> R -> scalar) (simplify : Point -> string -> Point)
    (nA nB nC : string) (s_args : list string) (o : Optimizer) :
  nA <> nB -> nA <> nC -> nB <> nC ->
  ~ registered o nA -> ~ registered o nB -> ~ registered o nC ->
  (exists o',
      process_instruction mkvar simplify
        (Sample "equiTri" [nA; nB; nC] s_args) o = (Ok tt, o') /\
      name2pt o' = name2pt o ++ [(nA, equi_A); (nB, equi_B); (nC, equi_C)] /\
      segments o' = segments o ++ [(equi_A, equi_B); (equi_B, equi_C);
                                   (equi_C, equi_A)] /\
      losses o' = losses o) /\
  dist equi_A equi_B = Scalar.const 4 /\
  dist equi_B equi_C = Scalar.const 4 /\
  dist equi_C equi_A = Scalar.const 4 /\
  angle equi_A equi_B equi_C = Scalar.const (PI / 3).
Proof.
  intros Hab Hac Hbc HA HB HC.
  split; [ | split; [apply equi_sides | split; [apply equi_sides | split;
                      [apply equi_sides | apply equi_angle]]]].
  apply not_registered in HA, HB, HC.
  cbn [process_instruction]. unfold sample. cbn [String.eqb Ascii.eqb Bool.eqb].
  unfold sample_triangle.
  cbn [truthy is_not_None eq_name orb negb unpack3].
  unfold bind at 1, ret at 1.
  destruct equi_points_literals as [EA [EB EC]].
  rewrite EA, EB, EC.
  unfold bind at 1. rewrite (register_pt_fresh _ _ _ HA).
  unfold bind at 1. rewrite register_pt_fresh.
  2:{ cbn [name2pt set_name2pt]. rewrite dict_get_app, HB.
      destruct (String.eqb_spec nA nB); [contradiction | reflexivity]. }
  unfold bind at 1. rewrite register_pt_fresh.
  2:{ cbn [name2pt set_name2pt]. rewrite !dict_get_app, HC.
      destruct (String.eqb_spec nA nC); [contradiction | ].
      destruct (String.eqb_spec nB nC); [contradiction | reflexivity]. }
  unfold segments_extend, modify.
  eexists. split; [reflexivity | ].
  cbn [name2pt segments losses set_name2pt set_segments].
  rewrite <- !app_assoc. repeat split.
Qed.

Lemma register_three (nA nB nC : string) (A B C : Point) (o : Optimizer) :
  nA <> nB -> nA <> nC -> nB <> nC ->
  ~ registered o nA -> ~ registered o nB -> ~ registered o nC ->
  ((register_pt nA A ;; register_pt nB B ;; register_pt nC C ;;
    segments_extend [(A, B); (B, C); (C, A)])%M o)
  = (Ok tt,
     set_segments (segments o ++ [(A, B); (B, C); (C, A)])
       (set_name2pt (name2pt o ++ [(nA, A); (nB, B); (nC, C)]) o)).
Proof.
  intros Hab Hac Hbc HA HB HC.
  apply not_registered in HA, HB, HC.
  unfold bind at 1. rewrite (register_pt_fresh _ _ _ HA).
  unfold bind at 1. rewrite register_pt_fresh.
  2:{ cbn [name2pt set_name2pt]. rewrite dict_get_app, HB.
      destruct (String.eqb_spec nA nB); [contradiction | reflexivity]. }
  unfold bind at 1. rewrite register_pt_fresh.
  2:{ cbn [name2pt set_name2pt]. rewrite !dict_get_app, HC.
      destruct (String.eqb_spec nA nC); [contradiction | ].
      destruct (String.eqb_spec nB nC); [contradiction | reflexivity]. }
  unfold segments_extend, modify.
  cbn [name2pt segments set_name2pt set_segments].
  rewrite <- !app_assoc. reflexivity.
Qed.

(** What [sample_triangle] does when it is given the right vertex [v]: the
  base is (-2,0), (2,0), the apex is (x, sqrt (4 - x^2)) for the free
  variable [tri_x], and the name [v] gets the apex. *)
Lemma sample_triangle_right
    (mkvar : string -> R -> R -> scalar) (simplify : Point -> string -> Point)
    (nA nB nC v : string) (o : Optimizer) :
  nA <> nB -> nA <> nC -> nB <> nC ->
  ~ registered o nA -> ~ registered o nB -> ~ registered o nC ->
  v <> "" ->
  let Ax := mkvar "tri_x" (-1.0) 1.2 in
  let apex := get_point Ax (Scalar.sqrt (Scalar.sub (Scalar.const 4) (Scalar.pow Ax 2))) in
  let B0 := get_point (Scalar.const (-2.0)) (Scalar.const 0.0) in
  let C0 := get_point (Scalar.const 2.0) (Scalar.const 0.0) in
  exists o',
    sample_triangle mkvar simplify [nA; nB; nC] None (Some v) false false o
    = (Ok tt, o') /\
    name2pt o'
    = name2pt o ++ (if String.eqb v nB then [(nA, B0); (nB, apex); (nC, C0)]
                    else if String.eqb v nC then [(nA, C0); (nB, B0); (nC, apex)]
                    else [(nA, apex); (nB, B0); (nC, C0)]).
Proof.
  intros Hab Hac Hbc HA HB HC Hv Ax apex B0 C0.
  unfold sample_triangle. cbn [truthy is_not_None eq_name orb].
  destruct (String.eqb_spec v ""); [contradiction | ].
  cbn [negb orb unpack3]. unfold bind at 1, ret at 1.
  fold Ax. fold apex. fold B0. fold C0.
  destruct (String.eqb v nB); [ | destruct (String.eqb v nC)];
    rewrite register_three by assumption;
    eexists; (split; [reflexivity | reflexivity]).
Qed.

(** ** Combinations *)


Lemma binom_1 (n : nat) : binom n 1 = n.
Proof.
  induction n as [| n IH]; [reflexivity | ].
  cbn [binom]. rewrite IH. destruct n; reflexivity.
Qed.

Lemma binom_2 (n : nat) : (2 * binom n 2 = n * (n - 1))%nat.
Proof.
  induction n as [| n IH]; [reflexivity | ].
  change (binom (S n) 2) with (binom n 1 + binom n 2)%nat.
  rewrite binom_1. destruct n as [| m]; [reflexivity | ].
  cbn [Nat.sub] in *. nia.
Qed.

Lemma binom_3 (n : nat) : (6 * binom n 3 = n * (n - 1) * (n - 2))%nat.
Proof.
  induction n as [| n IH]; [reflexivity | ].
  change (binom (S n) 3) with (binom n 2 + binom n 3)%nat.
  pose proof (binom_2 n) as H2.
  destruct n as [| [| m]]; [reflexivity | reflexivity | ].
  cbn [Nat.sub] in *. rewrite Nat.sub_0_r in *. nia.
Qed.

Lemma length_combinations {A : Type} (l : list A) (r : nat) :
  length (combinations l r) = binom (length l) r.
Proof.
  revert r. induction l as [| a l IH]; intros [| r]; try reflexivity.
  cbn [combinations binom length].
  rewrite length_app, length_map, !IH. reflexivity.
Qed.

Lemma combinations_length {A : Type} (l : list A) (r : nat) (t : list A) :
  In t (combinations l r) -> length t = r.
Proof.
  revert r t. induction l as [| a l IH]; intros [| r] t; cbn [combinations].
  - intros [<- | []]. reflexivity.
  - intros [].
  - intros [<- | []]. reflexivity.
  - rewrite in_app_iff, in_map_iff. intros [[t' [<- Ht']] | Ht].
    + cbn [length]. f_equal. apply (IH r), Ht'.
    + apply (IH (S r)), Ht.
Qed.

Lemma combinations_map {A B : Type} (f : A -> B) (l : list A) (r : nat) :
  combinations (map f l) r = map (map f) (combinations l r).
Proof.
  revert r. induction l as [| a l IH]; intros [| r]; try reflexivity.
  cbn [combinations map]. rewrite map_app, map_map, !IH, map_map. reflexivity.
Qed.

(** ** Loops that cannot raise *)

Lemma mapM_pure {A B : Type} (f : A -> M B) (g : A -> B) (l : list A)
    (o : Optimizer) :
  (forall a, In a l -> f a o = (Ok (g a), o)) ->
  mapM f l o = (Ok (map g l), o).
Proof.
  induction l as [| a l IH]; intros H; [reflexivity | ].
  cbn [mapM map]. unfold bind at 1. rewrite (H a (or_introl eq_refl)).
  unfold bind at 1. rewrite IH by (intros b Hb; apply H; right; exact Hb).
  reflexivity.
Qed.

(** The loop of the predicate [coll] over consecutive points: it appends to
  the segments only. *)
Lemma coll_segments_loop (coll_ps : list Point) (idx : list nat) (o : Optimizer) :
  Forall (fun i => (i + 1 < length coll_ps)%nat) idx ->
  exists sg,
    forM_ idx (fun i => (Pi <- getitem coll_ps i ;;
                         Pj <- getitem coll_ps (i + 1) ;;
                         segments_append (Pi, Pj))%M) o
    = (Ok tt, set_segments (segments o ++ sg) o).
Proof.
  intros H.
  remember (fun i => (Pi <- getitem coll_ps i ;;
                      Pj <- getitem coll_ps (i + 1) ;;
                      segments_append (Pi, Pj))%M) as body eqn:Hbody.
  revert o. induction H as [| i idx Hi _ IH]; intros o.
  - exists []. cbn [forM_]. unfold ret. rewrite app_nil_r. destruct o; reflexivity.
  - destruct (nth_error coll_ps i) as [a | ] eqn:Ea.
    2:{ apply nth_error_None in Ea. lia. }
    destruct (nth_error coll_ps (i + 1)) as [b | ] eqn:Eb.
    2:{ apply nth_error_None in Eb. lia. }
    assert (Hstep : body i o = (Ok tt, set_segments (segments o ++ [(a, b)]) o)).
    { rewrite Hbody. unfold bind, getitem. rewrite Ea, Eb. reflexivity. }
    cbn [forM_]. unfold bind at 1. rewrite Hstep.
    destruct (IH (set_segments (segments o ++ [(a, b)]) o)) as [sg E].
    rewrite E. exists ((a, b) :: sg).
    cbn [segments set_segments]. rewrite <- app_assoc. reflexivity.
Qed.

(** What [assertion_vals] does on [coll], once the names are looked up. *)
Lemma assertion_vals_coll (ps : list string) (Ps : list Point) (o : Optimizer) :
  lookup_pts ps o = (Ok Ps, o) ->
  exists sg,
    assertion_vals "coll" ps o
    = (Ok (map coll3 (combinations Ps 3)), set_segments (segments o ++ sg) o).
Proof.
  intros E. unfold assertion_vals. cbn [String.eqb Ascii.eqb Bool.eqb].
  unfold bind at 1. rewrite E. unfold bind at 1.
  rewrite (mapM_pure _ coll3).
  2:{ intros t Ht. apply combinations_length in Ht.
      do 4 (destruct t as [| ? t]; try discriminate Ht). reflexivity. }
  unfold bind at 1.
  destruct (coll_segments_loop Ps (seq 0 (length Ps - 1)) o) as [sg Esg].
  { apply Forall_forall. intros i Hi. apply in_seq in Hi. lia. }
  rewrite Esg. exists sg. reflexivity.
Qed.

Lemma combinations_incl {A : Type} (l : list A) (r : nat) (t : list A) :
  In t (combinations l r) -> incl t l.
Proof.
  revert r t. induction l as [| a l IH]; intros [| r] t; cbn [combinations].
  - intros [<- | []]. apply incl_nil_l.
  - intros [].
  - intros [<- | []]. apply incl_nil_l.
  - rewrite in_app_iff, in_map_iff. intros [[t' [<- Ht']] | Ht].
    + apply incl_cons; [left; reflexivity | ].
      apply incl_tl, (IH r), Ht'.
    + apply incl_tl, (IH (S r)), Ht.
Qed.

Lemma combinations_NoDup {A : Type} (l : list A) (r : nat) (t : list A) :
  NoDup l -> In t (combinations l r) -> NoDup t.
Proof.
  intros Hl. revert r t. induction Hl as [| a l Ha Hl IH]; intros [| r] t;
    cbn [combinations].
  - intros [<- | []]. constructor.
  - intros [].
  - intros [<- | []]. constructor.
  - rewrite in_app_iff, in_map_iff. intros [[t' [<- Ht']] | Ht].
    + constructor; [ | apply (IH r), Ht'].
      intros Hin. apply Ha. apply (combinations_incl l r t' Ht'), Hin.
    + apply (IH (S r)), Ht.
Qed.

(** ** Collinearity *)

Lemma twice_area_cycle (x1 y1 x2 y2 x3 y3 : R) :
  twice_area x3 y3 x1 y1 x2 y2 = twice_area x1 y1 x2 y2 x3 y3.
Proof. unfold twice_area. ring. Qed.

Lemma twice_area_swap (x1 y1 x2 y2 x3 y3 : R) :
  twice_area x1 y1 x3 y3 x2 y2 = - twice_area x1 y1 x2 y2 x3 y3.
Proof. unfold twice_area. ring. Qed.

(** Two distinct points of a line and a point off that line are not
  collinear. *)
Lemma off_line_area (a b c x1 y1 x2 y2 xd yd : R) :
  a <> 0 \/ b <> 0 ->
  a * x1 + b * y1 + c = 0 ->
  a * x2 + b * y2 + c = 0 ->
  (x1, y1) <> (x2, y2) ->
  a * xd + b * yd + c <> 0 ->
  twice_area x1 y1 x2 y2 xd yd <> 0.
Proof.
  intros Hn H1 H2 Hne Hd E. unfold twice_area in E.
  apply Hd.
  assert (Hdir : a * (x2 - x1) + b * (y2 - y1) = 0) by lra.
  assert (Ex : (a * xd + b * yd + c) * (x2 - x1) = 0).
  { replace ((a * xd + b * yd + c) * (x2 - x1))
      with ((xd - x1) * (a * (x2 - x1) + b * (y2 - y1))
            + (a * x1 + b * y1 + c) * (x2 - x1)
            + b * (x1 * (y2 - yd) + x2 * (yd - y1) + xd * (y1 - y2))) by ring.
    rewrite Hdir, H1, E. ring. }
  assert (Ey : (a * xd + b * yd + c) * (y2 - y1) = 0).
  { replace ((a * xd + b * yd + c) * (y2 - y1))
      with ((yd - y1) * (a * (x2 - x1) + b * (y2 - y1))
            + (a * x1 + b * y1 + c) * (y2 - y1)
            - a * (x1 * (y2 - yd) + x2 * (yd - y1) + xd * (y1 - y2))) by ring.
    rewrite Hdir, H1, E. ring. }
  apply Rmult_integral in Ex, Ey.
  destruct Ex as [Ex | Ex]; [exact Ex | ].
  destruct Ey as [Ey | Ey]; [exact Ey | ].
  exfalso. apply Hne. f_equal; lra.
Qed.


Lemma coll3_pt (q1 q2 q3 : R * R) :
  coll3 (map pt [q1; q2; q3])
  = Some (twice_area (fst q1) (snd q1) (fst q2) (snd q2) (fst q3) (snd q3)).
Proof. reflexivity. Qed.

Lemma coll3_off_line (qs : list (R * R)) (d : R * R) (a b c : R) (t : list (R * R)) :
  one_off_line qs d a b c ->
  In t (combinations qs 3) -> In d t ->
  exists v, coll3 (map pt t) = Some v /\ v <> 0.
Proof.
  intros [Hnd [Hd [Hn [Hon Hoff]]]] Ht Hdt.
  pose proof (combinations_length _ _ _ Ht) as Hlen.
  pose proof (combinations_incl _ _ _ Ht) as Hincl.
  pose proof (combinations_NoDup _ _ _ Hnd Ht) as Hndt.
  destruct t as [| q1 [| q2 [| q3 [| ? ?]]]]; try discriminate Hlen.
  rewrite coll3_pt. eexists. split; [reflexivity | ].
  assert (I1 : In q1 qs) by (apply Hincl; cbn; auto).
  assert (I2 : In q2 qs) by (apply Hincl; cbn; auto).
  assert (I3 : In q3 qs) by (apply Hincl; cbn; auto).
  inversion Hndt as [| ? ? N1 Hndt']; subst.
  inversion Hndt' as [| ? ? N2 _]; subst.
  assert (N12 : q1 <> q2) by (intros ->; apply N1; cbn; auto).
  assert (N13 : q1 <> q3) by (intros ->; apply N1; cbn; auto).
  assert (N23 : q2 <> q3) by (intros ->; apply N2; cbn; auto).
  destruct q1 as [x1 y1], q2 as [x2 y2], q3 as [x3 y3].
  cbn [fst snd] in *.
  destruct Hdt as [<- | [<- | [<- | []]]]; cbn [fst snd] in *.
  - rewrite <- twice_area_cycle, <- twice_area_cycle.
    apply (off_line_area a b c); auto.
    + apply (Hon (x2, y2)); auto.
    + apply (Hon (x3, y3)); auto.
  - rewrite <- twice_area_cycle.
    apply (off_line_area a b c); auto.
    + apply (Hon (x3, y3)); auto.
    + apply (Hon (x1, y1)); auto.
  - apply (off_line_area a b c); auto.
    + apply (Hon (x1, y1)); auto.
    + apply (Hon (x2, y2)); auto.
Qed.

(** C5.  On registered names, the predicate [coll] returns one residual per
  combination of three of the points, in the order of the combinations: the
  value of [coll_phi] on it, C(k,3) = k(k-1)(k-2)/6 residuals for k names.
  On the points (0,0), (1,1), (2,2) it returns the single residual 0.  When
  the points are distinct and all but one lie on one line, the residual of
  every triple that contains the point off the line is defined and is not
  zero. *)
Theorem coll_assertion_vals :
  (forall ps o,
      Forall (registered o) ps -> (3 <= length ps)%nat ->
      exists Ps sg,
        lookup_pts ps o = (Ok Ps, o) /\
        assertion_vals "coll" ps o
        = (Ok (map coll3 (combinations Ps 3)),
           set_segments (segments o ++ sg) o) /\
        length (map coll3 (combinations Ps 3)) = binom (length ps) 3 /\
        (6 * binom (length ps) 3
         = length ps * (length ps - 1) * (length ps - 2))%nat) /\
  (forall nA nB nC o,
      dict_get (name2pt o) nA = Some (RPt 0 0) ->
      dict_get (name2pt o) nB = Some (RPt 1 1) ->
      dict_get (name2pt o) nC = Some (RPt 2 2) ->
      exists o',
        assertion_vals "coll" [nA; nB; nC] o = (Ok [Scalar.const 0], o')) /\
  (forall ps qs d a b c o,
      lookup_pts ps o = (Ok (map pt qs), o) ->
      one_off_line qs d a b c ->
      exists vals o',
        assertion_vals "coll" ps o = (Ok vals, o') /\
        forall i t,
          nth_error (combinations qs 3) i = Some t -> In d t ->
          exists v, nth_error vals i = Some (Some v) /\ v <> 0).
Proof.
  split; [ | split].
  - intros ps o Hreg _.
    destruct (lookup_pts_registered ps o Hreg) as [Ps [E L]].
    destruct (assertion_vals_coll ps Ps o E) as [sg Ev].
    exists Ps, sg. split; [exact E | ]. split; [exact Ev | ].
    rewrite length_map, length_combinations, L. split; [reflexivity | apply binom_3].
  - intros nA nB nC o HA HB HC.
    destruct (assertion_vals_coll [nA; nB; nC] [RPt 0 0; RPt 1 1; RPt 2 2] o) as [sg Ev].
    { rewrite !lookup_pts_cons, HA, HB, HC. reflexivity. }
    rewrite Ev. eexists. f_equal. f_equal.
    cbn [combinations map app coll3]. rewrite coll_phi_RPt.
    unfold Scalar.const. do 2 f_equal. lra.
  - intros ps qs d a b c o E Hoff.
    destruct (assertion_vals_coll ps _ o E) as [sg Ev].
    rewrite Ev. do 2 eexists. split; [reflexivity | ].
    intros i t Hi Hdt.
    destruct (coll3_off_line qs d a b c t Hoff (nth_error_In _ _ Hi) Hdt) as [v [Hv Hnz]].
    exists v. split; [ | exact Hnz].
    rewrite combinations_map, map_map.
    rewrite (map_nth_error _ _ _ Hi). f_equal. exact Hv.
Qed.

(** ** The foot of the perpendicular *)


Lemma sumsq_pos (a b : R) : a <> 0 -> 0 < a ^ 2 + b ^ 2.
Proof. intros Ha. pose proof (pow2_ge_0 b). assert (0 < a ^ 2) by nra. lra. Qed.

(** On a line that is neither vertical nor horizontal, the two slope-intercept
  forms are defined and [foot] is the orthogonal projection. *)
Lemma foot_RPt (x1 y1 x2 y2 ox oy : R) :
  x1 <> x2 -> y1 <> y2 ->
  let t := twice_area ox oy x1 y1 x2 y2 / ((x1 - x2) ^ 2 + (y1 - y2) ^ 2) in
  foot (RPt ox oy) (RPt x1 y1) (RPt x2 y2)
  = RPt (ox - t * (y1 - y2)) (oy + t * (x1 - x2)).
Proof.
  intros Hx Hy t. subst t. unfold twice_area.
  pose proof (sumsq_pos (x1 - x2) (y1 - y2) ltac:(lra)) as Hn.
  unfold foot, rotate_counterclockwise_90, matrix_mul, inner_product, pp2sif,
    inter_ll, RPt, Scalar.const.
  sc. rewrite !div_Some by lra. sc.
  match goal with
  | |- context [Scalar.div _ (Some ?e)] =>
      assert (He : e = ((x1 - x2) ^ 2 + (y1 - y2) ^ 2) / ((x1 - x2) * (y1 - y2)))
        by (field; lra)
  end.
  rewrite !div_Some.
  2:{ rewrite He. unfold Rdiv. apply Rmult_integral_contrapositive_currified;
      [lra | apply Rinv_neq_0_compat; nra]. }
  sc. f_equal; f_equal; field; lra.
Qed.

Lemma dist_foot (x1 y1 x2 y2 ox oy : R) :
  x1 <> x2 -> y1 <> y2 ->
  dist (RPt ox oy) (foot (RPt ox oy) (RPt x1 y1) (RPt x2 y2))
  = Some (Rabs (twice_area ox oy x1 y1 x2 y2)
          / sqrt ((x1 - x2) ^ 2 + (y1 - y2) ^ 2)).
Proof.
  intros Hx Hy. rewrite foot_RPt by assumption. rewrite dist_RPt. f_equal.
  pose proof (sumsq_pos (x1 - x2) (y1 - y2) ltac:(lra)) as Hn.
  set (k := twice_area ox oy x1 y1 x2 y2).
  set (n := (x1 - x2) ^ 2 + (y1 - y2) ^ 2) in *.
  assert (Hs : 0 < sqrt n) by (apply sqrt_lt_R0; exact Hn).
  assert (Hss : sqrt n * sqrt n = n) by (apply sqrt_sqrt; lra).
  apply sqrt_lem_1.
  - apply sumsq_nonneg.
  - apply Rmult_le_pos; [apply Rabs_pos | left; apply Rinv_0_lt_compat; exact Hs].
  - replace (Rabs k / sqrt n * (Rabs k / sqrt n))
      with ((Rabs k * Rabs k) / (sqrt n * sqrt n)) by (field; lra).
    rewrite Hss. replace (Rabs k * Rabs k) with (k * k)
      by (rewrite <- Rabs_mult; symmetry; apply Rabs_pos_eq; nra).
    subst n. field. lra.
Qed.

Lemma dist_point_line_RPt (x1 y1 x2 y2 ox oy : R) :
  x1 <> x2 ->
  dist_point_line (RPt ox oy) (RPt x1 y1) (RPt x2 y2)
  = Some (Rabs (twice_area ox oy x1 y1 x2 y2)
          / sqrt ((x1 - x2) ^ 2 + (y1 - y2) ^ 2)).
Proof.
  intros Hx. unfold dist_point_line. rewrite coll_phi_RPt, dist_RPt. sc.
  apply div_Some.
  pose proof (sqrt_sumsq_pos (x1 - x2) (y1 - y2) ltac:(left; lra)). lra.
Qed.

(** ** The loss of [make_lc_intersect] *)

Lemma Rltb_true (u v : R) : u < v -> Rltb u v = true.
Proof. intros H. unfold Rltb. destruct (Rlt_dec u v); [reflexivity | contradiction]. Qed.

Lemma Rltb_false (u v : R) : v <= u -> Rltb u v = false.
Proof. intros H. unfold Rltb. destruct (Rlt_dec u v); [lra | reflexivity]. Qed.

Lemma dist_perp (x1 y1 x2 y2 ox oy : R) :
  dist (RPt ox oy)
       (Point.add (rotate_counterclockwise_90 (Point.sub (RPt x1 y1) (RPt x2 y2)))
                  (RPt ox oy))
  = dist (RPt x1 y1) (RPt x2 y2).
Proof.
  rewrite (dist_RPt x1 y1 x2 y2).
  unfold rotate_counterclockwise_90, matrix_mul, inner_product, RPt, Scalar.const.
  unfold dist, Scalar.pow_half, sqdist. sc.
  rewrite sqrt_Some by apply sumsq_nonneg.
  do 2 f_equal. ring.
Qed.

(** The loss on a line that is neither vertical nor horizontal, in terms of
  the distance [d] from the centre to the line. *)
Lemma lc_intersect_loss_RPt (x1 y1 x2 y2 ox oy r : R) :
  x1 <> x2 -> y1 <> y2 ->
  let s := sqrt ((x1 - x2) ^ 2 + (y1 - y2) ^ 2) in
  let d := Rabs (twice_area ox oy x1 y1 x2 y2) / s in
  lc_intersect_loss (pp2sif (RPt x1 y1) (RPt x2 y2))
                    (mkCircleNF (RPt ox oy) (Some r))
  = if lc_degenerate (RPt ox oy) (RPt x1 y1) (RPt x2 y2) then Some 0
    else if Rltb r d then Some d else Some 0.
Proof.
  intros Hx Hy s d.
  unfold lc_intersect_loss.
  change (sif_p1 (pp2sif (RPt x1 y1) (RPt x2 y2))) with (RPt x1 y1).
  change (sif_p2 (pp2sif (RPt x1 y1) (RPt x2 y2))) with (RPt x2 y2).
  cbn [center radius].
  change (inter_ll (pp2sif (RPt x1 y1) (RPt x2 y2))
            (pp2sif (RPt ox oy)
               (Point.add (rotate_counterclockwise_90
                             (Point.sub (RPt x1 y1) (RPt x2 y2))) (RPt ox oy))))
    with (foot (RPt ox oy) (RPt x1 y1) (RPt x2 y2)).
  rewrite dist_foot by assumption. fold s. fold d.
  fold (lc_degenerate (RPt ox oy) (RPt x1 y1) (RPt x2 y2)).
  unfold Scalar.cond, Scalar.lt, Scalar.const.
  destruct (lc_degenerate _ _ _); [reflexivity | ].
  destruct (Rltb r d); reflexivity.
Qed.

(** The distance of the statements is the least distance from the point to
  a point of the line. *)
Lemma dist_point_line_le (x1 y1 x2 y2 ox oy d t : R) :
  x1 <> x2 ->
  dist_point_line (RPt ox oy) (RPt x1 y1) (RPt x2 y2) = Some d ->
  exists e,
    dist (RPt ox oy) (RPt (x1 + t * (x2 - x1)) (y1 + t * (y2 - y1))) = Some e /\
    d <= e.
Proof.
  intros Hx Hd. rewrite dist_point_line_RPt in Hd by exact Hx.
  assert (Ed : d = Rabs (twice_area ox oy x1 y1 x2 y2)
                   / sqrt ((x1 - x2) ^ 2 + (y1 - y2) ^ 2)) by congruence.
  clear Hd. subst d.
  rewrite dist_RPt. eexists. split; [reflexivity | ].
  set (k := twice_area ox oy x1 y1 x2 y2).
  set (n := (x1 - x2) ^ 2 + (y1 - y2) ^ 2).
  set (q := (ox - (x1 + t * (x2 - x1))) ^ 2 + (oy - (y1 + t * (y2 - y1))) ^ 2).
  assert (Hn : 0 < n) by (apply sumsq_pos; lra).
  assert (Hs : 0 < sqrt n) by (apply sqrt_lt_R0; exact Hn).
  assert (Hss : sqrt n * sqrt n = n) by (apply sqrt_sqrt; lra).
  assert (Hq : 0 <= q) by apply sumsq_nonneg.
  assert (Hkq : k * k <= q * n).
  { assert (E : q * n - k * k
                = ((ox - (x1 + t * (x2 - x1))) * (x2 - x1)
                   + (oy - (y1 + t * (y2 - y1))) * (y2 - y1)) ^ 2)
      by (unfold q, n, k, twice_area; ring).
    pose proof (pow2_ge_0 ((ox - (x1 + t * (x2 - x1))) * (x2 - x1)
                           + (oy - (y1 + t * (y2 - y1))) * (y2 - y1))).
    lra. }
  apply Rsqr_incr_0_var; [ | apply sqrt_pos].
  unfold Rsqr. rewrite sqrt_sqrt by exact Hq.
  replace (Rabs k / sqrt n * (Rabs k / sqrt n))
    with ((Rabs k * Rabs k) / (sqrt n * sqrt n)) by (field; lra).
  rewrite Hss. rewrite <- Rabs_mult, Rabs_pos_eq by nra.
  apply (Rmult_le_reg_r n); [exact Hn | ].
  replace (k * k / n * n) with (k * k) by (field; lra). exact Hkq.
Qed.

Lemma make_lc_intersect_registers (name : string) (l : SlopeInterceptForm)
    (c : CircleNF) (o : Optimizer) :
  make_lc_intersect name l c o
  = (Ok tt, set_losses (dict_set (losses o) ("interLC_" ++ name)
                                 (lc_intersect_loss l c, 1e-1)) o).
Proof. reflexivity. Qed.

Lemma pp2sif_vertical (u v1 v2 : R) :
  pp2sif (RPt u v1) (RPt u v2) = mkSif None None (RPt u v1) (RPt u v2).
Proof.
  unfold pp2sif, RPt, Scalar.const. sc.
  rewrite div_by_zero by ring. reflexivity.
Qed.

Lemma inter_ll_undefined (b : scalar) (p1 p2 : Point) (l : SlopeInterceptForm) :
  inter_ll (mkSif None b p1 p2) l = get_point None None.
Proof.
  destruct l as [m2 b2 q1 q2]. unfold inter_ll.
  destruct (Scalar.sub b2 b) as [u | ]; reflexivity.
Qed.

Lemma dist_undefined (P : Point) (v : scalar) : dist P (get_point None v) = None.
Proof.
  unfold dist, Scalar.pow_half, sqdist. cbn [Point.x Point.y].
  destruct (Point.x P), (Point.y P), v; reflexivity.
Qed.

Lemma inter_ll_undefined_r (l : SlopeInterceptForm) (b : scalar) (p1 p2 : Point) :
  inter_ll l (mkSif None b p1 p2) = get_point None None.
Proof.
  destruct l as [m1 b1 q1 q2]. unfold inter_ll.
  destruct m1 as [m1 | ], b1 as [b1 | ], b as [b | ]; reflexivity.
Qed.

(** The second point of the perpendicular through the centre. *)
Lemma perp_point_RPt (x1 y1 x2 y2 ox oy : R) :
  Point.add (rotate_counterclockwise_90 (Point.sub (RPt x1 y1) (RPt x2 y2)))
            (RPt ox oy)
  = RPt (ox - (y1 - y2)) (oy + (x1 - x2)).
Proof.
  unfold rotate_counterclockwise_90, matrix_mul, inner_product, RPt,
    Scalar.const, Point.add, Point.sub.
  sc. f_equal; f_equal; ring.
Qed.

(** On a vertical line the slope of the line is undefined, on a horizontal
  line the slope of the perpendicular is: either way the foot and its
  distance are undefined, no radius compares below it, and the loss is 0
  wherever the line is. *)
Lemma lc_intersect_loss_axis_parallel (x1 y1 x2 y2 ox oy r : R) :
  x1 = x2 \/ y1 = y2 ->
  lc_intersect_loss (pp2sif (RPt x1 y1) (RPt x2 y2)) (mkCircleNF (RPt ox oy) (Some r))
  = Some 0.
Proof.
  intros [-> | ->].
  - rewrite pp2sif_vertical. unfold lc_intersect_loss.
    cbn [sif_p1 sif_p2 center radius].
    rewrite inter_ll_undefined, dist_undefined.
    change (Scalar.lt (Some r) None) with false.
    change (Scalar.cond false None (Scalar.const 0)) with (Some 0).
    unfold Scalar.cond. destruct (Scalar.logical_or _ _); reflexivity.
  - unfold lc_intersect_loss.
    change (sif_p1 (pp2sif (RPt x1 y2) (RPt x2 y2))) with (RPt x1 y2).
    change (sif_p2 (pp2sif (RPt x1 y2) (RPt x2 y2))) with (RPt x2 y2).
    cbn [center radius]. rewrite perp_point_RPt.
    replace (ox - (y2 - y2)) with ox by ring.
    rewrite pp2sif_vertical, inter_ll_undefined_r, dist_undefined.
    change (Scalar.lt (Some r) None) with false.
    change (Scalar.cond false None (Scalar.const 0)) with (Some 0).
    unfold Scalar.cond. destruct (Scalar.logical_or _ _); reflexivity.
Qed.

(** The distance from a point to the line through two distinct points is
  defined. *)
Lemma dist_point_line_defined (x1 y1 x2 y2 ox oy : R) :
  (x1, y1) <> (x2, y2) ->
  dist_point_line (RPt ox oy) (RPt x1 y1) (RPt x2 y2)
  = Some (Rabs (twice_area ox oy x1 y1 x2 y2)
          / sqrt ((x1 - x2) ^ 2 + (y1 - y2) ^ 2)) /\
  0 <= Rabs (twice_area ox oy x1 y1 x2 y2)
       / sqrt ((x1 - x2) ^ 2 + (y1 - y2) ^ 2).
Proof.
  intros Hne.
  assert (Hs : 0 < sqrt ((x1 - x2) ^ 2 + (y1 - y2) ^ 2)).
  { apply sqrt_sumsq_pos.
    destruct (Req_dec x1 x2) as [Ex | Nx]; [right | left; lra].
    intros Ey. apply Hne. f_equal; lra. }
  split.
  - unfold dist_point_line. rewrite coll_phi_RPt, dist_RPt. sc.
    apply div_Some. lra.
  - apply Rmult_le_pos; [apply Rabs_pos | ].
    left. apply Rinv_0_lt_compat. exact Hs.
Qed.

(** C3, as the code has it.  [make_lc_intersect] registers its loss under
  the label of the point, with weight 0.1.  On every line through two
  points [A] and [B], with [d] the distance from the centre to the line
  (defined when the points differ): the loss is 0 when [d <= r], and it is 0
  when the construction is degenerate (the base or the perpendicular below
  1e-6).  Beyond the radius, on a line that is not degenerate: the loss is
  [d] itself when the line is neither vertical nor horizontal, so that for
  one circle and two such lines it is strictly increasing in [d - r]; and it
  is 0 when the line is vertical or horizontal. *)
Theorem lc_intersect_loss_hinge :
  (forall name l c o,
      make_lc_intersect name l c o
      = (Ok tt, set_losses (dict_set (losses o) ("interLC_" ++ name)
                                     (lc_intersect_loss l c, 1e-1)) o)) /\
  (forall x1 y1 x2 y2 ox oy r : R,
      let A := RPt x1 y1 in
      let B := RPt x2 y2 in
      let O := RPt ox oy in
      let loss := lc_intersect_loss (pp2sif A B) (mkCircleNF O (Some r)) in
      ((x1, y1) <> (x2, y2) ->
       exists d : R, dist_point_line O A B = Some d /\ 0 <= d) /\
      (forall d : R, dist_point_line O A B = Some d -> d <= r -> loss = Some 0) /\
      (lc_degenerate O A B = true -> loss = Some 0) /\
      (x1 <> x2 -> y1 <> y2 -> lc_degenerate O A B = false ->
       forall d : R, dist_point_line O A B = Some d -> r < d -> loss = Some d) /\
      (x1 = x2 \/ y1 = y2 -> loss = Some 0)) /\
  (forall x1 y1 x2 y2 x3 y3 x4 y4 ox oy r d1 d2 : R,
      x1 <> x2 -> y1 <> y2 -> x3 <> x4 -> y3 <> y4 ->
      let O := RPt ox oy in
      lc_degenerate O (RPt x1 y1) (RPt x2 y2) = false ->
      lc_degenerate O (RPt x3 y3) (RPt x4 y4) = false ->
      dist_point_line O (RPt x1 y1) (RPt x2 y2) = Some d1 ->
      dist_point_line O (RPt x3 y3) (RPt x4 y4) = Some d2 ->
      r < d1 -> d1 - r < d2 - r ->
      exists v1 v2 : R,
        lc_intersect_loss (pp2sif (RPt x1 y1) (RPt x2 y2))
                          (mkCircleNF O (Some r)) = Some v1 /\
        lc_intersect_loss (pp2sif (RPt x3 y3) (RPt x4 y4))
                          (mkCircleNF O (Some r)) = Some v2 /\
        v1 < v2).
Proof.
  split; [exact make_lc_intersect_registers | ].
  assert (Main : forall x1 y1 x2 y2 ox oy r : R,
      x1 <> x2 -> y1 <> y2 ->
      exists d : R,
        dist_point_line (RPt ox oy) (RPt x1 y1) (RPt x2 y2) = Some d /\
        (d <= r ->
         lc_intersect_loss (pp2sif (RPt x1 y1) (RPt x2 y2))
                           (mkCircleNF (RPt ox oy) (Some r)) = Some 0) /\
        (lc_degenerate (RPt ox oy) (RPt x1 y1) (RPt x2 y2) = true ->
         lc_intersect_loss (pp2sif (RPt x1 y1) (RPt x2 y2))
                           (mkCircleNF (RPt ox oy) (Some r)) = Some 0) /\
        (lc_degenerate (RPt ox oy) (RPt x1 y1) (RPt x2 y2) = false -> r < d ->
         lc_intersect_loss (pp2sif (RPt x1 y1) (RPt x2 y2))
                           (mkCircleNF (RPt ox oy) (Some r)) = Some d)).
  { intros x1 y1 x2 y2 ox oy r Hx Hy.
    rewrite lc_intersect_loss_RPt, dist_point_line_RPt by assumption.
    set (s := sqrt ((x1 - x2) ^ 2 + (y1 - y2) ^ 2)).
    set (d := Rabs (twice_area ox oy x1 y1 x2 y2) / s).
    exists d. split; [reflexivity | ]. split; [ | split].
    - intros Hd. rewrite (Rltb_false r d Hd).
      destruct (lc_degenerate _ _ _); reflexivity.
    - intros ->. reflexivity.
    - intros -> Hd. rewrite (Rltb_true r d Hd). reflexivity. }
  split.
  - intros x1 y1 x2 y2 ox oy r. cbv zeta.
    assert (Cases : (x1 = x2 \/ y1 = y2) \/ (x1 <> x2 /\ y1 <> y2)).
    { destruct (Req_dec x1 x2); [left; left; assumption | ].
      destruct (Req_dec y1 y2); [left; right; assumption | right; split; assumption]. }
    split; [ | split; [ | split; [ | split]]].
    + intros Hne.
      destruct (dist_point_line_defined x1 y1 x2 y2 ox oy Hne) as [E Hpos].
      eexists. split; [exact E | exact Hpos].
    + intros d Hd Hle. destruct Cases as [Hax | [Hx Hy]].
      * apply lc_intersect_loss_axis_parallel. exact Hax.
      * destruct (Main x1 y1 x2 y2 ox oy r Hx Hy) as [e [E [L _]]].
        rewrite Hd in E. injection E as <-. apply L. exact Hle.
    + intros Hdeg. destruct Cases as [Hax | [Hx Hy]].
      * apply lc_intersect_loss_axis_parallel. exact Hax.
      * destruct (Main x1 y1 x2 y2 ox oy r Hx Hy) as [e [_ [_ [L _]]]].
        apply L. exact Hdeg.
    + intros Hx Hy Hdeg d Hd Hlt.
      destruct (Main x1 y1 x2 y2 ox oy r Hx Hy) as [e [E [_ [_ L]]]].
      rewrite Hd in E. injection E as <-. apply L; assumption.
    + apply lc_intersect_loss_axis_parallel.
  - intros x1 y1 x2 y2 x3 y3 x4 y4 ox oy r d1 d2 Hx Hy Hx' Hy' O N1 N2 D1 D2 Hr Hlt.
    subst O.
    destruct (Main x1 y1 x2 y2 ox oy r Hx Hy) as [e1 [E1 [_ [_ L1]]]].
    destruct (Main x3 y3 x4 y4 ox oy r Hx' Hy') as [e2 [E2 [_ [_ L2]]]].
    rewrite D1 in E1. injection E1 as <-.
    rewrite D2 in E2. injection E2 as <-.
    exists d1, d2. split; [apply L1; assumption | ].
    split; [apply L2; [assumption | lra] | lra].
Qed.

(** On a vertical line the slope is undefined, and so are the foot and its
  distance: the loss is 0 wherever the line is. *)
Lemma lc_intersect_loss_vertical (u v1 v2 r : R) (O : Point) :
  1e-6 <= Rabs (v1 - v2) ->
  lc_intersect_loss (pp2sif (RPt u v1) (RPt u v2)) (mkCircleNF O (Some r)) = Some 0.
Proof.
  intros Hv. rewrite pp2sif_vertical. unfold lc_intersect_loss.
  cbn [sif_p1 sif_p2 center radius].
  rewrite inter_ll_undefined, dist_undefined.
  change (Scalar.lt (Some r) None) with false.
  change (Scalar.cond false None (Scalar.const 0)) with (Some 0).
  rewrite dist_RPt.
  assert (Es : sqrt ((u - u) ^ 2 + (v1 - v2) ^ 2) = Rabs (v1 - v2)).
  { replace ((u - u) ^ 2 + (v1 - v2) ^ 2) with ((v1 - v2) ^ 2) by ring.
    rewrite <- Rsqr_pow2. apply sqrt_Rsqr_abs. }
  rewrite Es.
  unfold Scalar.const. rewrite (lt_Some_false _ _ Hv).
  unfold Scalar.logical_or. rewrite orb_false_r.
  unfold Scalar.cond. destruct (Scalar.lt _ _); reflexivity.
Qed.

(** C3, as stated, fails on vertical lines.  The lines x = 2 and x = 3 are
  at the distances 2 and 3 from the centre of the unit circle, both beyond
  the radius, and their bases have length 1; yet the loss is 0 for both, so
  it does not increase between them. *)
Lemma lc_intersect_loss_vertical_flat :
  let O := RPt 0 0 in
  let c := mkCircleNF O (Scalar.const 1) in
  dist_point_line O (RPt 2 0) (RPt 2 1) = Scalar.const 2 /\
  dist_point_line O (RPt 3 0) (RPt 3 1) = Scalar.const 3 /\
  lc_degenerate O (RPt 2 0) (RPt 2 1) = false /\
  lc_degenerate O (RPt 3 0) (RPt 3 1) = false /\
  lc_intersect_loss (pp2sif (RPt 2 0) (RPt 2 1)) c = Scalar.const 0 /\
  lc_intersect_loss (pp2sif (RPt 3 0) (RPt 3 1)) c = Scalar.const 0 /\
  ~ (exists v1 v2 : R,
        lc_intersect_loss (pp2sif (RPt 2 0) (RPt 2 1)) c = Some v1 /\
        lc_intersect_loss (pp2sif (RPt 3 0) (RPt 3 1)) c = Some v2 /\
        v1 < v2).
Proof.
  intros O c. subst O c.
  assert (Habs : Rabs (0 - 1) = 1).
  { replace (0 - 1) with (- (1)) by ring. rewrite Rabs_Ropp. apply Rabs_R1. }
  assert (Es : forall u, sqrt ((u - u) ^ 2 + (0 - 1) ^ 2) = 1).
  { intros u. replace ((u - u) ^ 2 + (0 - 1) ^ 2) with 1 by ring. apply sqrt_1. }
  assert (L2 := lc_intersect_loss_vertical 2 0 1 1 (RPt 0 0)).
  assert (L3 := lc_intersect_loss_vertical 3 0 1 1 (RPt 0 0)).
  rewrite Habs in L2, L3. specialize (L2 ltac:(lra)). specialize (L3 ltac:(lra)).
  unfold Scalar.const in *.
  repeat split.
  - unfold dist_point_line. rewrite coll_phi_RPt, dist_RPt, Es. sc.
    rewrite div_Some by lra. f_equal.
    replace (0 * (0 - 1) + 2 * (1 - 0) + 2 * (0 - 0)) with 2 by ring.
    rewrite Rabs_pos_eq by lra. field.
  - unfold dist_point_line. rewrite coll_phi_RPt, dist_RPt, Es. sc.
    rewrite div_Some by lra. f_equal.
    replace (0 * (0 - 1) + 3 * (1 - 0) + 3 * (0 - 0)) with 3 by ring.
    rewrite Rabs_pos_eq by lra. field.
  - unfold lc_degenerate. rewrite dist_perp, dist_RPt, Es.
    unfold Scalar.const. rewrite lt_Some_false by lra. reflexivity.
  - unfold lc_degenerate. rewrite dist_perp, dist_RPt, Es.
    unfold Scalar.const. rewrite lt_Some_false by lra. reflexivity.
  - exact L2.
  - exact L3.
  - intros [v1 [v2 [E1 [E2 Hlt]]]].
    rewrite L2 in E1. rewrite L3 in E2.
    injection E1 as <-. injection E2 as <-. lra.
Qed.

(** ** The fallback of the line-circle intersection *)

Lemma radicand_RPt (u1 v1 u2 v2 r : R) :
  radicand (RPt u1 v1) (RPt u2 v2) (Some r)
  = Some (r ^ 2 * ((u1 - u2) ^ 2 + (v1 - v2) ^ 2) - (u2 * v1 - u1 * v2) ^ 2).
Proof.
  unfold radicand, RPt, Scalar.const. sc.
  rewrite sqrt_Some by apply sumsq_nonneg. sc.
  rewrite pow2_sqrt by apply sumsq_nonneg. reflexivity.
Qed.

Lemma shift_RPt (ox oy x1 y1 x2 y2 : R) :
  shift (RPt ox oy) [RPt x1 y1; RPt x2 y2]
  = [RPt (x1 - ox) (y1 - oy); RPt (x2 - ox) (y2 - oy)].
Proof. reflexivity. Qed.

(** The fallback when the shifted line is neither vertical nor horizontal and
  does not pass through [O]: with [F] the foot of the perpendicular from [O]
  to the shifted line and [dF] its distance to [O]. *)
Lemma on_neg_RPt (ox oy u1 v1 u2 v2 r : R) :
  u1 <> u2 -> v1 <> v2 ->
  let k := twice_area ox oy u1 v1 u2 v2 in
  k <> 0 ->
  let n := (u1 - u2) ^ 2 + (v1 - v2) ^ 2 in
  let fx := ox - k / n * (v1 - v2) in
  let fy := oy + k / n * (u1 - u2) in
  let dF := Rabs k / sqrt n in
  let qx := (fx + (ox + (fx - ox) * (r / dF))) * 0.5 + ox in
  let qy := (fy + (oy + (fy - oy) * (r / dF))) * 0.5 + oy in
  on_neg (RPt ox oy) (RPt u1 v1) (RPt u2 v2) (Some r) = [RPt qx qy; RPt qx qy].
Proof.
  intros Hu Hv k Hk n fx fy dF qx qy.
  assert (Hn : 0 < n) by (apply sumsq_pos; lra).
  assert (Hs : 0 < sqrt n) by (apply sqrt_lt_R0; exact Hn).
  assert (HdF : dF <> 0).
  { unfold dF, Rdiv. apply Rmult_integral_contrapositive_currified.
    - apply Rabs_no_R0. exact Hk.
    - apply Rinv_neq_0_compat. lra. }
  unfold on_neg.
  change (inter_ll (pp2sif (RPt u1 v1) (RPt u2 v2))
            (pp2sif (RPt ox oy)
               (Point.add (rotate_counterclockwise_90
                             (Point.sub (RPt u1 v1) (RPt u2 v2))) (RPt ox oy))))
    with (foot (RPt ox oy) (RPt u1 v1) (RPt u2 v2)).
  rewrite dist_foot by assumption. rewrite foot_RPt by assumption.
  fold k. fold n. fold fx. fold fy. fold dF.
  rewrite div_Some by exact HdF.
  reflexivity.
Qed.

Lemma inter_pp_c_cond (P1 P2 O : Point) (r : scalar) :
  exists P1' P2',
    shift O [P1; P2] = [P1'; P2'] /\
    inter_pp_c P1 P2 (mkCircleNF O r)
    = Scalar.cond (Scalar.lt (radicand P1' P2' r) (Scalar.const 0))
                  (on_neg O P1' P2' r) (on_nneg O P1' P2' r).
Proof. do 2 eexists. split; reflexivity. Qed.

Lemma on_neg_twice (O P1 P2 : Point) (r : scalar) :
  exists Q, on_neg O P1 P2 r = [Q; Q].
Proof. eexists. reflexivity. Qed.

Lemma on_nneg_two (O P1 P2 : Point) (r : scalar) :
  exists Q1 Q2, on_nneg O P1 P2 r = [Q1; Q2].
Proof. do 2 eexists. reflexivity. Qed.

Lemma inter_pp_c_negative (P1 P2 O P1' P2' : Point) (r : scalar) :
  shift O [P1; P2] = [P1'; P2'] ->
  Scalar.lt (radicand P1' P2' r) (Scalar.const 0) = true ->
  inter_pp_c P1 P2 (mkCircleNF O r) = on_neg O P1' P2' r.
Proof.
  intros Hs Hr. destruct (inter_pp_c_cond P1 P2 O r) as [Q1 [Q2 [Hs' E]]].
  rewrite Hs in Hs'. injection Hs' as <- <-. rewrite E, Hr. reflexivity.
Qed.

Lemma shift_origin (x1 y1 x2 y2 : R) :
  shift (RPt 0 0) [RPt x1 y1; RPt x2 y2] = [RPt x1 y1; RPt x2 y2].
Proof. rewrite shift_RPt, !Rminus_0_r. reflexivity. Qed.

(** C2, as the code has it.  [inter_pp_c] selects between its two branches
  with [cond] on the sign of the radicand, and always returns two points.
  When the radicand is negative it returns the same point twice.  For a
  circle centred at the origin and a line that is neither vertical nor
  horizontal, this point is defined: it is the midpoint of [F], the foot of
  the perpendicular from the centre to the line, which is farther than the
  radius, and of [X], the projection of [F] onto the circle. *)
Theorem inter_pp_c_fallback :
  (forall P1 P2 O r,
      exists P1' P2',
        shift O [P1; P2] = [P1'; P2'] /\
        inter_pp_c P1 P2 (mkCircleNF O r)
        = Scalar.cond (Scalar.lt (radicand P1' P2' r) (Scalar.const 0))
                      (on_neg O P1' P2' r) (on_nneg O P1' P2' r) /\
        exists Q1 Q2, inter_pp_c P1 P2 (mkCircleNF O r) = [Q1; Q2]) /\
  (forall P1 P2 O r P1' P2',
      shift O [P1; P2] = [P1'; P2'] ->
      Scalar.lt (radicand P1' P2' r) (Scalar.const 0) = true ->
      exists Q, inter_pp_c P1 P2 (mkCircleNF O r) = [Q; Q]) /\
  (forall x1 y1 x2 y2 r : R,
      x1 <> x2 -> y1 <> y2 ->
      let P1 := RPt x1 y1 in
      let P2 := RPt x2 y2 in
      let O := RPt 0 0 in
      Scalar.lt (radicand P1 P2 (Some r)) (Scalar.const 0) = true ->
      exists fx fy d : R,
        let F := RPt fx fy in
        let X := Point.smul F (Scalar.div (Some r) (Some d)) in
        coll_phi P1 P2 F = Scalar.const 0 /\
        perp_phi O F P1 P2 = Scalar.const 0 /\
        dist O F = Some d /\
        Rabs r < d /\
        dist O X = Some (Rabs r) /\
        inter_pp_c P1 P2 (mkCircleNF O (Some r)) = [midp F X; midp F X]).
Proof.
  split; [ | split].
  - intros P1 P2 O r. destruct (inter_pp_c_cond P1 P2 O r) as [P1' [P2' [Hs E]]].
    exists P1', P2'. split; [exact Hs | ]. split; [exact E | ].
    rewrite E. destruct (Scalar.lt _ _); cbn [Scalar.cond].
    + destruct (on_neg_twice O P1' P2' r) as [Q ->]. eauto.
    + apply on_nneg_two.
  - intros P1 P2 O r P1' P2' Hs Hr.
    rewrite (inter_pp_c_negative _ _ _ _ _ _ Hs Hr). apply on_neg_twice.
  - intros x1 y1 x2 y2 r Hx Hy P1 P2 O Hr. subst P1 P2 O.
    rewrite (inter_pp_c_negative _ _ _ _ _ _ (shift_origin x1 y1 x2 y2) Hr).
    rewrite radicand_RPt in Hr. apply lt_Some_inv in Hr.
    set (k := twice_area 0 0 x1 y1 x2 y2).
    set (n := (x1 - x2) ^ 2 + (y1 - y2) ^ 2) in *.
    assert (Hn : 0 < n) by (apply sumsq_pos; lra).
    assert (Hs : 0 < sqrt n) by (apply sqrt_lt_R0; exact Hn).
    assert (Hss : sqrt n * sqrt n = n) by (apply sqrt_sqrt; lra).
    assert (Ek : k * k = (x2 * y1 - x1 * y2) ^ 2) by (unfold k, twice_area; ring).
    assert (Hk : k <> 0).
    { intros E0. rewrite E0 in Ek. pose proof (pow2_ge_0 r). nra. }
    rewrite (on_neg_RPt 0 0 x1 y1 x2 y2 r Hx Hy Hk). fold k. fold n.
    set (fx := 0 - k / n * (y1 - y2)).
    set (fy := 0 + k / n * (x1 - x2)).
    set (d := Rabs k / sqrt n).
    assert (Hd : 0 < d).
    { unfold d. apply Rdiv_lt_0_compat; [apply Rabs_pos_lt; exact Hk | exact Hs]. }
    assert (Hdd : d * d = k * k / n).
    { unfold d. replace (Rabs k / sqrt n * (Rabs k / sqrt n))
        with ((Rabs k * Rabs k) / (sqrt n * sqrt n)) by (field; lra).
      rewrite Hss. f_equal. rewrite <- Rabs_mult. apply Rabs_pos_eq. nra. }
    assert (HF : fx ^ 2 + fy ^ 2 = d * d).
    { rewrite Hdd. unfold fx, fy, n. field. fold n. lra. }
    exists fx, fy, d. cbv zeta.
    split; [ | split; [ | split; [ | split; [ | split]]]].
    + rewrite coll_phi_RPt. unfold Scalar.const. f_equal.
      unfold fx, fy, k, twice_area, n. field. fold n. lra.
    + unfold perp_phi, RPt, Scalar.const. sc. f_equal.
      unfold fx, fy, k, twice_area, n. field. fold n. lra.
    + rewrite dist_RPt. f_equal. apply sqrt_lem_1.
      * apply sumsq_nonneg.
      * lra.
      * rewrite <- HF. ring.
    + assert (Hr2 : Rabs r * Rabs r = r * r).
      { rewrite <- Rabs_mult. apply Rabs_pos_eq. nra. }
      assert (Hlt : r * r < d * d).
      { rewrite Hdd, Ek. apply (Rmult_lt_reg_r n); [exact Hn | ].
        replace ((x2 * y1 - x1 * y2) ^ 2 / n * n) with ((x2 * y1 - x1 * y2) ^ 2)
          by (field; lra).
        lra. }
      pose proof (Rabs_pos r). nra.
    + rewrite div_Some by lra. unfold RPt, Scalar.const, Point.smul. sc.
      change (get_point (Some 0) (Some 0)) with (RPt 0 0).
      change (get_point (Some (fx * (r / d))) (Some (fy * (r / d))))
        with (RPt (fx * (r / d)) (fy * (r / d))).
      rewrite dist_RPt. f_equal. apply sqrt_lem_1.
      * apply sumsq_nonneg.
      * apply Rabs_pos.
      * rewrite <- Rabs_mult. rewrite Rabs_pos_eq by nra.
        replace ((0 - fx * (r / d)) ^ 2 + (0 - fy * (r / d)) ^ 2)
          with ((fx ^ 2 + fy ^ 2) * (r * r) / (d * d)) by (field; lra).
        rewrite HF. field. lra.
    + rewrite div_Some by lra.
      unfold midp, RPt, Scalar.const, Point.smul, Point.add. sc.
      assert (Eq : forall f, (f + (0 + (f - 0) * (r / d))) * 0.5 + 0
                             = (f + f * (r / d)) * 0.5) by (intros f; ring).
      rewrite !Eq. reflexivity.
Qed.

Lemma sqrt_100 : sqrt 100 = 10.
Proof. apply sqrt_lem_1; lra. Qed.

Lemma sqrt_9 : sqrt 9 = 3.
Proof. apply sqrt_lem_1; lra. Qed.

(** C2, as stated, fails.  (1) For the unit circle at the origin and the
  line through (-1,7) and (7,1), at distance 5, the radicand is negative and
  the point returned is (9/5, 12/5): at distance 3 from the centre, not on
  the circle.  (2) For the vertical line x = 2 the radicand is negative and
  the two points returned are undefined.  (3) For the same circle and line
  as in (1) moved by (10,0), the point returned is (97/5, -4/5), not the
  point of (1) moved by (10,0): its squared distance to the centre is 89. *)
Lemma inter_pp_c_fallback_off_circle :
  (Scalar.lt (radicand (RPt (-1) 7) (RPt 7 1) (Scalar.const 1)) (Scalar.const 0)
   = true /\
   inter_pp_c (RPt (-1) 7) (RPt 7 1) (mkCircleNF (RPt 0 0) (Scalar.const 1))
   = [RPt (9 / 5) (12 / 5); RPt (9 / 5) (12 / 5)] /\
   dist (RPt 0 0) (RPt (9 / 5) (12 / 5)) = Scalar.const 3 /\
   dist (RPt 0 0) (RPt (9 / 5) (12 / 5)) <> Scalar.const 1) /\
  (Scalar.lt (radicand (RPt 2 0) (RPt 2 1) (Scalar.const 1)) (Scalar.const 0)
   = true /\
   inter_pp_c (RPt 2 0) (RPt 2 1) (mkCircleNF (RPt 0 0) (Scalar.const 1))
   = [get_point None None; get_point None None]) /\
  (Scalar.lt (radicand (RPt (9 - 10) (7 - 0)) (RPt (17 - 10) (1 - 0))
                       (Scalar.const 1)) (Scalar.const 0) = true /\
   inter_pp_c (RPt 9 7) (RPt 17 1) (mkCircleNF (RPt 10 0) (Scalar.const 1))
   = [RPt (97 / 5) (- 4 / 5); RPt (97 / 5) (- 4 / 5)] /\
   sqdist (RPt 10 0) (RPt (97 / 5) (- 4 / 5)) = Scalar.const 89).
Proof.
  unfold Scalar.const.
  assert (R1 : Scalar.lt (radicand (RPt (-1) 7) (RPt 7 1) (Some 1)) (Some 0) = true).
  { rewrite radicand_RPt. apply lt_Some_true. lra. }
  assert (R2 : Scalar.lt (radicand (RPt 2 0) (RPt 2 1) (Some 1)) (Some 0) = true).
  { rewrite radicand_RPt. apply lt_Some_true. lra. }
  assert (R3 : Scalar.lt (radicand (RPt (9 - 10) (7 - 0)) (RPt (17 - 10) (1 - 0))
                                   (Some 1)) (Some 0) = true).
  { rewrite radicand_RPt. apply lt_Some_true. lra. }
  assert (D3 : dist (RPt 0 0) (RPt (9 / 5) (12 / 5)) = Some 3).
  { rewrite dist_RPt. f_equal. rewrite <- sqrt_9. f_equal. field. }
  split; [ | split].
  - split; [exact R1 | ]. split; [ | split; [exact D3 | ]].
    + rewrite (inter_pp_c_negative _ _ _ _ _ _ (shift_origin (-1) 7 7 1) R1).
      rewrite on_neg_RPt; [ | lra | lra | unfold twice_area; lra].
      replace (twice_area 0 0 (-1) 7 7 1) with (- (50)) by (unfold twice_area; ring).
      replace ((-1 - 7) ^ 2 + (7 - 1) ^ 2) with 100 by ring.
      rewrite sqrt_100, Rabs_Ropp, Rabs_pos_eq by lra.
      assert (E : forall a b c d : R, a = c -> b = d -> [RPt a b; RPt a b] = [RPt c d; RPt c d])
        by (intros; subst; reflexivity).
      apply E; lra.
    + rewrite D3. intros H. injection H as H. lra.
  - split; [exact R2 | ].
    rewrite (inter_pp_c_negative _ _ _ _ _ _ (shift_origin 2 0 2 1) R2).
    unfold on_neg. rewrite pp2sif_vertical, inter_ll_undefined. reflexivity.
  - split; [exact R3 | ]. split.
    + rewrite (inter_pp_c_negative _ _ _ _ _ _ (shift_RPt 10 0 9 7 17 1) R3).
      rewrite on_neg_RPt; [ | lra | lra | unfold twice_area; lra].
      replace (twice_area 10 0 (9 - 10) (7 - 0) (17 - 10) (1 - 0)) with 10
        by (unfold twice_area; ring).
      replace ((9 - 10 - (17 - 10)) ^ 2 + (7 - 0 - (1 - 0)) ^ 2) with 100 by ring.
      rewrite sqrt_100, Rabs_pos_eq by lra.
      assert (E : forall a b c d : R, a = c -> b = d -> [RPt a b; RPt a b] = [RPt c d; RPt c d])
        by (intros; subst; reflexivity).
      apply E; lra.
    + unfold sqdist, RPt, Scalar.const. sc. f_equal. field.
Qed.

(** ** The pass is a function of the instructions and of the backend *)

Lemma bind_ext {A B : Type} (m1 m2 : M A) (k1 k2 : A -> M B) (o : Optimizer) :
  m1 o = m2 o ->
  (forall a o', k1 a o' = k2 a o') ->
  bind m1 k1 o = bind m2 k2 o.
Proof.
  intros Hm Hk. unfold bind. rewrite Hm.
  destruct (m2 o) as [[a | e] o']; [apply Hk | reflexivity].
Qed.

Lemma bind_ret_l {A B : Type} (a : A) (k : A -> M B) (o : Optimizer) :
  bind (ret a) k o = k a o.
Proof. reflexivity. Qed.

Lemma forM_ext_in {A : Type} (l : list A) (f g : A -> M unit) (o : Optimizer) :
  (forall a, In a l -> forall o', f a o' = g a o') -> forM_ l f o = forM_ l g o.
Proof.
  revert o. induction l as [| a l IH]; intros o H; [reflexivity | ].
  cbn [forM_]. apply bind_ext; [apply H; left; reflexivity | intros _ o'].
  apply IH. intros b Hb. apply H. right. exact Hb.
Qed.

Section Determinism.

Variables mk1 mk2 : string -> R -> R -> scalar.
Variables simp1 simp2 : Point -> string -> Point.
Variable vars : list free_variable.

Hypothesis Hmk : agree_on vars mk1 mk2.
Hypothesis Hsimp : forall P method, simp1 P method = simp2 P method.

(** One more [bind] with the same first computation on both sides. *)
Ltac same_bind := apply bind_ext; [reflexivity | intros ? ?].

Lemma sample_uniform_ext (ps : list string) (o : Optimizer) :
  incl (uniform_vars ps) vars ->
  sample_uniform mk1 ps o = sample_uniform mk2 ps o.
Proof.
  intros H. unfold sample_uniform.
  destruct ps as [| p [| q ps]]; try reflexivity.
  cbn [unpack1]. rewrite !bind_ret_l.
  rewrite (Hmk _ _ _ (H _ (or_introl eq_refl))).
  rewrite (Hmk _ _ _ (H _ (or_intror (or_introl eq_refl)))).
  reflexivity.
Qed.

Lemma polygon_vertices_ext (idx : list nat) (angles scales : list scalar)
    (s : scalar) (Ps : list Point) (o : Optimizer) :
  polygon_vertices simp1 idx angles scales s Ps o
  = polygon_vertices simp2 idx angles scales s Ps o.
Proof.
  revert Ps o. induction idx as [| i idx IH]; intros Ps o; [reflexivity | ].
  cbn [polygon_vertices].
  same_bind. destruct a as [A B]. same_bind. same_bind.
  rewrite Hsimp. apply IH.
Qed.

Lemma sample_polygon_ext (ps : list string) (o : Optimizer) :
  incl (polygon_vars ps) vars ->
  sample_polygon mk1 simp1 ps o = sample_polygon mk2 simp2 ps o.
Proof.
  intros H. unfold sample_polygon.
  assert (E1 : map (fun i => mk1 ("polygon_angle_zs_" ++ str_nat i) (-0.5) 0.5)
                   (seq 0 (length ps))
               = map (fun i => mk2 ("polygon_angle_zs_" ++ str_nat i) (-0.5) 0.5)
                     (seq 0 (length ps))).
  { apply map_ext_in. intros i Hi. apply Hmk, H. unfold polygon_vars.
    apply in_or_app. left.
    exact (in_map (fun i => (("polygon_angle_zs_" ++ str_nat i)%string, -0.5, 0.5))
                  _ i Hi). }
  assert (E2 : map (fun i => mk1 ("polygon_scale_zs_" ++ str_nat i) (-1.0) 1.0)
                   (seq 0 (length ps))
               = map (fun i => mk2 ("polygon_scale_zs_" ++ str_nat i) (-1.0) 1.0)
                     (seq 0 (length ps))).
  { apply map_ext_in. intros i Hi. apply Hmk, H. unfold polygon_vars.
    apply in_or_app. right.
    exact (in_map (fun i => (("polygon_scale_zs_" ++ str_nat i)%string, -1.0, 1.0))
                  _ i Hi). }
  rewrite E1, E2. cbv zeta.
  same_bind. same_bind. same_bind.
  apply bind_ext; [apply polygon_vertices_ext | reflexivity].
Qed.

Lemma sample_triangle_ext (ps : list string) (iso right : option string)
    (acute equi : bool) (o : Optimizer) :
  incl (triangle_vars ps iso right acute equi) vars ->
  sample_triangle mk1 simp1 ps iso right acute equi o
  = sample_triangle mk2 simp2 ps iso right acute equi o.
Proof.
  unfold sample_triangle, triangle_vars. intros H.
  destruct (negb (truthy iso || truthy right || acute || equi));
    [apply sample_polygon_ext; exact H | ].
  assert (Ex : is_not_None iso || equi = false ->
               mk1 "tri_x" (-1.0) 1.2 = mk2 "tri_x" (-1.0) 1.2).
  { intros E. rewrite E in H. apply Hmk, H. left. reflexivity. }
  assert (Ey : is_not_None right = false -> equi = false ->
               mk1 "tri" (-1.0) 1.0 = mk2 "tri" (-1.0) 1.0).
  { intros E1 E2. rewrite E1, E2 in H. apply Hmk, H.
    apply in_or_app. right. left. reflexivity. }
  destruct (is_not_None iso || equi) eqn:Ei;
    destruct (is_not_None right) eqn:Er; destruct equi eqn:Ee;
    try rewrite (Ex eq_refl); try rewrite (Ey eq_refl eq_refl); reflexivity.
Qed.

Lemma sample_ext (s_method : string) (points s_args : list string) (o : Optimizer) :
  incl (instruction_vars (Sample s_method points s_args)) vars ->
  sample mk1 simp1 s_method points s_args o
  = sample mk2 simp2 s_method points s_args o.
Proof.
  unfold sample, instruction_vars.
  repeat match goal with
         | |- context [if String.eqb s_method ?c then _ else _] =>
             destruct (String.eqb s_method c)
         end;
    intros H; try reflexivity;
    first [apply sample_triangle_ext; exact H
          | apply sample_polygon_ext; exact H
          | apply sample_uniform_ext; exact H].
Qed.

Lemma parameterize_ext (p p_method : string) (p_args : list arg) (o : Optimizer) :
  incl (instruction_vars (Parameterize p p_method p_args)) vars ->
  parameterize mk1 p p_method p_args o = parameterize mk2 p p_method p_args o.
Proof.
  unfold parameterize, instruction_vars, parameterize_coords.
  repeat match goal with
         | |- context [if String.eqb p_method ?c then _ else _] =>
             destruct (String.eqb p_method c)
         end;
    intros H; try reflexivity.
  - apply sample_uniform_ext. exact H.
  - unfold c_arg, getitem. cbn [Nat.sub nth_error].
    destruct p_args as [| [ns | l | c | rs] p_args]; try reflexivity.
    rewrite !bind_ret_l. unfold parameterize_in_poly.
    cbn [as_points]. rewrite !bind_ret_l.
    rewrite (map_ext_in
               (fun poly_p => mk1 (p ++ "_in_poly_" ++ poly_p) (-1.0) 1.0)
               (fun poly_p => mk2 (p ++ "_in_poly_" ++ poly_p) (-1.0) 1.0)).
    + reflexivity.
    + intros q Hq. apply Hmk, H.
      exact (in_map (fun poly_p => ((p ++ "_in_poly_" ++ poly_p)%string, -1.0, 1.0))
                    _ q Hq).
  - same_bind. unfold parameterize_on_circ.
    rewrite (Hmk _ _ _ (H _ (or_introl eq_refl))). reflexivity.
  - same_bind. unfold parameterize_on_line.
    rewrite (Hmk _ _ _ (H _ (or_introl eq_refl))). reflexivity.
  - same_bind. unfold parameterize_on_ray.
    rewrite (Hmk _ _ _ (H _ (or_introl eq_refl))). reflexivity.
  - same_bind. unfold parameterize_on_ray_opp.
    rewrite (Hmk _ _ _ (H _ (or_introl eq_refl))). reflexivity.
  - same_bind. unfold parameterize_on_seg.
    rewrite (Hmk _ _ _ (H _ (or_introl eq_refl))). reflexivity.
Qed.

Lemma process_instruction_ext (i : Instruction) (o : Optimizer) :
  incl (instruction_vars i) vars ->
  process_instruction mk1 simp1 i o = process_instruction mk2 simp2 i o.
Proof.
  destruct i; cbn [process_instruction]; intros H; try reflexivity.
  - apply sample_ext. exact H.
  - apply parameterize_ext. exact H.
Qed.

Lemma preprocess_ext (o : Optimizer) :
  incl (free_variables (instructions o)) vars ->
  preprocess mk1 simp1 o = preprocess mk2 simp2 o.
Proof.
  intros H. unfold preprocess, bind, gets.
  apply forM_ext_in. intros i Hi o1.
  apply process_instruction_ext. intros v Hv. apply H.
  unfold free_variables. apply in_flat_map. exists i. split; assumption.
Qed.

End Determinism.

(** What the pass does with [Sample] [uniform] on one name, from a fresh
  object: the point of the two variables of the name is registered. *)
Lemma run_sample_uniform (mk : string -> R -> R -> scalar)
    (simp : Point -> string -> Point) (p : string) (s_args : list string) :
  run mk simp [Sample "uniform" [p] s_args]
  = (Ok tt,
     set_name2pt [(p, get_point (mk (p ++ "x")%string (-1.0) 1.0)
                                (mk (p ++ "y")%string (-1.0) 1.0))]
                 (init [Sample "uniform" [p] s_args])).
Proof. reflexivity. Qed.


(** ** The theorems on examples *)

Lemma circumcenter_equidistant_witness :
  coll_phi (RPt 0 0) (RPt 4 0) (RPt 0 2) <> Scalar.const 0 /\
  exists ox oy d : R,
    circumcenter (RPt 0 0) (RPt 4 0) (RPt 0 2) = RPt ox oy /\
    dist (RPt ox oy) (RPt 0 0) = Scalar.const d /\
    dist (RPt ox oy) (RPt 4 0) = Scalar.const d /\
    dist (RPt ox oy) (RPt 0 2) = Scalar.const d.
Proof.
  assert (H : coll_phi (RPt 0 0) (RPt 4 0) (RPt 0 2) <> Scalar.const 0).
  { rewrite coll_phi_RPt. unfold Scalar.const. intros E. injection E as E. lra. }
  split; [exact H | exact (circumcenter_equidistant 0 0 4 0 0 2 H)].
Defined.

Lemma inter_pp_c_fallback_witness :
  (-1 <> 7 /\ 7 <> 1 /\
   Scalar.lt (radicand (RPt (-1) 7) (RPt 7 1) (Some 1)) (Scalar.const 0) = true) /\
  exists Q,
    inter_pp_c (RPt (-1) 7) (RPt 7 1) (mkCircleNF (RPt 0 0) (Some 1)) = [Q; Q].
Proof.
  assert (Hx : -1 <> 7) by lra.
  assert (Hy : 7 <> 1) by lra.
  assert (Hr : Scalar.lt (radicand (RPt (-1) 7) (RPt 7 1) (Some 1))
                         (Scalar.const 0) = true)
    by (rewrite radicand_RPt; apply lt_Some_true; lra).
  split; [repeat split; assumption | ].
  destruct (proj2 (proj2 inter_pp_c_fallback) (-1) 7 7 1 1 Hx Hy Hr)
    as [fx [fy [d [_ [_ [_ [_ [_ E]]]]]]]].
  eexists. exact E.
Defined.

Lemma sqrt_25 : sqrt 25 = 5.
Proof. replace 25 with (5 * 5) by ring. apply sqrt_square. lra. Qed.

Lemma lc_intersect_loss_hinge_witness :
  (3 <> 0 /\ 0 <> 4 /\
   lc_degenerate (RPt 0 0) (RPt 3 0) (RPt 0 4) = false /\
   dist_point_line (RPt 0 0) (RPt 3 0) (RPt 0 4) = Some (12 / 5) /\
   1 < 12 / 5 /\ 12 / 5 <= 3) /\
  lc_intersect_loss (pp2sif (RPt 3 0) (RPt 0 4)) (mkCircleNF (RPt 0 0) (Some 1))
  = Some (12 / 5) /\
  lc_intersect_loss (pp2sif (RPt 3 0) (RPt 0 4)) (mkCircleNF (RPt 0 0) (Some 3))
  = Some 0.
Proof.
  assert (Hx : 3 <> 0) by lra.
  assert (Hy : 0 <> 4) by lra.
  assert (Es : sqrt ((3 - 0) ^ 2 + (0 - 4) ^ 2) = 5).
  { replace ((3 - 0) ^ 2 + (0 - 4) ^ 2) with 25 by ring. exact sqrt_25. }
  assert (Hdeg : lc_degenerate (RPt 0 0) (RPt 3 0) (RPt 0 4) = false).
  { unfold lc_degenerate. rewrite dist_perp, dist_RPt, Es.
    unfold Scalar.const. rewrite lt_Some_false by lra. reflexivity. }
  assert (Hd : dist_point_line (RPt 0 0) (RPt 3 0) (RPt 0 4) = Some (12 / 5)).
  { rewrite dist_point_line_RPt by exact Hx. rewrite Es. unfold twice_area.
    replace (0 * (0 - 4) + 3 * (4 - 0) + 0 * (0 - 0)) with 12 by ring.
    rewrite Rabs_pos_eq by lra. reflexivity. }
  assert (H1 : 1 < 12 / 5) by lra.
  assert (H3 : 12 / 5 <= 3) by lra.
  split; [repeat split; assumption | ]. split.
  - exact (proj1 (proj2 (proj2 (proj2
             (proj1 (proj2 lc_intersect_loss_hinge) 3 0 0 4 0 0 1))))
             Hx Hy Hdeg (12 / 5) Hd H1).
  - exact (proj1 (proj2 (proj1 (proj2 lc_intersect_loss_hinge) 3 0 0 4 0 0 3))
             (12 / 5) Hd H3).
Defined.

Lemma process_rs_arbitrary_second_witness :
  process_rs (RPt 0 0) (RPt 1 0) (arbitrary []) (init []) = (Ok (RPt 1 0), init []).
Proof.
  exact (proj1 (process_rs_arbitrary_second (RPt 0 0) (RPt 1 0) [] (init []))).
Defined.

Lemma coll_assertion_vals_witness :
  (dict_get (name2pt three_on_a_line) "A" = Some (RPt 0 0) /\
   dict_get (name2pt three_on_a_line) "B" = Some (RPt 1 1) /\
   dict_get (name2pt three_on_a_line) "C" = Some (RPt 2 2)) /\
  exists o',
    assertion_vals "coll" ["A"; "B"; "C"] three_on_a_line
    = (Ok [Scalar.const 0], o').
Proof.
  split; [repeat split | ].
  apply (proj1 (proj2 coll_assertion_vals) "A" "B" "C" three_on_a_line);
    reflexivity.
Defined.


Lemma sample_equiTri_witness :
  (exists o',
      process_instruction (fun _ _ _ => None) (fun P _ => P)
        (Sample "equiTri" ["A"; "B"; "C"] []) (init []) = (Ok tt, o') /\
      name2pt o' = name2pt (init [])
                   ++ [("A", equi_A); ("B", equi_B); ("C", equi_C)] /\
      segments o' = segments (init [])
                    ++ [(equi_A, equi_B); (equi_B, equi_C); (equi_C, equi_A)] /\
      losses o' = losses (init [])) /\
  dist equi_A equi_B = Scalar.const 4 /\
  dist equi_B equi_C = Scalar.const 4 /\
  dist equi_C equi_A = Scalar.const 4 /\
  angle equi_A equi_B equi_C = Scalar.const (PI / 3).
Proof.
  apply (sample_equiTri (fun _ _ _ => None) (fun P _ => P) "A" "B" "C" [] (init []));
    try discriminate;
    intros H; apply H; reflexivity.
Defined.

Lemma eqratio_diam_unbound_dist_witness :
  Forall (registered eight_points) ["A"; "B"; "C"; "D"; "P"; "Q"; "R"; "S"] /\
  assertion_vals "eqratio" ["A"; "B"; "C"; "D"; "P"; "Q"; "R"; "S"] eight_points
  = (Raise (NameError "dist"), eight_points) /\
  circ2nf (mkCircle "diam" ["A"; "B"]) eight_points
  = (Raise (NameError "dist"), eight_points).
Proof.
  assert (H8 : Forall (registered eight_points)
                      ["A"; "B"; "C"; "D"; "P"; "Q"; "R"; "S"])
    by (repeat constructor; discriminate).
  assert (H2 : Forall (registered eight_points) ["A"; "B"])
    by (repeat constructor; discriminate).
  split; [exact H8 | ]. split.
  - exact (proj1 (proj2 (proj2 (proj2 eqratio_diam_unbound_dist))) _ _ H8 eq_refl).
  - exact (proj2 (proj2 (proj2 (proj2 eqratio_diam_unbound_dist))) _ _ H2 eq_refl).
Defined.

Lemma harmonicLConj_unbound_const_witness :
  Forall (registered eight_points) ["A"; "B"; "C"] /\
  process_instruction (fun _ _ _ => None) (fun P _ => P)
    (Compute "Y" "harmonicLConj" [ArgPoints ["A"; "B"; "C"]]) eight_points
  = (Raise (NameError "const"), eight_points).
Proof.
  assert (H3 : Forall (registered eight_points) ["A"; "B"; "C"])
    by (repeat constructor; discriminate).
  split; [exact H3 | ].
  exact (proj2 (proj2 (harmonicLConj_unbound_const (fun _ _ _ => None) (fun P _ => P)))
           "Y" _ [] eight_points H3 eq_refl).
Defined.

(** * Further properties of the kernel *)

Lemma half_dec : 0.5 = 1 / 2.
Proof. lra. Qed.

Lemma midp_RPt (ax ay bx by_ : R) :
  midp (RPt ax ay) (RPt bx by_) = RPt ((ax + bx) / 2) ((ay + by_) / 2).
Proof.
  unfold midp, RPt, Scalar.const, Point.smul, Point.add. sc.
  rewrite half_dec. f_equal; f_equal; field.
Qed.

(** X1.  The midpoint of two points is at the same distance from both, is
  collinear with them, and does not depend on their order. *)
Theorem midp_equidistant_collinear (ax ay bx by_ : R) :
  let A := RPt ax ay in
  let B := RPt bx by_ in
  dist A (midp A B) = dist B (midp A B) /\
  coll_phi A (midp A B) B = Scalar.const 0 /\
  midp A B = midp B A.
Proof.
  cbv zeta. rewrite !midp_RPt, !dist_RPt, coll_phi_RPt. unfold Scalar.const.
  split; [ | split].
  - do 2 f_equal. field.
  - f_equal. field.
  - f_equal; f_equal; field.
Qed.

Lemma midp_from_RPt (mx my ax ay : R) :
  midp_from (RPt mx my) (RPt ax ay) = RPt (2 * mx - ax) (2 * my - ay).
Proof.
  unfold midp_from, RPt, Scalar.const, Point.smul, Point.add, Point.sub. sc.
  f_equal; f_equal; ring.
Qed.

(** X2.  [midp_from M A] is the point whose midpoint with [A] is [M]: taking the
  midpoint back gives [M], and [midp_from] of a midpoint gives the other
  end. *)
Theorem midp_from_round_trip (mx my ax ay : R) :
  let M := RPt mx my in
  let A := RPt ax ay in
  midp (midp_from M A) A = M /\
  midp_from (midp M A) A = M.
Proof.
  cbv zeta. rewrite midp_from_RPt, !midp_RPt, midp_from_RPt.
  split; unfold RPt, Scalar.const; f_equal; f_equal; field.
Qed.

(** ** Barycentric coordinates *)

Lemma side_lengths_RPt (ax ay bx by_ cx cy : R) :
  side_lengths (RPt ax ay) (RPt bx by_) (RPt cx cy)
  = (Some (sqrt (sq_len bx by_ cx cy)), Some (sqrt (sq_len cx cy ax ay)),
     Some (sqrt (sq_len ax ay bx by_))).
Proof. unfold side_lengths. rewrite !dist_RPt. reflexivity. Qed.

Lemma sqrt_sq_len_pos (x1 y1 x2 y2 : R) :
  (x1, y1) <> (x2, y2) -> 0 < sqrt (sq_len x1 y1 x2 y2).
Proof.
  intros H. apply sqrt_sumsq_pos.
  destruct (Req_dec_T x1 x2) as [Ex | Nx]; [ | left; lra].
  right. intros Ey. apply H. f_equal; lra.
Qed.

Lemma cancel_div (u t : R) : u <> 0 -> u * (t / u) = t.
Proof. intros H. field. exact H. Qed.

(** With vertices that are pairwise distinct and weights whose sum is not
  zero, [barycentric] is the weighted mean of the vertices. *)
Lemma barycentric_RPt (ax ay bx by_ cx cy x0 y0 z0 : R) :
  (ax, ay) <> (bx, by_) -> (bx, by_) <> (cx, cy) -> (cx, cy) <> (ax, ay) ->
  x0 + y0 + z0 <> 0 ->
  barycentric (RPt ax ay) (RPt bx by_) (RPt cx cy) (Some x0) (Some y0) (Some z0)
  = RPt ((x0 * ax + y0 * bx + z0 * cx) / (x0 + y0 + z0))
        ((x0 * ay + y0 * by_ + z0 * cy) / (x0 + y0 + z0)).
Proof.
  intros Hab Hbc Hca Hs.
  unfold barycentric, trilinear. rewrite side_lengths_RPt.
  pose proof (sqrt_sq_len_pos _ _ _ _ Hbc) as Hu.
  pose proof (sqrt_sq_len_pos _ _ _ _ Hca) as Hv.
  pose proof (sqrt_sq_len_pos _ _ _ _ Hab) as Hw.
  rewrite !div_Some by lra.
  unfold RPt, Scalar.const. sc.
  rewrite !cancel_div by lra.
  rewrite !div_Some by exact Hs. reflexivity.
Qed.

Lemma add_None_r (a : scalar) : Scalar.add a None = None.
Proof. destruct a; reflexivity. Qed.

Lemma mul_None_r (a : scalar) : Scalar.mul a None = None.
Proof. destruct a; reflexivity. Qed.

Lemma mul_None_l (a : scalar) : Scalar.mul None a = None.
Proof. reflexivity. Qed.

Lemma div_None_r (a : scalar) : Scalar.div a None = None.
Proof. destruct a; reflexivity. Qed.

(** X3.  The centroid of three pairwise distinct points is their mean.  When two
  of the vertices coincide, a side has length 0 and the coordinates are
  undefined. *)
Theorem centroid_mean (ax ay bx by_ cx cy : R) :
  ((ax, ay) <> (bx, by_) -> (bx, by_) <> (cx, cy) -> (cx, cy) <> (ax, ay) ->
   centroid (RPt ax ay) (RPt bx by_) (RPt cx cy)
   = RPt ((ax + bx + cx) / 3) ((ay + by_ + cy) / 3)) /\
  centroid (RPt ax ay) (RPt ax ay) (RPt cx cy) = get_point None None.
Proof.
  split.
  - intros Hab Hbc Hca. unfold centroid, Scalar.const.
    rewrite barycentric_RPt by (assumption || lra).
    unfold RPt, Scalar.const. f_equal; f_equal; field.
  - unfold centroid, barycentric, trilinear. rewrite side_lengths_RPt.
    assert (E : sqrt (sq_len ax ay ax ay) = 0).
    { unfold sq_len. replace ((ax - ax) ^ 2 + (ay - ay) ^ 2) with 0 by ring.
      apply sqrt_0. }
    rewrite E. unfold Scalar.const. rewrite (div_by_zero 1 0) by reflexivity.
    unfold RPt, Scalar.const. cbn [Point.x Point.y].
    rewrite !mul_None_r, !mul_None_l, !add_None_r, !div_None_r. reflexivity.
Qed.

Lemma centroid_mean_witness :
  ((0, 0) <> (3, 0) /\ (3, 0) <> (0, 6) /\ (0, 6) <> (0, 0)) /\
  centroid (RPt 0 0) (RPt 3 0) (RPt 0 6) = RPt ((0 + 3 + 0) / 3) ((0 + 0 + 6) / 3).
Proof.
  assert (H1 : (0, 0) <> (3, 0)) by (intros E; injection E as E; lra).
  assert (H2 : (3, 0) <> (0, 6)) by (intros E; injection E as E _; lra).
  assert (H3 : (0, 6) <> (0, 0)) by (intros E; injection E as E; lra).
  split; [repeat split; assumption | ].
  exact (proj1 (centroid_mean 0 0 3 0 0 6) H1 H2 H3).
Defined.

Lemma conway_vals_RPt (ax ay bx by_ cx cy : R) :
  conway_vals (RPt ax ay) (RPt bx by_) (RPt cx cy)
  = (Some ((sq_len cx cy ax ay + sq_len ax ay bx by_ - sq_len bx by_ cx cy) / 2),
     Some ((sq_len ax ay bx by_ + sq_len bx by_ cx cy - sq_len cx cy ax ay) / 2),
     Some ((sq_len bx by_ cx cy + sq_len cx cy ax ay - sq_len ax ay bx by_) / 2)).
Proof.
  unfold conway_vals. rewrite side_lengths_RPt. unfold Scalar.const. sc.
  rewrite !div_Some by lra.
  rewrite !pow2_sqrt by apply sumsq_nonneg. reflexivity.
Qed.

Lemma nonflat_distinct (ax ay bx by_ cx cy : R) :
  twice_area ax ay bx by_ cx cy <> 0 ->
  (ax, ay) <> (bx, by_) /\ (bx, by_) <> (cx, cy) /\ (cx, cy) <> (ax, ay).
Proof.
  unfold twice_area. intros H.
  repeat split; intros E; injection E as E1 E2; subst; apply H; ring.
Qed.

(** X4.  On a triangle that is not flat, [orthocenter] is a defined point [H]
  and the lines from [H] to the vertices are perpendicular to the opposite
  sides. *)
Theorem orthocenter_altitudes (ax ay bx by_ cx cy : R) :
  let A := RPt ax ay in
  let B := RPt bx by_ in
  let C := RPt cx cy in
  coll_phi A B C <> Scalar.const 0 ->
  exists hx hy : R,
    orthocenter A B C = RPt hx hy /\
    perp_phi (RPt hx hy) A B C = Scalar.const 0 /\
    perp_phi (RPt hx hy) B C A = Scalar.const 0 /\
    perp_phi (RPt hx hy) C A B = Scalar.const 0.
Proof.
  cbv zeta. intros H. rewrite coll_phi_RPt in H.
  assert (Hk : twice_area ax ay bx by_ cx cy <> 0).
  { unfold twice_area. intros E. apply H. rewrite E. reflexivity. }
  destruct (nonflat_distinct _ _ _ _ _ _ Hk) as [Hab [Hbc Hca]].
  unfold orthocenter. rewrite side_lengths_RPt, conway_vals_RPt. sc.
  set (Sa := (sq_len cx cy ax ay + sq_len ax ay bx by_ - sq_len bx by_ cx cy) / 2).
  set (Sb := (sq_len ax ay bx by_ + sq_len bx by_ cx cy - sq_len cx cy ax ay) / 2).
  set (Sc := (sq_len bx by_ cx cy + sq_len cx cy ax ay - sq_len ax ay bx by_) / 2).
  assert (Hden : Sb * Sc + Sc * Sa + Sa * Sb = twice_area ax ay bx by_ cx cy ^ 2).
  { unfold Sa, Sb, Sc, sq_len, twice_area. field. }
  rewrite barycentric_RPt; [ | assumption | assumption | assumption | ].
  2:{ rewrite Hden. apply pow_nonzero. exact Hk. }
  do 2 eexists. split; [reflexivity | ].
  unfold perp_phi, RPt, Scalar.const. sc. rewrite Hden.
  unfold Sa, Sb, Sc, sq_len, twice_area in *.
  repeat split; f_equal; field; exact Hk.
Qed.

Lemma orthocenter_altitudes_witness :
  coll_phi (RPt 0 0) (RPt 4 0) (RPt 1 3) <> Scalar.const 0 /\
  exists hx hy : R,
    orthocenter (RPt 0 0) (RPt 4 0) (RPt 1 3) = RPt hx hy /\
    perp_phi (RPt hx hy) (RPt 0 0) (RPt 4 0) (RPt 1 3) = Scalar.const 0 /\
    perp_phi (RPt hx hy) (RPt 4 0) (RPt 1 3) (RPt 0 0) = Scalar.const 0 /\
    perp_phi (RPt hx hy) (RPt 1 3) (RPt 0 0) (RPt 4 0) = Scalar.const 0.
Proof.
  assert (H : coll_phi (RPt 0 0) (RPt 4 0) (RPt 1 3) <> Scalar.const 0).
  { rewrite coll_phi_RPt. unfold Scalar.const. intros E. injection E as E. lra. }
  split; [exact H | exact (orthocenter_altitudes 0 0 4 0 1 3 H)].
Defined.

(** ** Inversion *)

Lemma sqdist_RPt (a b c d : R) :
  sqdist (RPt a b) (RPt c d) = Some (sq_len a b c d).
Proof. reflexivity. Qed.

Lemma sq_len_pos (x1 y1 x2 y2 : R) :
  (x1, y1) <> (x2, y2) -> 0 < sq_len x1 y1 x2 y2.
Proof.
  intros H. unfold sq_len.
  destruct (Req_dec_T x1 x2) as [Ex | Nx].
  - assert (y1 <> y2) by (intros Ey; apply H; f_equal; assumption).
    pose proof (pow2_ge_0 (x1 - x2)). assert (0 < (y1 - y2) ^ 2) by nra. lra.
  - apply sumsq_pos. lra.
Qed.

Lemma inverse_RPt (xx xy ox oy ax ay : R) :
  (ox, oy) <> (xx, xy) ->
  let k := sq_len ox oy ax ay / sq_len ox oy xx xy in
  inverse (RPt xx xy) (RPt ox oy) (RPt ax ay)
  = RPt (ox + (xx - ox) * k) (oy + (xy - oy) * k).
Proof.
  intros H k. pose proof (sq_len_pos _ _ _ _ H) as Hp.
  unfold inverse. rewrite !sqdist_RPt, div_Some by lra. reflexivity.
Qed.

(** X5.  The inverse [Y] of a point [X] other than the centre [O], in the circle
  through [A]: it is on the line [O X], the product of the squared distances
  of [X] and [Y] to [O] is the square of the squared radius, and, when the
  radius is not zero, inverting [Y] gives [X] back.  The inverse of the
  centre itself is undefined. *)
Theorem inverse_involution (xx xy ox oy ax ay : R) :
  let X := RPt xx xy in
  let O := RPt ox oy in
  let A := RPt ax ay in
  ((ox, oy) <> (xx, xy) ->
   exists yx yy : R,
     inverse X O A = RPt yx yy /\
     coll_phi O X (RPt yx yy) = Scalar.const 0 /\
     sq_len ox oy xx xy * sq_len ox oy yx yy = sq_len ox oy ax ay ^ 2 /\
     ((ox, oy) <> (ax, ay) -> inverse (RPt yx yy) O A = X)) /\
  inverse O O A = get_point None None.
Proof.
  cbv zeta. split.
  - intros H. pose proof (sq_len_pos _ _ _ _ H) as Hp.
    rewrite inverse_RPt by exact H.
    set (k := sq_len ox oy ax ay / sq_len ox oy xx xy).
    do 2 eexists. split; [reflexivity | ]. split; [ | split].
    + rewrite coll_phi_RPt. unfold Scalar.const. f_equal. ring.
    + unfold k, sq_len in *. field. lra.
    + intros HA. pose proof (sq_len_pos _ _ _ _ HA) as Hq.
      assert (Hk : 0 < k) by (unfold k; apply Rdiv_lt_0_compat; assumption).
      assert (Hy : sq_len ox oy (ox + (xx - ox) * k) (oy + (xy - oy) * k)
                   = k ^ 2 * sq_len ox oy xx xy) by (unfold sq_len; ring).
      rewrite inverse_RPt.
      2:{ intros E. injection E as E1 E2.
          assert (Z : sq_len ox oy (ox + (xx - ox) * k) (oy + (xy - oy) * k) = 0)
            by (rewrite <- E1, <- E2; unfold sq_len; ring).
          rewrite Hy in Z.
          assert (0 < k ^ 2 * sq_len ox oy xx xy)
            by (apply Rmult_lt_0_compat; [nra | exact Hp]).
          lra. }
      rewrite Hy. unfold RPt, Scalar.const. f_equal; f_equal.
      * unfold k. field. split; lra.
      * unfold k. field. split; lra.
  - unfold inverse. rewrite !sqdist_RPt.
    rewrite (div_by_zero _ (sq_len ox oy ox oy)) by (unfold sq_len; ring).
    reflexivity.
Qed.

Lemma inverse_involution_witness :
  (0, 0) <> (2, 0) /\
  exists yx yy : R,
    inverse (RPt 2 0) (RPt 0 0) (RPt 0 1) = RPt yx yy /\
    coll_phi (RPt 0 0) (RPt 2 0) (RPt yx yy) = Scalar.const 0 /\
    sq_len 0 0 2 0 * sq_len 0 0 yx yy = sq_len 0 0 0 1 ^ 2 /\
    ((0, 0) <> (0, 1) -> inverse (RPt yx yy) (RPt 0 0) (RPt 0 1) = RPt 2 0).
Proof.
  assert (H : (0, 0) <> (2, 0)) by (intros E; injection E as E; lra).
  split; [exact H | exact (proj1 (inverse_involution 2 0 0 0 0 1) H)].
Defined.

(** ** Lines in slope-intercept form *)

(** The slope-intercept form of the line through two points with different
  abscissas. *)
Lemma pp2sif_RPt (x1 y1 x2 y2 : R) :
  x1 <> x2 ->
  pp2sif (RPt x1 y1) (RPt x2 y2)
  = mkSif (Some ((y2 - y1) / (x2 - x1)))
          (Some (y1 - (y2 - y1) / (x2 - x1) * x1))
          (RPt x1 y1) (RPt x2 y2).
Proof.
  intros H. unfold pp2sif, RPt, Scalar.const. sc.
  rewrite div_Some by lra. reflexivity.
Qed.

(** X6.  Two lines, neither of them vertical, that are not parallel (the value of
  [para_phi] is not zero): [inter_ll] of their slope-intercept forms is a
  defined point, collinear with the two points of each line.  When they are
  parallel the point is undefined. *)
Theorem inter_ll_on_both_lines (ax ay bx by_ cx cy dx dy : R) :
  let A := RPt ax ay in
  let B := RPt bx by_ in
  let C := RPt cx cy in
  let D := RPt dx dy in
  ax <> bx -> cx <> dx ->
  (para_phi A B C D <> Scalar.const 0 ->
   exists px py : R,
     inter_ll (pp2sif A B) (pp2sif C D) = RPt px py /\
     coll_phi A B (RPt px py) = Scalar.const 0 /\
     coll_phi C D (RPt px py) = Scalar.const 0) /\
  (para_phi A B C D = Scalar.const 0 ->
   inter_ll (pp2sif A B) (pp2sif C D) = get_point None None).
Proof.
  cbv zeta. intros Hab Hcd.
  rewrite !pp2sif_RPt by assumption.
  unfold para_phi, inter_ll, RPt, Scalar.const. sc.
  set (m1 := (by_ - ay) / (bx - ax)). set (m2 := (dy - cy) / (dx - cx)).
  assert (Em : m1 - m2
               = ((ax - bx) * (cy - dy) - (ay - by_) * (cx - dx))
                 / ((bx - ax) * (cx - dx))).
  { unfold m1, m2. field. lra. }
  split.
  - intros Hp.
    assert (Hk : (ax - bx) * (cy - dy) - (ay - by_) * (cx - dx) <> 0)
      by (intros E; apply Hp; rewrite E; reflexivity).
    assert (Hm : m1 - m2 <> 0).
    { rewrite Em. unfold Rdiv. apply Rmult_integral_contrapositive_currified;
        [exact Hk | apply Rinv_neq_0_compat; nra]. }
    rewrite div_Some by exact Hm. sc.
    do 2 eexists. split; [reflexivity | ].
    unfold coll_phi. sc.
    split; f_equal.
    + assert (Eb : by_ = ay + m1 * (bx - ax)) by (unfold m1; field; lra).
      clearbody m1 m2. rewrite Eb. ring.
    + set (p := (cy - m2 * cx - (ay - m1 * ax)) / (m1 - m2)).
      assert (Ep : m1 * p + (ay - m1 * ax) = m2 * p + (cy - m2 * cx)).
      { unfold p. field. exact Hm. }
      assert (Ed : dy = cy + m2 * (dx - cx)) by (unfold m2; field; lra).
      clearbody p m1 m2. rewrite Ep, Ed. ring.
  - intros Hp.
    assert (Hk : (ax - bx) * (cy - dy) - (ay - by_) * (cx - dx) = 0) by congruence.
    rewrite div_by_zero; [reflexivity | ].
    rewrite Em, Hk. unfold Rdiv. ring.
Qed.

Lemma inter_ll_on_both_lines_witness :
  (0 <> 2 /\ 0 <> 4 /\
   para_phi (RPt 0 0) (RPt 2 2) (RPt 0 4) (RPt 4 0) <> Scalar.const 0) /\
  exists px py : R,
    inter_ll (pp2sif (RPt 0 0) (RPt 2 2)) (pp2sif (RPt 0 4) (RPt 4 0)) = RPt px py /\
    coll_phi (RPt 0 0) (RPt 2 2) (RPt px py) = Scalar.const 0 /\
    coll_phi (RPt 0 4) (RPt 4 0) (RPt px py) = Scalar.const 0.
Proof.
  assert (H1 : 0 <> 2) by lra.
  assert (H2 : 0 <> 4) by lra.
  assert (H3 : para_phi (RPt 0 0) (RPt 2 2) (RPt 0 4) (RPt 4 0) <> Scalar.const 0).
  { unfold para_phi, RPt, Scalar.const. sc. intros E. injection E as E. lra. }
  split; [repeat split; assumption | ].
  exact (proj1 (inter_ll_on_both_lines 0 0 2 2 0 4 4 0 H1 H2) H3).
Defined.

(** ** The line-circle intersection when the line meets the circle *)

Lemma sgnstar_Some (u : R) :
  sgnstar (Some u) = Some (if Rltb u 0 then -1 else 1).
Proof.
  unfold sgnstar, Scalar.cond, Scalar.lt, Scalar.const.
  destruct (Rltb u 0); reflexivity.
Qed.

Lemma Rabs_sgn (u : R) : Rabs u = (if Rltb u 0 then -1 else 1) * u.
Proof.
  unfold Rltb. destruct (Rlt_dec u 0) as [L | L].
  - rewrite Rabs_left by exact L. ring.
  - rewrite Rabs_pos_eq by lra. ring.
Qed.

Lemma sgn_sq (u : R) :
  (if Rltb u 0 then -1 else 1) * (if Rltb u 0 then -1 else 1) = 1.
Proof. destruct (Rltb u 0); ring. Qed.

(** The two points of [on_nneg], for shifted points that are distinct and a
  radicand that is not negative. *)
Lemma on_nneg_RPt (ox oy u1 v1 u2 v2 r : R) :
  (u1, v1) <> (u2, v2) ->
  let dx := u1 - u2 in
  let dy := v1 - v2 in
  let n := dx ^ 2 + dy ^ 2 in
  let D := u2 * v1 - u1 * v2 in
  let rad := r ^ 2 * n - D ^ 2 in
  0 <= rad ->
  let sg := if Rltb dy 0 then -1 else 1 in
  on_nneg (RPt ox oy) (RPt u1 v1) (RPt u2 v2) (Some r)
  = [RPt ((D * dy + sg * dx * sqrt rad) / n + ox)
         ((- D * dx + sg * dy * sqrt rad) / n + oy);
     RPt ((D * dy - sg * dx * sqrt rad) / n + ox)
         ((- D * dx - sg * dy * sqrt rad) / n + oy)].
Proof.
  intros Hne dx dy n D rad Hrad sg.
  assert (Hn : 0 < n) by (apply (sq_len_pos u1 v1 u2 v2); exact Hne).
  unfold on_nneg, RPt, Scalar.const. sc.
  rewrite (sqrt_Some ((u1 - u2) ^ 2 + (v1 - v2) ^ 2)) by apply sumsq_nonneg.
  sc. rewrite pow2_sqrt by apply sumsq_nonneg.
  fold dx. fold dy. fold n. fold D. fold rad.
  rewrite sqrt_Some by exact Hrad. rewrite sgnstar_Some. fold sg. sc.
  rewrite !div_Some by lra.
  rewrite (Rabs_sgn dy). fold sg.
  reflexivity.
Qed.

Lemma inter_pp_c_meets (x1 y1 x2 y2 ox oy r : R) :
  let P1 := RPt x1 y1 in
  let P2 := RPt x2 y2 in
  let O := RPt ox oy in
  (x1, y1) <> (x2, y2) ->
  Scalar.lt (radicand (RPt (x1 - ox) (y1 - oy)) (RPt (x2 - ox) (y2 - oy)) (Some r))
            (Scalar.const 0) = false ->
  exists q1x q1y q2x q2y : R,
    inter_pp_c P1 P2 (mkCircleNF O (Some r)) = [RPt q1x q1y; RPt q2x q2y] /\
    dist O (RPt q1x q1y) = Some (Rabs r) /\
    dist O (RPt q2x q2y) = Some (Rabs r) /\
    coll_phi P1 P2 (RPt q1x q1y) = Scalar.const 0 /\
    coll_phi P1 P2 (RPt q2x q2y) = Scalar.const 0.
Proof.
  cbv zeta. intros Hne Hr.
  destruct (inter_pp_c_cond (RPt x1 y1) (RPt x2 y2) (RPt ox oy) (Some r))
    as [P1' [P2' [Hs E]]].
  rewrite shift_RPt in Hs. injection Hs as <- <-.
  rewrite E, Hr. cbn [Scalar.cond]. clear E.
  rewrite radicand_RPt in Hr.
  assert (Hrad : 0 <= r ^ 2 * ((x1 - ox - (x2 - ox)) ^ 2 + (y1 - oy - (y2 - oy)) ^ 2)
                      - ((x2 - ox) * (y1 - oy) - (x1 - ox) * (y2 - oy)) ^ 2).
  { unfold Scalar.lt, Scalar.const, Rltb in Hr.
    destruct (Rlt_dec _ 0) as [L | L]; [discriminate | lra]. }
  assert (Hne' : (x1 - ox, y1 - oy) <> (x2 - ox, y2 - oy)).
  { intros Eq. injection Eq as E1 E2. apply Hne. f_equal; lra. }
  rewrite (on_nneg_RPt ox oy _ _ _ _ r Hne' Hrad).
  set (dx := x1 - ox - (x2 - ox)) in *. set (dy := y1 - oy - (y2 - oy)) in *.
  set (n := dx ^ 2 + dy ^ 2) in *.
  set (D := (x2 - ox) * (y1 - oy) - (x1 - ox) * (y2 - oy)) in *.
  set (rad := r ^ 2 * n - D ^ 2) in *.
  set (sg := if Rltb dy 0 then -1 else 1).
  assert (Hn : 0 < n) by (apply (sq_len_pos _ _ _ _ Hne')).
  assert (Hss : sqrt rad * sqrt rad = r ^ 2 * n - D ^ 2)
    by (apply sqrt_sqrt; exact Hrad).
  assert (Hsg : sg * sg = 1) by apply sgn_sq.
  assert (Habs : sqrt (r ^ 2) = Rabs r).
  { rewrite <- Rsqr_pow2. apply sqrt_Rsqr_abs. }
  assert (Hdx : dx = x1 - x2) by (unfold dx; ring).
  assert (Hdy : dy = y1 - y2) by (unfold dy; ring).
  assert (HD : D = x2 * y1 - x1 * y2 - ox * dy + oy * dx)
    by (unfold D, dx, dy; ring).
  do 4 eexists. split; [reflexivity | ].
  rewrite !dist_RPt, !coll_phi_RPt. unfold Scalar.const.
  assert (Hnd : n = dx ^ 2 + dy ^ 2) by reflexivity.
  clearbody sg. clearbody rad.
  set (s := sqrt rad) in *. clearbody s. clearbody D. clearbody n.
  clearbody dx dy.
  repeat split; f_equal.
  - rewrite <- Habs. f_equal.
    replace ((ox - ((D * dy + sg * dx * s) / n + ox)) ^ 2
             + (oy - ((- D * dx + sg * dy * s) / n + oy)) ^ 2)
      with ((D ^ 2 * n + (sg * sg) * (s * s) * n) / n ^ 2)
      by (rewrite Hnd; field; rewrite <- Hnd; lra).
    rewrite Hsg, Hss. field. lra.
  - rewrite <- Habs. f_equal.
    replace ((ox - ((D * dy - sg * dx * s) / n + ox)) ^ 2
             + (oy - ((- D * dx - sg * dy * s) / n + oy)) ^ 2)
      with ((D ^ 2 * n + (sg * sg) * (s * s) * n) / n ^ 2)
      by (rewrite Hnd; field; rewrite <- Hnd; lra).
    rewrite Hsg, Hss. field. lra.
  - replace (x1 * (y2 - ((- D * dx + sg * dy * s) / n + oy))
             + x2 * ((- D * dx + sg * dy * s) / n + oy - y1)
             + ((D * dy + sg * dx * s) / n + ox) * (y1 - y2))
      with ((x1 * y2 - x2 * y1 - oy * (x1 - x2) + ox * (y1 - y2))
            + (D * (dx * (x1 - x2) + dy * (y1 - y2))
               + sg * s * (dx * (y1 - y2) - dy * (x1 - x2))) / n)
      by (field; lra).
    rewrite <- Hdx, <- Hdy.
    replace (dx * dx + dy * dy) with n by (rewrite Hnd; ring).
    rewrite HD. field. lra.
  - replace (x1 * (y2 - ((- D * dx - sg * dy * s) / n + oy))
             + x2 * ((- D * dx - sg * dy * s) / n + oy - y1)
             + ((D * dy - sg * dx * s) / n + ox) * (y1 - y2))
      with ((x1 * y2 - x2 * y1 - oy * (x1 - x2) + ox * (y1 - y2))
            + (D * (dx * (x1 - x2) + dy * (y1 - y2))
               - sg * s * (dx * (y1 - y2) - dy * (x1 - x2))) / n)
      by (field; lra).
    rewrite <- Hdx, <- Hdy.
    replace (dx * dx + dy * dy) with n by (rewrite Hnd; ring).
    rewrite HD. field. lra.
Qed.

(** X7.  When the line through two distinct points meets the circle (the radicand
  is not negative), [inter_pp_c] returns two defined points, each at the
  distance of the radius from the centre and collinear with the two points
  of the line, wherever the centre is. *)
Theorem inter_pp_c_on_circle_and_line (x1 y1 x2 y2 ox oy r : R) :
  let P1 := RPt x1 y1 in
  let P2 := RPt x2 y2 in
  let O := RPt ox oy in
  (x1, y1) <> (x2, y2) ->
  Scalar.lt (radicand (RPt (x1 - ox) (y1 - oy)) (RPt (x2 - ox) (y2 - oy)) (Some r))
            (Scalar.const 0) = false ->
  exists q1x q1y q2x q2y : R,
    inter_pp_c P1 P2 (mkCircleNF O (Some r)) = [RPt q1x q1y; RPt q2x q2y] /\
    dist O (RPt q1x q1y) = Some (Rabs r) /\
    dist O (RPt q2x q2y) = Some (Rabs r) /\
    coll_phi P1 P2 (RPt q1x q1y) = Scalar.const 0 /\
    coll_phi P1 P2 (RPt q2x q2y) = Scalar.const 0.
Proof. exact (inter_pp_c_meets x1 y1 x2 y2 ox oy r). Qed.

Lemma inter_pp_c_on_circle_and_line_witness :
  ((-2, 1) <> (3, 1) /\
   Scalar.lt (radicand (RPt (-2 - 1) (1 - 1)) (RPt (3 - 1) (1 - 1)) (Some 2))
             (Scalar.const 0) = false) /\
  exists q1x q1y q2x q2y : R,
    inter_pp_c (RPt (-2) 1) (RPt 3 1) (mkCircleNF (RPt 1 1) (Some 2))
    = [RPt q1x q1y; RPt q2x q2y] /\
    dist (RPt 1 1) (RPt q1x q1y) = Some (Rabs 2) /\
    dist (RPt 1 1) (RPt q2x q2y) = Some (Rabs 2) /\
    coll_phi (RPt (-2) 1) (RPt 3 1) (RPt q1x q1y) = Scalar.const 0 /\
    coll_phi (RPt (-2) 1) (RPt 3 1) (RPt q2x q2y) = Scalar.const 0.
Proof.
  assert (H1 : (-2, 1) <> (3, 1)) by (intros E; injection E as E; lra).
  assert (H2 : Scalar.lt (radicand (RPt (-2 - 1) (1 - 1)) (RPt (3 - 1) (1 - 1)) (Some 2))
                         (Scalar.const 0) = false).
  { rewrite radicand_RPt. apply lt_Some_false. lra. }
  split; [split; assumption | ].
  exact (inter_pp_c_on_circle_and_line (-2) 1 3 1 1 1 2 H1 H2).
Defined.

(** * Further properties of the interpreter *)

(** ** Looking names up *)

(** X8.  On registered names [lookup_pts] returns their points, in order, and
  leaves the object as it is; when a name is missing it raises [KeyError]
  for the first missing one, whatever follows it. *)
Theorem lookup_pts_first_missing (o : Optimizer) :
  (forall ps,
      Forall (registered o) ps ->
      exists Ps,
        lookup_pts ps o = (Ok Ps, o) /\
        Forall2 (fun p P => dict_get (name2pt o) p = Some P) ps Ps) /\
  (forall pre p post,
      Forall (registered o) pre -> ~ registered o p ->
      lookup_pts (pre ++ p :: post) o = (Raise (KeyError p), o)).
Proof.
  split.
  - intros ps Hreg.
    destruct (lookup_pts_registered ps o Hreg) as [Ps [E _]].
    exists Ps. split; [exact E | ]. clear Hreg.
    revert Ps E. induction ps as [| p ps IH]; intros Ps E.
    + cbn in E. injection E as <-. constructor.
    + rewrite lookup_pts_cons in E.
      destruct (dict_get (name2pt o) p) as [P | ] eqn:Ep; [ | discriminate].
      destruct (lookup_pts_cases ps o) as [[Qs Eq] | [e Eq]]; rewrite Eq in E;
        [ | discriminate].
      injection E as <-. constructor; [exact Ep | apply IH, Eq].
  - intros pre p post Hpre Hp. induction Hpre as [| q pre Hq _ IH]; cbn [app].
    + rewrite lookup_pts_cons, (not_registered _ _ Hp). reflexivity.
    + rewrite lookup_pts_cons. unfold registered in Hq.
      destruct (dict_get (name2pt o) q); [ | contradiction].
      rewrite IH. reflexivity.
Qed.

Lemma lookup_pts_first_missing_witness :
  (Forall (registered three_on_a_line) ["A"; "B"] /\
   ~ registered three_on_a_line "Z") /\
  lookup_pts (["A"; "B"] ++ "Z" :: ["C"]) three_on_a_line
  = (Raise (KeyError "Z"), three_on_a_line).
Proof.
  assert (H1 : Forall (registered three_on_a_line) ["A"; "B"])
    by (repeat constructor; discriminate).
  assert (H2 : ~ registered three_on_a_line "Z") by (intros H; apply H; reflexivity).
  split; [split; assumption | ].
  exact (proj2 (lookup_pts_first_missing three_on_a_line) _ _ _ H1 H2).
Defined.

(** ** Root selection by distance *)

Lemma process_rs_by_distance (p : string) (x1 y1 x2 y2 cx cy : R)
    (o : Optimizer) :
  let P1 := RPt x1 y1 in
  let P2 := RPt x2 y2 in
  let d1 := sq_len x1 y1 cx cy in
  let d2 := sq_len x2 y2 cx cy in
  dict_get (name2pt o) p = Some (RPt cx cy) ->
  (process_rs P1 P2 (select_by "closerTo" p) o
   = (Ok (if Rle_dec d1 d2 then P1 else P2), o)) /\
  (process_rs P1 P2 (select_by "furtherFrom" p) o
   = (Ok (if Rlt_dec d2 d1 then P1 else P2), o)).
Proof.
  cbv zeta. intros H.
  assert (L : lookup_pts [p] o = (Ok [RPt cx cy], o))
    by (rewrite lookup_pts_cons, H; reflexivity).
  split.
  - unfold process_rs, select_by. cbn [as_root_select]. unfold bind at 1, ret at 1.
    cbn [rs_pred rs_vars String.eqb Ascii.eqb Bool.eqb].
    unfold bind at 1. change (names_of_vars [RsName p] o) with (Ok [p], o).
    cbv beta iota. unfold bind at 1. rewrite L. cbn [unpack1].
    unfold bind, ret. rewrite !sqdist_RPt.
    unfold Scalar.lte, Scalar.cond, Rleb. destruct (Rle_dec _ _); reflexivity.
  - unfold process_rs, select_by. cbn [as_root_select]. unfold bind at 1, ret at 1.
    cbn [rs_pred rs_vars String.eqb Ascii.eqb Bool.eqb].
    unfold bind at 1. change (names_of_vars [RsName p] o) with (Ok [p], o).
    cbv beta iota. unfold bind at 1. rewrite L. cbn [unpack1].
    unfold bind, ret. rewrite !sqdist_RPt.
    unfold Scalar.lt, Scalar.cond, Rltb. destruct (Rlt_dec _ _); reflexivity.
Qed.

(** X9.  With [closerTo] the candidate returned is one that is nearest to the
  reference point, the first one when both are as near; with [furtherFrom]
  it is one that is farthest, the second one when both are as far.  The
  object is left as it is. *)
Theorem process_rs_closer_further (p : string) (x1 y1 x2 y2 cx cy : R)
    (o : Optimizer) :
  let P1 := RPt x1 y1 in
  let P2 := RPt x2 y2 in
  let d1 := sq_len x1 y1 cx cy in
  let d2 := sq_len x2 y2 cx cy in
  dict_get (name2pt o) p = Some (RPt cx cy) ->
  (exists qx qy : R,
      process_rs P1 P2 (select_by "closerTo" p) o = (Ok (RPt qx qy), o) /\
      (RPt qx qy = P1 \/ RPt qx qy = P2) /\
      sq_len qx qy cx cy <= d1 /\ sq_len qx qy cx cy <= d2 /\
      (d1 = d2 -> RPt qx qy = P1)) /\
  (exists qx qy : R,
      process_rs P1 P2 (select_by "furtherFrom" p) o = (Ok (RPt qx qy), o) /\
      (RPt qx qy = P1 \/ RPt qx qy = P2) /\
      d1 <= sq_len qx qy cx cy /\ d2 <= sq_len qx qy cx cy /\
      (d1 = d2 -> RPt qx qy = P2)).
Proof.
  cbv zeta. intros H.
  destruct (process_rs_by_distance p x1 y1 x2 y2 cx cy o H) as [E1 E2].
  rewrite E1, E2. split.
  - destruct (Rle_dec _ _) as [L | L].
    + exists x1, y1. repeat split; auto; try (intros; lra).
    + exists x2, y2. repeat split; auto; try (intros; lra).
  - destruct (Rlt_dec _ _) as [L | L].
    + exists x1, y1. repeat split; auto; try (intros; lra).
    + exists x2, y2. repeat split; auto; try (intros; lra).
Qed.

Lemma process_rs_closer_further_witness :
  dict_get (name2pt three_on_a_line) "A" = Some (RPt 0 0) /\
  exists qx qy : R,
    process_rs (RPt 3 0) (RPt 1 0) (select_by "closerTo" "A") three_on_a_line
    = (Ok (RPt qx qy), three_on_a_line) /\
    (RPt qx qy = RPt 3 0 \/ RPt qx qy = RPt 1 0) /\
    sq_len qx qy 0 0 <= sq_len 3 0 0 0 /\ sq_len qx qy 0 0 <= sq_len 1 0 0 0 /\
    (sq_len 3 0 0 0 = sq_len 1 0 0 0 -> RPt qx qy = RPt 3 0).
Proof.
  split; [reflexivity | ].
  exact (proj1 (process_rs_closer_further "A" 3 0 1 0 0 0 three_on_a_line eq_refl)).
Defined.

(** ** Rotations *)

Lemma rotate_counterclockwise_RPt (t px py : R) :
  rotate_counterclockwise (Some t) (RPt px py)
  = RPt (cos t * px + - sin t * py) (sin t * px + cos t * py).
Proof. reflexivity. Qed.

(** X10.  [rotate_counterclockwise] is a rotation about the origin: it keeps the
  squared distance of two points, turning by [s] after turning by [t] is
  turning by [s + t], and turning by [0] changes nothing. *)
Theorem rotate_counterclockwise_isometry (s t px py qx qy : R) :
  let P := RPt px py in
  let Q := RPt qx qy in
  sqdist (rotate_counterclockwise (Some t) P) (rotate_counterclockwise (Some t) Q)
  = sqdist P Q /\
  rotate_counterclockwise (Some s) (rotate_counterclockwise (Some t) P)
  = rotate_counterclockwise (Some (s + t)) P /\
  rotate_counterclockwise (Some 0) P = P.
Proof.
  cbv zeta. rewrite !rotate_counterclockwise_RPt, !sqdist_RPt.
  split; [ | split].
  - unfold Scalar.const, sq_len. f_equal.
    pose proof (sin2_cos2 t) as E. unfold Rsqr in E.
    replace ((cos t * px + - sin t * py - (cos t * qx + - sin t * qy)) ^ 2
             + (sin t * px + cos t * py - (sin t * qx + cos t * qy)) ^ 2)
      with ((sin t * sin t + cos t * cos t)
            * ((px - qx) ^ 2 + (py - qy) ^ 2)) by ring.
    rewrite E. ring.
  - rewrite cos_plus, sin_plus. unfold RPt, Scalar.const.
    f_equal; f_equal; ring.
  - rewrite cos_0, sin_0. unfold RPt, Scalar.const. f_equal; f_equal; ring.
Qed.

(** X11.  The two quarter turns undo each other; the counterclockwise one is the
  rotation by [PI / 2], and the turned vector is perpendicular to the
  vector it comes from and as long. *)
Theorem quarter_turns (px py : R) :
  let P := RPt px py in
  let O' := RPt 0 0 in
  rotate_clockwise_90 (rotate_counterclockwise_90 P) = P /\
  rotate_counterclockwise_90 (rotate_clockwise_90 P) = P /\
  rotate_counterclockwise_90 P = rotate_counterclockwise (Some (PI / 2)) P /\
  perp_phi O' P O' (rotate_counterclockwise_90 P) = Scalar.const 0 /\
  sqdist O' (rotate_counterclockwise_90 P) = sqdist O' P.
Proof.
  cbv zeta.
  assert (E : rotate_counterclockwise_90 (RPt px py) = RPt (- py) px).
  { unfold rotate_counterclockwise_90, matrix_mul, inner_product, RPt,
      Scalar.const. sc. f_equal; f_equal; ring. }
  assert (E' : rotate_clockwise_90 (RPt px py) = RPt py (- px)).
  { unfold rotate_clockwise_90, matrix_mul, inner_product, RPt,
      Scalar.const. sc. f_equal; f_equal; ring. }
  repeat split.
  - rewrite E. unfold rotate_clockwise_90, matrix_mul, inner_product, RPt,
      Scalar.const. sc. f_equal; f_equal; ring.
  - rewrite E'. unfold rotate_counterclockwise_90, matrix_mul, inner_product,
      RPt, Scalar.const. sc. f_equal; f_equal; ring.
  - rewrite E, rotate_counterclockwise_RPt, cos_PI2, sin_PI2.
    unfold RPt, Scalar.const. f_equal; f_equal; ring.
  - rewrite E. unfold perp_phi, RPt, Scalar.const. sc. f_equal. ring.
  - rewrite E, !sqdist_RPt. unfold Scalar.const, sq_len. f_equal. ring.
Qed.

(** ** The gap of [between] *)

Lemma max_Some (u v : R) : Scalar.max (Some u) (Some v) = Some (Rmax u v).
Proof. reflexivity. Qed.

Lemma between_gap_RPt (t ax ay bx by_ : R) :
  between_gap (RPt (ax + t * (bx - ax)) (ay + t * (by_ - ay)))
              (RPt ax ay) (RPt bx by_)
  = [Some (Rmax 0 ((t - 0.2) * (t - 0.8) * (bx - ax) ^ 2));
     Some (Rmax 0 ((t - 0.2) * (t - 0.8) * (by_ - ay) ^ 2))].
Proof.
  assert (H : forall a b : R,
             (a + t * (b - a) - (a + 0.2 * (b - a)))
             * (a + t * (b - a) - (b + 0.2 * (a - b)))
             = (t - 0.2) * (t - 0.8) * (b - a) ^ 2).
  { intros a b. replace 0.8 with (1 - 0.2) by lra. ring. }
  unfold between_gap, diff_signs, RPt, Scalar.const. sc.
  rewrite !H. reflexivity.
Qed.

(** X12.  For a point [X = A + t (B - A)] of the line through [A] and [B], the
  two gaps of [between_gap] are zero when [t] is between 0.2 and 0.8.  When
  [t] is outside (the ends [A] and [B] are) and the two points differ, no
  gap is negative and one of them is positive. *)
Theorem between_gap_middle (t ax ay bx by_ : R) :
  let A := RPt ax ay in
  let B := RPt bx by_ in
  let X := RPt (ax + t * (bx - ax)) (ay + t * (by_ - ay)) in
  (0.2 <= t <= 0.8 -> between_gap X A B = [Scalar.const 0; Scalar.const 0]) /\
  (t < 0.2 \/ 0.8 < t -> (ax, ay) <> (bx, by_) ->
   exists g1 g2 : R,
     between_gap X A B = [Some g1; Some g2] /\
     0 <= g1 /\ 0 <= g2 /\ 0 < g1 + g2).
Proof.
  cbv zeta. rewrite between_gap_RPt. split.
  - intros [L U]. unfold Scalar.const.
    assert (H : (t - 0.2) * (t - 0.8) <= 0) by nra.
    rewrite !Rmax_left; [reflexivity | | ];
      [pose proof (pow2_ge_0 (by_ - ay)) | pose proof (pow2_ge_0 (bx - ax))]; nra.
  - intros Ht Hne.
    assert (H : 0 < (t - 0.2) * (t - 0.8)) by (destruct Ht; nra).
    do 2 eexists. split; [reflexivity | ].
    pose proof (pow2_ge_0 (by_ - ay)) as Hy.
    pose proof (pow2_ge_0 (bx - ax)) as Hx.
    rewrite !Rmax_right by nra.
    split; [nra | split; [nra | ]].
    assert (Hs : 0 < (bx - ax) ^ 2 + (by_ - ay) ^ 2).
    { apply (sq_len_pos bx by_ ax ay). intros E. apply Hne.
      injection E as -> ->. reflexivity. }
    nra.
Qed.

Lemma between_gap_middle_witness :
  between_gap (RPt (0 + 0.5 * (4 - 0)) (0 + 0.5 * (2 - 0))) (RPt 0 0) (RPt 4 2)
  = [Scalar.const 0; Scalar.const 0] /\
  exists g1 g2 : R,
    between_gap (RPt (0 + 0 * (4 - 0)) (0 + 0 * (2 - 0))) (RPt 0 0) (RPt 4 2)
    = [Some g1; Some g2] /\
    0 <= g1 /\ 0 <= g2 /\ 0 < g1 + g2.
Proof.
  split.
  - apply (proj1 (between_gap_middle 0.5 0 0 4 2)). lra.
  - apply (proj2 (between_gap_middle 0 0 0 4 2)).
    + left. lra.
    + intros E. injection E as E _. lra.
Defined.

(** ** The guarded reciprocal *)

Lemma Rltb_iff (u v : R) : Rltb u v = true <-> u < v.
Proof.
  unfold Rltb. destruct (Rlt_dec u v); split; intros; auto; discriminate.
Qed.

Lemma invert_or_zero_Some (u : R) :
  invert_or_zero (Some u) = Some (if Rltb (Rabs u) 1e-5 then 0 else 1 / u).
Proof.
  unfold invert_or_zero, Scalar.cond, Scalar.abs, Scalar.lift1, Scalar.lt,
    Scalar.const.
  destruct (Rltb (Rabs u) 1e-5) eqn:E; [reflexivity | ].
  rewrite div_Some; [reflexivity | ].
  intros ->. rewrite Rabs_R0 in E.
  assert (Rltb 0 1e-5 = true) by (apply Rltb_true; lra). congruence.
Qed.

(** X13.  [invert_or_zero] is defined on every number, zero included, where it
  is [0].  Taking it twice gives the number back exactly when its absolute
  value is from 1e-5 to 1e5; on a larger or a smaller number it gives
  [0]. *)
Theorem invert_or_zero_twice (u : R) :
  (exists v : R, invert_or_zero (Some u) = Some v) /\
  invert_or_zero (Scalar.const 0) = Scalar.const 0 /\
  (1e-5 <= Rabs u <= 1e5 ->
   invert_or_zero (invert_or_zero (Some u)) = Some u) /\
  (Rabs u < 1e-5 \/ 1e5 < Rabs u ->
   invert_or_zero (invert_or_zero (Some u)) = Scalar.const 0).
Proof.
  split; [ | split; [ | split]].
  - eexists. apply invert_or_zero_Some.
  - unfold Scalar.const. rewrite invert_or_zero_Some, Rltb_true; [reflexivity | ].
    rewrite Rabs_R0. lra.
  - intros [L U]. rewrite invert_or_zero_Some, (Rltb_false (Rabs u)) by lra.
    assert (Hu : u <> 0) by (intros ->; rewrite Rabs_R0 in L; lra).
    assert (Hp : 0 < Rabs u) by (apply Rabs_pos_lt; exact Hu).
    assert (Ha : Rabs (1 / u) = 1 / Rabs u).
    { unfold Rdiv. rewrite !Rmult_1_l. apply Rabs_inv. }
    rewrite invert_or_zero_Some, Rltb_false.
    + f_equal. field. exact Hu.
    + rewrite Ha. apply Rmult_le_reg_r with (Rabs u); [exact Hp | ].
      replace (1 / Rabs u * Rabs u) with 1 by (field; lra). lra.
  - intros [L | U].
    + rewrite invert_or_zero_Some, Rltb_true by lra.
      rewrite invert_or_zero_Some, Rltb_true; [reflexivity | ].
      rewrite Rabs_R0. lra.
    + assert (Hp : 0 < Rabs u) by lra.
      assert (Hu : u <> 0) by (intros ->; rewrite Rabs_R0 in Hp; lra).
      assert (Ha : Rabs (1 / u) = 1 / Rabs u).
      { unfold Rdiv. rewrite !Rmult_1_l. apply Rabs_inv. }
      rewrite invert_or_zero_Some, (Rltb_false (Rabs u)) by lra.
      rewrite invert_or_zero_Some, Rltb_true; [reflexivity | ].
      rewrite Ha. apply Rmult_lt_reg_r with (Rabs u); [exact Hp | ].
      replace (1 / Rabs u * Rabs u) with 1 by (field; lra). lra.
Qed.

Lemma invert_or_zero_twice_witness :
  (1e-5 <= Rabs 4 <= 1e5 /\ (Rabs 0 < 1e-5 \/ 1e5 < Rabs 0)) /\
  invert_or_zero (invert_or_zero (Some 4)) = Some 4 /\
  invert_or_zero (invert_or_zero (Some 0)) = Scalar.const 0.
Proof.
  assert (H4 : 1e-5 <= Rabs 4 <= 1e5) by (rewrite Rabs_pos_eq; lra).
  assert (H0 : Rabs 0 < 1e-5 \/ 1e5 < Rabs 0) by (left; rewrite Rabs_R0; lra).
  split; [split; assumption | ]. split.
  - exact (proj1 (proj2 (proj2 (invert_or_zero_twice 4))) H4).
  - exact (proj2 (proj2 (proj2 (invert_or_zero_twice 0))) H0).
Defined.

(** ** The radical axis *)

Lemma radical_axis_pts_RPt (c1x c1y r1 c2x c2y r2 : R) :
  let a := 2 * (c2x - c1x) in
  let b := 2 * (c2y - c1y) in
  let c := r1 ^ 2 - r2 ^ 2 + (c2y ^ 2 - c1y ^ 2) + (c2x ^ 2 - c1x ^ 2) in
  radical_axis_pts (mkCircleNF (RPt c1x c1y) (Some r1))
                   (mkCircleNF (RPt c2x c2y) (Some r2))
  = if Rltb 1e-6 (Rabs a)
    then (get_point (Scalar.div (Some (c - b)) (Some a)) (Some 1),
          get_point (Scalar.div (Some c) (Some a)) (Some 0))
    else (get_point (Some 1) (Scalar.div (Some c) (Some b)),
          get_point (Some 0) (Scalar.div (Some c) (Some b))).
Proof.
  cbv zeta.
  unfold radical_axis_pts, RPt, Scalar.const, Scalar.gt, Scalar.lt,
    Scalar.cond. sc.
  destruct (Rltb 1e-6 (Rabs (2 * (c2x - c1x)))); reflexivity.
Qed.

(** X14.  The two points of [radical_axis_pts] are distinct points of the radical
  axis (each has the same power with respect to the two circles) when the
  centres differ in their abscissa by more than 5e-7, and when they have the
  same abscissa and different ordinates.  For concentric circles both points
  are undefined. *)
Theorem radical_axis_pts_equal_power (c1x c1y r1 c2x c2y r2 : R) :
  let cnf1 := mkCircleNF (RPt c1x c1y) (Some r1) in
  let cnf2 := mkCircleNF (RPt c2x c2y) (Some r2) in
  let on_axis (u v : R) :=
    sq_len u v c1x c1y - r1 ^ 2 = sq_len u v c2x c2y - r2 ^ 2 in
  (5e-7 < Rabs (c2x - c1x) \/ (c1x = c2x /\ c1y <> c2y) ->
   exists u1 v1 u2 v2 : R,
     radical_axis_pts cnf1 cnf2 = (RPt u1 v1, RPt u2 v2) /\
     (u1, v1) <> (u2, v2) /\ on_axis u1 v1 /\ on_axis u2 v2) /\
  (c1x = c2x -> c1y = c2y ->
   radical_axis_pts cnf1 cnf2
   = (get_point (Some 1) None, get_point (Some 0) None)).
Proof.
  cbv zeta. rewrite radical_axis_pts_RPt. split.
  - intros [H | [Ex Ny]].
    + assert (Ha : Rabs (2 * (c2x - c1x)) = 2 * Rabs (c2x - c1x)).
      { rewrite Rabs_mult, (Rabs_pos_eq 2) by lra. reflexivity. }
      assert (Hn : 2 * (c2x - c1x) <> 0).
      { intros E. rewrite E, Rabs_R0 in Ha. lra. }
      rewrite Rltb_true by (rewrite Ha; lra).
      rewrite !div_Some by exact Hn.
      do 4 eexists. split; [reflexivity | ].
      split; [intros E; apply (f_equal snd) in E; cbn [snd] in E; lra | ].
      unfold sq_len. split; field; lra.
    + subst c2x. replace (2 * (c1x - c1x)) with 0 by ring.
      rewrite Rabs_R0, Rltb_false by lra.
      rewrite !div_Some by lra.
      do 4 eexists. split; [reflexivity | ].
      split; [intros E; apply (f_equal fst) in E; cbn [fst] in E; lra | ].
      unfold sq_len. split; field; lra.
  - intros -> ->. replace (2 * (c2x - c2x)) with 0 by ring.
    replace (2 * (c2y - c2y)) with 0 by ring.
    rewrite Rabs_R0, Rltb_false by lra.
    rewrite div_by_zero by reflexivity. reflexivity.
Qed.

Lemma radical_axis_pts_equal_power_witness :
  (5e-7 < Rabs (4 - 0) \/ (0 = 4 /\ 0 <> 0)) /\
  exists u1 v1 u2 v2 : R,
    radical_axis_pts (mkCircleNF (RPt 0 0) (Some 3)) (mkCircleNF (RPt 4 0) (Some 1))
    = (RPt u1 v1, RPt u2 v2) /\
    (u1, v1) <> (u2, v2) /\
    sq_len u1 v1 0 0 - 3 ^ 2 = sq_len u1 v1 4 0 - 1 ^ 2 /\
    sq_len u2 v2 0 0 - 3 ^ 2 = sq_len u2 v2 4 0 - 1 ^ 2.
Proof.
  assert (H : 5e-7 < Rabs (4 - 0) \/ (0 = 4 /\ 0 <> 0)).
  { left. rewrite Rabs_pos_eq; lra. }
  split; [exact H | ].
  exact (proj1 (radical_axis_pts_equal_power 0 0 3 4 0 1) H).
Defined.

(** ** The weights of [softmax] *)

Lemma sum_Some (l : list R) (a : R) :
  fold_left Scalar.add (map Some l) (Some a) = Some (fold_left Rplus l a).
Proof.
  revert a. induction l as [ | u l IH]; intros a; [reflexivity | ].
  cbn [map fold_left]. apply IH.
Qed.

Lemma fold_plus_pos (l : list R) (a : R) :
  0 <= a -> l <> [] -> Forall (fun u => 0 < u) l -> 0 < fold_left Rplus l a.
Proof.
  revert a. induction l as [ | u l IH]; intros a Ha Hl Hp; [congruence | ].
  inversion Hp as [ | ? ? Hu Hp']; subst. cbn [fold_left].
  destruct l as [ | v l]; [cbn; lra | ].
  apply IH; [lra | discriminate | exact Hp'].
Qed.

Lemma fold_plus_div (l : list R) (a s : R) :
  fold_left Rplus (map (fun e => e / s) l) (a / s) = fold_left Rplus l a / s.
Proof.
  revert a. induction l as [ | u l IH]; intros a; [reflexivity | ].
  cbn [map fold_left]. replace (a / s + u / s) with ((a + u) / s)
    by (unfold Rdiv; ring).
  apply IH.
Qed.

Lemma softmax_Some (zs : list R) :
  zs <> [] ->
  let s := fold_left Rplus (map exp zs) 0 in
  0 < s /\
  softmax (map Some zs) = map Some (map (fun z => exp z / s) zs).
Proof.
  intros Hz s.
  assert (Hs : 0 < s).
  { apply fold_plus_pos; [lra | destruct zs; [congruence | discriminate] | ].
    apply Forall_forall. intros u Hu. apply in_map_iff in Hu.
    destruct Hu as [z [<- _]]. apply exp_pos. }
  split; [exact Hs | ].
  unfold softmax.
  assert (E : map Scalar.exp (map Some zs) = map Some (map exp zs)).
  { rewrite !map_map. reflexivity. }
  rewrite E. unfold Scalar.sum, Scalar.const. rewrite sum_Some. fold s.
  rewrite !map_map. apply map_ext. intros z. apply div_Some. lra.
Qed.

(** X15.  On a list of defined numbers that is not empty, the values of
  [softmax] are defined, as many as the numbers, all positive, and they sum
  to one (with the backend's own sum).  On the empty list it is empty. *)
Theorem softmax_weights (zs : list R) :
  (zs <> [] ->
   exists ws : list R,
     softmax (map Some zs) = map Some ws /\
     length ws = length zs /\
     Forall (fun w => 0 < w) ws /\
     Scalar.sum (softmax (map Some zs)) = Scalar.const 1) /\
  softmax [] = [].
Proof.
  split; [ | reflexivity].
  intros Hz. destruct (softmax_Some zs Hz) as [Hs E].
  set (s := fold_left Rplus (map exp zs) 0) in *.
  exists (map (fun z => exp z / s) zs). split; [exact E | ].
  split; [apply length_map | ]. split.
  - apply Forall_forall. intros w Hw. apply in_map_iff in Hw.
    destruct Hw as [z [<- _]]. apply Rdiv_lt_0_compat; [apply exp_pos | exact Hs].
  - rewrite E. unfold Scalar.sum, Scalar.const. rewrite sum_Some. f_equal.
    replace (map (fun z => exp z / s) zs)
      with (map (fun e => e / s) (map exp zs)) by (rewrite map_map; reflexivity).
    replace 0 with (0 / s) at 1 by (unfold Rdiv; ring).
    rewrite fold_plus_div. fold s. field. lra.
Qed.

Lemma softmax_weights_witness :
  [1; 2; 3] <> [] /\
  exists ws : list R,
    softmax (map Some [1; 2; 3]) = map Some ws /\
    length ws = length [1; 2; 3] /\
    Forall (fun w => 0 < w) ws /\
    Scalar.sum (softmax (map Some [1; 2; 3])) = Scalar.const 1.
Proof.
  assert (H : [1; 2; 3] <> []) by discriminate.
  split; [exact H | ].
  exact (proj1 (softmax_weights [1; 2; 3]) H).
Defined.

(** * Further properties of the interpreter *)

(** ** Parameterized points *)

Lemma lookup_two (a b : string) (A B : Point) (o : Optimizer) :
  dict_get (name2pt o) a = Some A ->
  dict_get (name2pt o) b = Some B ->
  lookup_pts [a; b] o = (Ok [A; B], o).
Proof.
  intros Ha Hb. rewrite !lookup_pts_cons, Ha, Hb. reflexivity.
Qed.

Lemma sigmoid_Some (z : R) :
  Scalar.sigmoid (Some z) = Some (1 / (1 + exp (- z))).
Proof. reflexivity. Qed.

Lemma sigmoid_bounds (z : R) : 0 < 1 / (1 + exp (- z)) < 1.
Proof.
  pose proof (exp_pos (- z)) as H. split.
  - apply Rdiv_lt_0_compat; lra.
  - apply Rmult_lt_reg_r with (1 + exp (- z)); [lra | ].
    replace (1 / (1 + exp (- z)) * (1 + exp (- z))) with 1 by (field; lra).
    lra.
Qed.

Lemma along_RPt (ax ay bx by_ k : R) :
  (RPt ax ay + Point.smul (RPt bx by_ - RPt ax ay) (Some k))%P
  = RPt (ax + k * (bx - ax)) (ay + k * (by_ - ay)).
Proof.
  unfold RPt, Scalar.const, Point.smul, Point.add, Point.sub. sc.
  f_equal; f_equal; ring.
Qed.

Lemma register_pt_after_loss (p key : string) (P : Point) (v : scalar * R)
    (o : Optimizer) :
  dict_get (name2pt o) p = None ->
  register_pt p P (set_losses (dict_set (losses o) key v) o)
  = (Ok tt, set_name2pt (name2pt o ++ [(p, P)])
              (set_losses (dict_set (losses o) key v) o)).
Proof.
  intros H. exact (register_pt_fresh p P (set_losses (dict_set (losses o) key v) o) H).
Qed.

(** X16.  A point parameterized with [onSeg] on two registered points [A] and
  [B], under a name that is free, is registered at [A + t (B - A)] for some
  [t] strictly between 0 and 1 (the sigmoid of a fifth of the free
  variable); the fifth of the variable becomes a regularization loss of
  weight 1e-4, and the segment [(A, B)] is recorded. *)
Theorem parameterize_on_seg_inside
    (mkvar : string -> R -> R -> scalar)
    (p a b : string) (ax ay bx by_ z : R) (o : Optimizer) :
  dict_get (name2pt o) a = Some (RPt ax ay) ->
  dict_get (name2pt o) b = Some (RPt bx by_) ->
  dict_get (name2pt o) p = None ->
  mkvar (p ++ "_seg")%string (-1.0) 1.0 = Some z ->
  exists t : R,
    0 < t < 1 /\
    parameterize mkvar p "onSeg" [ArgPoints [a; b]] o
    = (Ok tt,
       set_segments (segments o ++ [(RPt ax ay, RPt bx by_)])
         (set_name2pt
            (name2pt o ++ [(p, RPt (ax + t * (bx - ax)) (ay + t * (by_ - ay)))])
            (set_losses
               (dict_set (losses o) (p ++ "_seg_regularization")%string
                         (Some (0.2 * z), 1e-4)) o))).
Proof.
  intros Ha Hb Hp Hz.
  exists (1 / (1 + exp (- (0.2 * z)))). split; [apply sigmoid_bounds | ].
  unfold parameterize. cbn [String.eqb Ascii.eqb Bool.eqb].
  unfold c_arg, getitem. cbn [Nat.sub nth_error]. unfold bind at 1, ret at 1.
  unfold parameterize_on_seg. cbn [as_points]. unfold bind at 1, ret at 1.
  unfold bind at 1. rewrite (lookup_two a b _ _ o Ha Hb).
  cbn [unpack2]. unfold bind at 1, ret at 1.
  rewrite Hz. unfold bind at 1. unfold register_loss at 1, modify at 1.
  unfold bind at 1. rewrite register_pt_after_loss by exact Hp.
  unfold segments_append, segments_extend, modify.
  cbn [segments set_name2pt set_losses set_segments name2pt losses].
  do 6 f_equal. exact (along_RPt ax ay bx by_ _).
Qed.

Lemma parameterize_on_seg_inside_witness :
  (dict_get (name2pt three_on_a_line) "A" = Some (RPt 0 0) /\
   dict_get (name2pt three_on_a_line) "B" = Some (RPt 1 1) /\
   dict_get (name2pt three_on_a_line) "X" = None /\
   (fun _ _ _ => Some 0) ("X" ++ "_seg")%string (-1.0) 1.0 = Some 0) /\
  exists t : R,
    0 < t < 1 /\
    parameterize (fun _ _ _ => Some 0) "X" "onSeg" [ArgPoints ["A"; "B"]]
                 three_on_a_line
    = (Ok tt,
       set_segments (segments three_on_a_line ++ [(RPt 0 0, RPt 1 1)])
         (set_name2pt
            (name2pt three_on_a_line
             ++ [("X", RPt (0 + t * (1 - 0)) (0 + t * (1 - 0)))])
            (set_losses
               (dict_set (losses three_on_a_line) ("X" ++ "_seg_regularization")%string
                         (Some (0.2 * 0), 1e-4)) three_on_a_line))).
Proof.
  split; [repeat split | ].
  exact (parameterize_on_seg_inside (fun _ _ _ => Some 0) "X" "A" "B" 0 0 1 1 0
           three_on_a_line eq_refl eq_refl eq_refl eq_refl).
Defined.

(** X17.  A point parameterized with [onRay] on registered [A], [B] is at
  [A + k (B - A)] with [k] positive, so on the side of [B]; with
  [onRayOpp] it is at [A - k (B - A)], on the other side.  Both record the
  segments [(A, B)] and [(A, P)]. *)
Theorem parameterize_on_ray_sides
    (mkvar : string -> R -> R -> scalar)
    (p a b : string) (ax ay bx by_ z : R) (o : Optimizer) :
  let A := RPt ax ay in
  let B := RPt bx by_ in
  dict_get (name2pt o) a = Some A ->
  dict_get (name2pt o) b = Some B ->
  dict_get (name2pt o) p = None ->
  (mkvar (p ++ "_ray")%string (-1.0) 1.0 = Some z ->
   exists k : R,
     0 < k /\
     let P := RPt (ax + k * (bx - ax)) (ay + k * (by_ - ay)) in
     parameterize mkvar p "onRay" [ArgPoints [a; b]] o
     = (Ok tt, set_segments (segments o ++ [(A, B); (A, P)])
                 (set_name2pt (name2pt o ++ [(p, P)]) o))) /\
  (mkvar (p ++ "_ray_opp")%string (-1.0) 1.0 = Some z ->
   exists k : R,
     0 < k /\
     let P := RPt (ax - k * (bx - ax)) (ay - k * (by_ - ay)) in
     parameterize mkvar p "onRayOpp" [ArgPoints [a; b]] o
     = (Ok tt, set_segments (segments o ++ [(A, B); (A, P)])
                 (set_name2pt (name2pt o ++ [(p, P)]) o))).
Proof.
  cbv zeta. intros Ha Hb Hp. split; intros Hz.
  - exists (exp z). split; [apply exp_pos | ].
    unfold parameterize. cbn [String.eqb Ascii.eqb Bool.eqb].
    unfold c_arg, getitem. cbn [Nat.sub nth_error]. unfold bind at 1, ret at 1.
    unfold parameterize_on_ray. cbn [as_points]. unfold bind at 1, ret at 1.
    unfold bind at 1. rewrite (lookup_two a b _ _ o Ha Hb).
    cbn [unpack2]. unfold bind at 1, ret at 1.
    rewrite Hz. unfold bind at 1. rewrite register_pt_fresh by exact Hp.
    unfold segments_extend, modify.
    cbn [segments set_name2pt set_segments name2pt].
    change (Scalar.exp (Some z)) with (Some (exp z)).
    rewrite along_RPt. reflexivity.
  - exists (exp z). split; [apply exp_pos | ].
    unfold parameterize. cbn [String.eqb Ascii.eqb Bool.eqb].
    unfold c_arg, getitem. cbn [Nat.sub nth_error]. unfold bind at 1, ret at 1.
    unfold parameterize_on_ray_opp. cbn [as_points]. unfold bind at 1, ret at 1.
    unfold bind at 1. rewrite (lookup_two a b _ _ o Ha Hb).
    cbn [unpack2]. unfold bind at 1, ret at 1.
    rewrite Hz. unfold bind at 1. rewrite register_pt_fresh by exact Hp.
    unfold segments_extend, modify.
    cbn [segments set_name2pt set_segments name2pt].
    change (Scalar.exp (Some z)) with (Some (exp z)).
    assert (E : (RPt ax ay + Point.smul (RPt ax ay - RPt bx by_) (Some (exp z)))%P
                = RPt (ax - exp z * (bx - ax)) (ay - exp z * (by_ - ay))).
    { unfold RPt, Scalar.const, Point.smul, Point.add, Point.sub. sc.
      f_equal; f_equal; ring. }
    rewrite E. reflexivity.
Qed.

Lemma parameterize_on_ray_sides_witness :
  (dict_get (name2pt three_on_a_line) "A" = Some (RPt 0 0) /\
   dict_get (name2pt three_on_a_line) "B" = Some (RPt 1 1) /\
   dict_get (name2pt three_on_a_line) "X" = None /\
   (fun _ _ _ => Some 0) ("X" ++ "_ray")%string (-1.0) 1.0 = Some 0) /\
  exists k : R,
    0 < k /\
    parameterize (fun _ _ _ => Some 0) "X" "onRay" [ArgPoints ["A"; "B"]]
                 three_on_a_line
    = (Ok tt,
       set_segments
         (segments three_on_a_line
          ++ [(RPt 0 0, RPt 1 1);
              (RPt 0 0, RPt (0 + k * (1 - 0)) (0 + k * (1 - 0)))])
         (set_name2pt
            (name2pt three_on_a_line
             ++ [("X", RPt (0 + k * (1 - 0)) (0 + k * (1 - 0)))])
            three_on_a_line)).
Proof.
  split; [repeat split | ].
  exact (proj1 (parameterize_on_ray_sides (fun _ _ _ => Some 0) "X" "A" "B"
                  0 0 1 1 0 three_on_a_line eq_refl eq_refl eq_refl) eq_refl).
Defined.

(** X18.  A point parameterized with [onLine] on the line connecting registered
  [A] and [B] is at [A + k (B - A)] with [k] strictly between -3 and 4: on
  the line, within three lengths of the segment on either side. *)
Theorem parameterize_on_line_span
    (mkvar : string -> R -> R -> scalar)
    (p a b : string) (ax ay bx by_ z : R) (o : Optimizer) :
  let A := RPt ax ay in
  let B := RPt bx by_ in
  dict_get (name2pt o) a = Some A ->
  dict_get (name2pt o) b = Some B ->
  dict_get (name2pt o) p = None ->
  mkvar (p ++ "_line")%string (-1.0) 1.0 = Some z ->
  exists k : R,
    -3 < k < 4 /\
    let P := RPt (ax + k * (bx - ax)) (ay + k * (by_ - ay)) in
    coll_phi A B P = Scalar.const 0 /\
    parameterize mkvar p "onLine" [ArgLine (mkLine "connecting" [a; b])] o
    = (Ok tt,
       set_segments (segments o ++ [(A, B)])
         (set_name2pt (name2pt o ++ [(p, P)])
            (set_losses
               (dict_set (losses o) (p ++ "_line_regularization")%string
                         (Some (0.2 * z), 1e-4)) o))).
Proof.
  cbv zeta. intros Ha Hb Hp Hz.
  pose proof (sigmoid_bounds (0.2 * z)) as Hs.
  exists (7 * (1 / (1 + exp (- (0.2 * z)))) - 3). split; [lra | ].
  split.
  { rewrite coll_phi_RPt. unfold Scalar.const. f_equal. ring. }
  unfold parameterize. cbn [String.eqb Ascii.eqb Bool.eqb].
  unfold c_arg, getitem. cbn [Nat.sub nth_error]. unfold bind at 1, ret at 1.
  unfold parameterize_on_line. cbn [as_line]. unfold bind at 1, ret at 1.
  unfold line2twoPts. cbn [line_pred line_points String.eqb Ascii.eqb Bool.eqb].
  unfold bind at 1. rewrite (lookup_two a b _ _ o Ha Hb).
  cbn [unpack2]. unfold bind at 1, ret at 1.
  rewrite Hz. unfold bind at 1. unfold register_loss at 1, modify at 1.
  unfold bind at 1. rewrite register_pt_after_loss by exact Hp.
  unfold segments_append, segments_extend, modify.
  cbn [segments set_name2pt set_losses set_segments name2pt losses].
  do 6 f_equal.
  change (Scalar.sigmoid (#0.2 * Some z)%S)
    with (Some (1 / (1 + exp (- (0.2 * z))))).
  set (t := 1 / (1 + exp (- (0.2 * z)))). clearbody t.
  unfold RPt, Scalar.const, Point.smul, Point.add, Point.sub. sc.
  assert (E3 : 3.0 = 3) by lra. rewrite E3.
  f_equal; f_equal; ring.
Qed.

Lemma parameterize_on_line_span_witness :
  (dict_get (name2pt three_on_a_line) "A" = Some (RPt 0 0) /\
   dict_get (name2pt three_on_a_line) "B" = Some (RPt 1 1) /\
   dict_get (name2pt three_on_a_line) "X" = None /\
   (fun _ _ _ => Some 0) ("X" ++ "_line")%string (-1.0) 1.0 = Some 0) /\
  exists k : R,
    -3 < k < 4 /\
    coll_phi (RPt 0 0) (RPt 1 1) (RPt (0 + k * (1 - 0)) (0 + k * (1 - 0)))
    = Scalar.const 0 /\
    parameterize (fun _ _ _ => Some 0) "X" "onLine"
                 [ArgLine (mkLine "connecting" ["A"; "B"])] three_on_a_line
    = (Ok tt,
       set_segments (segments three_on_a_line ++ [(RPt 0 0, RPt 1 1)])
         (set_name2pt
            (name2pt three_on_a_line
             ++ [("X", RPt (0 + k * (1 - 0)) (0 + k * (1 - 0)))])
            (set_losses
               (dict_set (losses three_on_a_line)
                         ("X" ++ "_line_regularization")%string
                         (Some (0.2 * 0), 1e-4)) three_on_a_line))).
Proof.
  split; [repeat split | ].
  exact (parameterize_on_line_span (fun _ _ _ => Some 0) "X" "A" "B" 0 0 1 1 0
           three_on_a_line eq_refl eq_refl eq_refl eq_refl).
Defined.

(** X19.  A point parameterized with [onCirc] on the circle of centre [O]
  through [A] (both registered) is registered at the same distance from [O]
  as [A], and the circle is recorded. *)
Theorem parameterize_on_circ_on_circle
    (mkvar : string -> R -> R -> scalar)
    (p c a : string) (ox oy ax ay z : R) (o : Optimizer) :
  let O' := RPt ox oy in
  let A := RPt ax ay in
  dict_get (name2pt o) c = Some O' ->
  dict_get (name2pt o) a = Some A ->
  dict_get (name2pt o) p = None ->
  mkvar (p ++ "_rot")%string (-1.0) 1.0 = Some z ->
  exists u v : R,
    dist O' (RPt u v) = dist O' A /\
    parameterize mkvar p "onCirc" [ArgCircle (mkCircle "coa" [c; a])] o
    = (Ok tt,
       set_circles (circles o ++ [(O', dist O' A)])
         (set_name2pt (name2pt o ++ [(p, RPt u v)]) o)).
Proof.
  cbv zeta. intros Hc Ha Hp Hz.
  set (r := sqrt ((ox - ax) ^ 2 + (oy - ay) ^ 2)).
  set (th := z * 2 * PI).
  exists (ox + r * cos th), (oy + r * sin th). split.
  - rewrite !dist_RPt. unfold Scalar.const. f_equal. fold r.
    replace ((ox - (ox + r * cos th)) ^ 2 + (oy - (oy + r * sin th)) ^ 2)
      with (r ^ 2 * (sin th * sin th + cos th * cos th)) by ring.
    pose proof (sin2_cos2 th) as E. unfold Rsqr in E. rewrite E.
    replace (r ^ 2 * 1) with (r * r) by ring.
    apply sqrt_square. apply sqrt_pos.
  - unfold parameterize. cbn [String.eqb Ascii.eqb Bool.eqb].
    unfold c_arg, getitem. cbn [Nat.sub nth_error]. unfold bind at 1, ret at 1.
    unfold parameterize_on_circ. cbn [as_circle]. unfold bind at 1, ret at 1.
    unfold circ2nf. cbn [circ_pred circ_points String.eqb Ascii.eqb Bool.eqb].
    unfold bind at 1. unfold bind at 1. rewrite (lookup_two c a _ _ o Hc Ha).
    cbn [unpack2]. unfold bind at 1, ret at 1. unfold ret at 1.
    cbn [center radius]. rewrite Hz, dist_RPt.
    unfold bind at 1. rewrite register_pt_fresh by exact Hp.
    unfold circles_append, modify.
    cbn [circles set_name2pt set_circles name2pt].
    reflexivity.
Qed.

Lemma parameterize_on_circ_on_circle_witness :
  (dict_get (name2pt three_on_a_line) "A" = Some (RPt 0 0) /\
   dict_get (name2pt three_on_a_line) "B" = Some (RPt 1 1) /\
   dict_get (name2pt three_on_a_line) "X" = None /\
   (fun _ _ _ => Some 0) ("X" ++ "_rot")%string (-1.0) 1.0 = Some 0) /\
  exists u v : R,
    dist (RPt 0 0) (RPt u v) = dist (RPt 0 0) (RPt 1 1) /\
    parameterize (fun _ _ _ => Some 0) "X" "onCirc"
                 [ArgCircle (mkCircle "coa" ["A"; "B"])] three_on_a_line
    = (Ok tt,
       set_circles (circles three_on_a_line
                    ++ [(RPt 0 0, dist (RPt 0 0) (RPt 1 1))])
         (set_name2pt (name2pt three_on_a_line ++ [("X", RPt u v)])
                      three_on_a_line)).
Proof.
  split; [repeat split | ].
  exact (parameterize_on_circ_on_circle (fun _ _ _ => Some 0) "X" "A" "B"
           0 0 1 1 0 three_on_a_line eq_refl eq_refl eq_refl eq_refl).
Defined.

Lemma lookup_pts_Forall2 (ns : list string) (qs : list (R * R)) (o : Optimizer) :
  Forall2 (fun n q => dict_get (name2pt o) n = Some (pt q)) ns qs ->
  lookup_pts ns o = (Ok (map pt qs), o).
Proof.
  induction 1 as [ | n q ns qs Hn _ IH]; [reflexivity | ].
  rewrite lookup_pts_cons, Hn, IH. reflexivity.
Qed.

Lemma weighted_sum_x (qs : list (R * R)) (ws : list R) (a : R) :
  fold_left Scalar.add
    (map (fun '(P, w) => (Point.x P * w)%S) (combine (map pt qs) (map Some ws)))
    (Some a)
  = Some (fold_left Rplus
            (map (fun '(v, w) => v * w) (combine (map fst qs) ws)) a).
Proof.
  revert ws a. induction qs as [ | q qs IH]; intros ws a; [reflexivity | ].
  destruct ws as [ | w ws]; [reflexivity | ].
  cbn [map combine fold_left]. apply IH.
Qed.

Lemma weighted_sum_y (qs : list (R * R)) (ws : list R) (a : R) :
  fold_left Scalar.add
    (map (fun '(P, w) => (Point.y P * w)%S) (combine (map pt qs) (map Some ws)))
    (Some a)
  = Some (fold_left Rplus
            (map (fun '(v, w) => v * w) (combine (map snd qs) ws)) a).
Proof.
  revert ws a. induction qs as [ | q qs IH]; intros ws a; [reflexivity | ].
  destruct ws as [ | w ws]; [reflexivity | ].
  cbn [map combine fold_left]. apply IH.
Qed.

(** X20.  A point parameterized with [inPoly] on registered points, at least one,
  is registered at a convex combination of them: the weights are positive,
  one for each point, and sum to one. *)
Theorem parameterize_in_poly_convex
    (mkvar : string -> R -> R -> scalar) (zf : string -> R)
    (p : string) (ns : list string) (qs : list (R * R)) (o : Optimizer) :
  ns <> [] ->
  Forall2 (fun n q => dict_get (name2pt o) n = Some (pt q)) ns qs ->
  (forall n, In n ns ->
             mkvar (p ++ "_in_poly_" ++ n)%string (-1.0) 1.0 = Some (zf n)) ->
  dict_get (name2pt o) p = None ->
  exists ws : list R,
    length ws = length qs /\
    Forall (fun w => 0 < w) ws /\
    fold_left Rplus ws 0 = 1 /\
    parameterize mkvar p "inPoly" [ArgPoints ns] o
    = (Ok tt,
       set_name2pt
         (name2pt o ++ [(p, RPt (weighted_sum (map fst qs) ws)
                                (weighted_sum (map snd qs) ws))]) o).
Proof.
  intros Hns Hq Hz Hp.
  assert (Hzs : map zf ns <> []) by (destruct ns; [congruence | discriminate]).
  destruct (softmax_Some (map zf ns) Hzs) as [Hs E].
  set (s := fold_left Rplus (map exp (map zf ns)) 0) in *.
  exists (map (fun z => exp z / s) (map zf ns)).
  split; [ | split; [ | split]].
  - rewrite !length_map. apply (Forall2_length Hq).
  - apply Forall_forall. intros w Hw. apply in_map_iff in Hw.
    destruct Hw as [z [<- _]]. apply Rdiv_lt_0_compat; [apply exp_pos | exact Hs].
  - replace (map (fun z => exp z / s) (map zf ns))
      with (map (fun e => e / s) (map exp (map zf ns)))
      by (rewrite !map_map; reflexivity).
    replace 0 with (0 / s) at 1 by (unfold Rdiv; ring).
    rewrite fold_plus_div. fold s. field. lra.
  - unfold parameterize. cbn [String.eqb Ascii.eqb Bool.eqb].
    unfold c_arg, getitem. cbn [Nat.sub nth_error]. unfold bind at 1, ret at 1.
    unfold parameterize_in_poly. cbn [as_points]. unfold bind at 1, ret at 1.
    unfold bind at 1. rewrite (lookup_pts_Forall2 ns qs o Hq).
    assert (Ez : map (fun poly_p => mkvar (p ++ "_in_poly_" ++ poly_p)%string
                                          (-1.0) 1.0) ns
                 = map Some (map zf ns)).
    { rewrite map_map. apply map_ext_in. exact Hz. }
    rewrite Ez, E. unfold Scalar.sum, Scalar.const.
    rewrite weighted_sum_x, weighted_sum_y.
    rewrite register_pt_fresh by exact Hp. reflexivity.
Qed.

Lemma parameterize_in_poly_convex_witness :
  (["A"; "B"; "C"] <> [] /\
   Forall2 (fun n q => dict_get (name2pt three_on_a_line) n = Some (pt q))
           ["A"; "B"; "C"] [(0, 0); (1, 1); (2, 2)] /\
   (forall n, In n ["A"; "B"; "C"] ->
              (fun _ _ _ => Some 0) ("X" ++ "_in_poly_" ++ n)%string (-1.0) 1.0
              = Some ((fun _ => 0) n)) /\
   dict_get (name2pt three_on_a_line) "X" = None) /\
  exists ws : list R,
    length ws = length [(0, 0); (1, 1); (2, 2)] /\
    Forall (fun w => 0 < w) ws /\
    fold_left Rplus ws 0 = 1 /\
    parameterize (fun _ _ _ => Some 0) "X" "inPoly" [ArgPoints ["A"; "B"; "C"]]
                 three_on_a_line
    = (Ok tt,
       set_name2pt
         (name2pt three_on_a_line
          ++ [("X", RPt (weighted_sum (map fst [(0, 0); (1, 1); (2, 2)]) ws)
                        (weighted_sum (map snd [(0, 0); (1, 1); (2, 2)]) ws))])
         three_on_a_line).
Proof.
  assert (H1 : ["A"; "B"; "C"] <> []) by discriminate.
  assert (H2 : Forall2 (fun n q => dict_get (name2pt three_on_a_line) n
                                   = Some (pt q))
                       ["A"; "B"; "C"] [(0, 0); (1, 1); (2, 2)]).
  { repeat constructor. }
  assert (H3 : forall n, In n ["A"; "B"; "C"] ->
                         (fun _ _ _ => Some 0) ("X" ++ "_in_poly_" ++ n)%string
                                               (-1.0) 1.0
                         = Some ((fun _ : string => 0) n)).
  { intros n _. reflexivity. }
  assert (H4 : dict_get (name2pt three_on_a_line) "X" = None) by reflexivity.
  split; [repeat split; assumption | ].
  exact (parameterize_in_poly_convex (fun _ _ _ => Some 0) (fun _ => 0) "X"
           ["A"; "B"; "C"] [(0, 0); (1, 1); (2, 2)] three_on_a_line H1 H2 H3 H4).
Defined.

(** ** Registering the residuals of a constraint *)

Lemma to_uint_nonnil (n : nat) : Nat.to_uint n <> Decimal.Nil.
Proof.
  intros E. pose proof (DecimalNat.Unsigned.of_to n) as H. rewrite E in H.
  cbn in H. subst n. discriminate E.
Qed.

Lemma str_nat_inj (i j : nat) : str_nat i = str_nat j -> i = j.
Proof.
  unfold str_nat. intros E.
  apply (f_equal DecimalString.NilZero.uint_of_string) in E.
  rewrite !DecimalString.NilZero.usu in E by apply to_uint_nonnil.
  injection E as E. apply DecimalNat.Unsigned.to_uint_inj. exact E.
Qed.

Lemma append_inj (a s1 s2 : string) : (a ++ s1 = a ++ s2)%string -> s1 = s2.
Proof.
  induction a as [ | c a IH]; cbn [String.append]; intros E; [exact E | ].
  injection E as E. apply IH. exact E.
Qed.

Lemma NoDup_map_inj {A B : Type} (f : A -> B) (l : list A) :
  (forall a b, f a = f b -> a = b) -> NoDup l -> NoDup (map f l).
Proof.
  intros Hf. induction 1 as [ | a l Ha _ IH]; cbn [map]; constructor;
    [ | exact IH].
  intros Hin. apply in_map_iff in Hin. destruct Hin as [b [E Hb]].
  apply Hf in E. subst b. contradiction.
Qed.

Lemma val_label_NoDup (a_str : string) (n : nat) :
  NoDup (map (val_label a_str n) (seq 0 n)).
Proof.
  destruct (Nat.eq_dec n 1) as [-> | Hn].
  - cbn. constructor; [intros [] | constructor].
  - apply NoDup_map_inj; [ | apply seq_NoDup].
    intros i j. unfold val_label.
    destruct (Nat.eqb_spec n 1) as [E1 | _]; [contradiction | ].
    intros E. apply append_inj in E. apply append_inj in E.
    apply str_nat_inj. exact E.
Qed.

Lemma dict_get_set_same {V : Type} (d : list (string * V)) (k : string) (v : V) :
  dict_get (dict_set d k v) k = Some v.
Proof.
  induction d as [ | [k' w] d IH]; cbn [dict_set dict_get].
  - rewrite String.eqb_refl. reflexivity.
  - destruct (String.eqb k' k) eqn:E; cbn [dict_get]; rewrite E;
      [reflexivity | exact IH].
Qed.

Lemma dict_get_set_other {V : Type} (d : list (string * V)) (k k' : string)
    (v : V) :
  k <> k' -> dict_get (dict_set d k v) k' = dict_get d k'.
Proof.
  intros Hk. induction d as [ | [k0 w] d IH]; cbn [dict_set dict_get].
  - destruct (String.eqb_spec k k'); [contradiction | reflexivity].
  - destruct (String.eqb_spec k0 k) as [-> | N]; cbn [dict_get].
    + destruct (String.eqb_spec k k'); [contradiction | reflexivity].
    + destruct (String.eqb k0 k'); [reflexivity | exact IH].
Qed.

(** Writing a list of entries into a dict, in order. *)
Lemma dict_set_all_other {V : Type} (items : list (string * V))
    (d : list (string * V)) (k : string) :
  ~ In k (map fst items) ->
  dict_get (fold_left (fun d kv => dict_set d (fst kv) (snd kv)) items d) k
  = dict_get d k.
Proof.
  revert d. induction items as [ | [k0 v0] items IH]; intros d H; [reflexivity | ].
  cbn [fold_left fst snd]. rewrite IH by (intros Hin; apply H; right; exact Hin).
  apply dict_get_set_other. intros ->. apply H. left. reflexivity.
Qed.

Lemma dict_set_all_in {V : Type} (items : list (string * V))
    (d : list (string * V)) (k : string) (v : V) :
  NoDup (map fst items) -> In (k, v) items ->
  dict_get (fold_left (fun d kv => dict_set d (fst kv) (snd kv)) items d) k
  = Some v.
Proof.
  revert d. induction items as [ | [k0 v0] items IH]; intros d Hnd Hin;
    [contradiction | ].
  cbn [map fst] in Hnd. inversion Hnd as [ | ? ? Hk0 Hnd']; subst.
  cbn [fold_left fst snd]. destruct Hin as [E | Hin].
  - injection E as -> ->. rewrite dict_set_all_other by exact Hk0.
    apply dict_get_set_same.
  - apply IH; assumption.
Qed.

Lemma register_loss_loop (a_str : string) (weight : R) (n : nat)
    (ivs : list (nat * scalar)) (o : Optimizer) :
  forM_ ivs (fun '(i, val) => register_loss (val_label a_str n i) val weight) o
  = (Ok tt,
     set_losses (fold_left (fun d kv => dict_set d (fst kv) (snd kv))
                           (residual_entries a_str weight n ivs) (losses o)) o).
Proof.
  revert o. induction ivs as [ | [i val] ivs IH]; intros o.
  - cbn [forM_ residual_entries map fold_left]. destruct o; reflexivity.
  - cbn [forM_]. unfold bind at 1. unfold register_loss at 1, modify at 1.
    rewrite IH. destruct o; reflexivity.
Qed.

Lemma register_ndg_loop (a_str : string) (weight : R) (n : nat)
    (ivs : list (nat * scalar)) (o : Optimizer) :
  forM_ ivs (fun '(i, val) => register_ndg (val_label a_str n i) val weight) o
  = (Ok tt,
     set_ndgs (fold_left (fun d kv => dict_set d (fst kv) (snd kv))
                         (residual_entries a_str weight n ivs) (ndgs o)) o).
Proof.
  revert o. induction ivs as [ | [i val] ivs IH]; intros o.
  - cbn [forM_ residual_entries map fold_left]. destruct o; reflexivity.
  - cbn [forM_]. unfold bind at 1. unfold register_ndg at 1, modify at 1.
    rewrite IH. destruct o; reflexivity.
Qed.

Lemma enumerate_nth {A : Type} (l : list A) (i : nat) (a : A) :
  nth_error l i = Some a -> In (i, a) (enumerate l).
Proof.
  unfold enumerate. intros H.
  assert (G : forall (s : nat) (l : list A) (i : nat),
             nth_error l i = Some a -> In ((s + i)%nat, a) (combine (seq s (length l)) l)).
  { clear. intros s l. revert s. induction l as [ | b l IH]; intros s i H.
    - destruct i; discriminate H.
    - destruct i as [ | i]; cbn [nth_error] in H; cbn [length seq combine].
      + injection H as ->. left. rewrite Nat.add_0_r. reflexivity.
      + right. replace (s + S i)%nat with (S s + i)%nat by lia.
        apply IH. exact H. }
  exact (G 0%nat l i H).
Qed.

Lemma residual_entries_keys (a_str : string) (weight : R) (vals : list scalar) :
  map fst (residual_entries a_str weight (length vals) (enumerate vals))
  = map (val_label a_str (length vals)) (seq 0 (length vals)).
Proof.
  unfold residual_entries, enumerate. rewrite map_map.
  assert (G : forall (s : nat) (l : list scalar) (f : nat -> string),
             map (fun x : nat * scalar => fst (let '(i, val) := x in (f i, (val, weight))))
                 (combine (seq s (length l)) l)
             = map f (seq s (length l))).
  { clear. intros s l f. revert s. induction l as [ | b l IH]; intros s;
      [reflexivity | ].
    cbn [length seq combine map fst]. f_equal. apply IH. }
  apply G.
Qed.

Lemma inv_len_nonempty {A : Type} (vals : list A) (o : Optimizer) :
  vals <> [] -> inv_len vals o = (Ok (1 / INR (length vals)), o).
Proof. destruct vals; [congruence | reflexivity]. Qed.

(** X21.  When the residuals of a constraint can be computed and there is at
  least one, [add] succeeds and each residual is a loss under its own
  label, with the weight one over the number of residuals; the labels
  differ, so no residual overwrites another.  [addNDG] does the same in its
  own registry, with [not_] before the label.  Neither changes anything
  else of what computing the residuals left. *)
Theorem add_registers_residuals (pred : string) (ps : list string)
    (vals : list scalar) (o o1 : Optimizer) :
  assertion_vals pred ps o = (Ok vals, o1) ->
  vals <> [] ->
  let n := length vals in
  let a_str := (pred ++ "_" ++ join "_" ps)%string in
  (exists o2,
      add (mkConstraint pred ps false) o = (Ok tt, o2) /\
      (forall i v, nth_error vals i = Some v ->
                   dict_get (losses o2) (val_label a_str n i)
                   = Some (v, 1 / INR n)) /\
      (exists d, o2 = set_losses d o1)) /\
  (exists o2,
      addNDG (mkConstraint pred ps false) o = (Ok tt, o2) /\
      (forall i v, nth_error vals i = Some v ->
                   dict_get (ndgs o2) (val_label ("not_" ++ a_str)%string n i)
                   = Some (v, 1 / INR n)) /\
      (exists d, o2 = set_ndgs d o1)).
Proof.
  intros Hv Hne n a_str. subst n a_str. split.
  - unfold add. cbn [cons_pred cons_points cons_negate].
    unfold bind at 1. rewrite Hv.
    unfold bind at 1. rewrite inv_len_nonempty by exact Hne.
    rewrite register_loss_loop. eexists. split; [reflexivity | ].
    split; [ | eexists; reflexivity].
    intros i v Hi. cbn [losses set_losses].
    apply dict_set_all_in.
    + rewrite residual_entries_keys. apply val_label_NoDup.
    + unfold residual_entries.
      apply (in_map (fun '(i, val) => (val_label (pred ++ "_" ++ join "_" ps)%string (length vals) i,
                                       (val, 1 / INR (length vals))))
                    (enumerate vals) (i, v)).
      apply enumerate_nth. exact Hi.
  - unfold addNDG. cbn [cons_pred cons_points cons_negate].
    unfold bind at 1. rewrite Hv.
    unfold bind at 1. rewrite inv_len_nonempty by exact Hne.
    rewrite register_ndg_loop. eexists. split; [reflexivity | ].
    split; [ | eexists; reflexivity].
    intros i v Hi. cbn [ndgs set_ndgs].
    apply dict_set_all_in.
    + rewrite residual_entries_keys. apply val_label_NoDup.
    + unfold residual_entries.
      apply (in_map (fun '(i, val) =>
                       (val_label ("not_" ++ pred ++ "_" ++ join "_" ps)%string (length vals) i,
                        (val, 1 / INR (length vals))))
                    (enumerate vals) (i, v)).
      apply enumerate_nth. exact Hi.
Qed.

Lemma add_registers_residuals_witness :
  (assertion_vals "midp" ["B"; "A"; "C"] three_on_a_line
   = (Ok [dist (RPt 1 1) (midp (RPt 0 0) (RPt 2 2))], three_on_a_line) /\
   [dist (RPt 1 1) (midp (RPt 0 0) (RPt 2 2))] <> []) /\
  exists o2,
    add (mkConstraint "midp" ["B"; "A"; "C"] false) three_on_a_line = (Ok tt, o2) /\
    (forall i v,
        nth_error [dist (RPt 1 1) (midp (RPt 0 0) (RPt 2 2))] i = Some v ->
        dict_get (losses o2)
                 (val_label ("midp" ++ "_" ++ join "_" ["B"; "A"; "C"])%string
                            (length [dist (RPt 1 1) (midp (RPt 0 0) (RPt 2 2))]) i)
        = Some (v, 1 / INR (length [dist (RPt 1 1) (midp (RPt 0 0) (RPt 2 2))]))) /\
    (exists d, o2 = set_losses d three_on_a_line).
Proof.
  assert (H1 : assertion_vals "midp" ["B"; "A"; "C"] three_on_a_line
               = (Ok [dist (RPt 1 1) (midp (RPt 0 0) (RPt 2 2))], three_on_a_line))
    by reflexivity.
  assert (H2 : [dist (RPt 1 1) (midp (RPt 0 0) (RPt 2 2))] <> []) by discriminate.
  split; [split; assumption | ].
  exact (proj1 (add_registers_residuals "midp" ["B"; "A"; "C"] _ _ _ H1 H2)).
Defined.

Lemma assertion_vals_coll_two (a b : string) (A B : Point) (o : Optimizer) :
  dict_get (name2pt o) a = Some A ->
  dict_get (name2pt o) b = Some B ->
  assertion_vals "coll" [a; b] o
  = (Ok [], set_segments (segments o ++ [(A, B)]) o).
Proof.
  intros Ha Hb. unfold assertion_vals. cbn [String.eqb Ascii.eqb Bool.eqb].
  unfold bind at 1. rewrite (lookup_two a b A B o Ha Hb). reflexivity.
Qed.

(** X22.  What [add] does at its edges.  A negated constraint is refused with
  [RuntimeError] before anything is looked up.  The constraint [coll] on two
  registered points has no residual: [add] and [addNDG] raise
  [ZeroDivisionError] on the weight, after the segment of the two points was
  recorded, while [confirm] succeeds and registers no goal. *)
Theorem add_edge_cases :
  (forall (pred : string) (ps : list string) (o : Optimizer),
      add (mkConstraint pred ps true) o = (Raise RuntimeError, o)) /\
  (forall (a b : string) (A B : Point) (neg : bool) (o : Optimizer),
      dict_get (name2pt o) a = Some A ->
      dict_get (name2pt o) b = Some B ->
      let o1 := set_segments (segments o ++ [(A, B)]) o in
      add (mkConstraint "coll" [a; b] false) o = (Raise ZeroDivisionError, o1) /\
      addNDG (mkConstraint "coll" [a; b] neg) o = (Raise ZeroDivisionError, o1) /\
      confirm (mkConstraint "coll" [a; b] neg) o = (Ok tt, o1)).
Proof.
  split; [reflexivity | ].
  intros a b A B neg o Ha Hb o1.
  pose proof (assertion_vals_coll_two a b A B o Ha Hb) as E. fold o1 in E.
  split; [ | split].
  - unfold add. cbn [cons_pred cons_points cons_negate].
    unfold bind at 1. rewrite E. reflexivity.
  - unfold addNDG. cbn [cons_pred cons_points cons_negate].
    unfold bind at 1. rewrite E. reflexivity.
  - unfold confirm. cbn [cons_pred cons_points cons_negate].
    unfold bind at 1. rewrite E. reflexivity.
Qed.

Lemma add_edge_cases_witness :
  (dict_get (name2pt three_on_a_line) "A" = Some (RPt 0 0) /\
   dict_get (name2pt three_on_a_line) "B" = Some (RPt 1 1)) /\
  add (mkConstraint "coll" ["A"; "B"] false) three_on_a_line
  = (Raise ZeroDivisionError,
     set_segments (segments three_on_a_line ++ [(RPt 0 0, RPt 1 1)])
                  three_on_a_line).
Proof.
  split; [split; reflexivity | ].
  exact (proj1 (proj2 add_edge_cases "A" "B" (RPt 0 0) (RPt 1 1) false
                  three_on_a_line eq_refl eq_refl)).
Defined.

(** ** Two more identifiers that are not bound *)

Lemma assertion_vals_distLt (ps : list string) (o : Optimizer) :
  assertion_vals "distLt" ps o
  = match lookup_pts ps o with
    | (Ok [_; _; _; _], o') => (Raise (NameError "dist"), o')
    | (Ok _, o') => (Raise ValueError, o')
    | (Raise e, o') => (Raise e, o')
    end.
Proof.
  unfold assertion_vals. cbn [String.eqb Ascii.eqb Bool.eqb].
  unfold bind at 1.
  destruct (lookup_pts ps o) as [[Ps | e] o']; [ | reflexivity].
  do 5 (destruct Ps as [| ? Ps]; try reflexivity).
Qed.

Lemma assertion_vals_distLt_raises (ps : list string) (o : Optimizer) :
  exists e, assertion_vals "distLt" ps o = (Raise e, o).
Proof.
  rewrite assertion_vals_distLt.
  destruct (lookup_pts_cases ps o) as [[Ps E] | [e E]]; rewrite E; [ | eauto].
  do 5 (destruct Ps as [| ? Ps]; eauto).
Qed.

(** X23.  The predicate [distLt] calls [dist] without [self]: [assertion_vals]
  never returns its residual, and on four registered names the exception is
  the [NameError] for [dist].  So no constraint with [distLt] can be
  asserted, required as non-degeneracy or confirmed: each of [add],
  [addNDG] and [confirm] raises, and the object stays as it was. *)
Theorem distLt_unbound_dist :
  (forall ps o, exists e, assertion_vals "distLt" ps o = (Raise e, o)) /\
  (forall ps o,
      Forall (registered o) ps -> length ps = 4%nat ->
      assertion_vals "distLt" ps o = (Raise (NameError "dist"), o)) /\
  (forall ps neg o,
      (exists e, add (mkConstraint "distLt" ps neg) o = (Raise e, o)) /\
      (exists e, addNDG (mkConstraint "distLt" ps neg) o = (Raise e, o)) /\
      (exists e, confirm (mkConstraint "distLt" ps neg) o = (Raise e, o))).
Proof.
  split; [exact assertion_vals_distLt_raises | ]. split.
  - intros ps o Hreg Hlen. rewrite assertion_vals_distLt.
    destruct (lookup_pts_registered ps o Hreg) as [Ps [E L]]. rewrite E.
    rewrite Hlen in L.
    do 5 (destruct Ps as [| ? Ps]; try discriminate L). reflexivity.
  - intros ps neg o.
    destruct (assertion_vals_distLt_raises ps o) as [e E].
    split; [ | split].
    + unfold add. cbn [cons_pred cons_points cons_negate].
      destruct neg; [eexists; reflexivity | ].
      unfold bind at 1. rewrite E. eexists; reflexivity.
    + unfold addNDG. cbn [cons_pred cons_points cons_negate].
      unfold bind at 1. rewrite E. eexists; reflexivity.
    + unfold confirm. cbn [cons_pred cons_points cons_negate].
      unfold bind at 1. rewrite E. eexists; reflexivity.
Qed.

Lemma distLt_unbound_dist_witness :
  Forall (registered eight_points) ["A"; "B"; "C"; "D"] /\
  assertion_vals "distLt" ["A"; "B"; "C"; "D"] eight_points
  = (Raise (NameError "dist"), eight_points).
Proof.
  assert (H4 : Forall (registered eight_points) ["A"; "B"; "C"; "D"])
    by (repeat constructor; discriminate).
  split; [exact H4 | ].
  exact (proj1 (proj2 distLt_unbound_dist) _ _ H4 eq_refl).
Defined.

Lemma line2twoPts_eqoangle (ps : list string) (o : Optimizer) :
  line2twoPts (mkLine "eqoangle" ps) o
  = match lookup_pts ps o with
    | (Ok [_; _; _; _; _], o') => (Raise (NameError "A"), o')
    | (Ok _, o') => (Raise ValueError, o')
    | (Raise e, o') => (Raise e, o')
    end.
Proof.
  unfold line2twoPts. cbn [line_pred line_points String.eqb Ascii.eqb Bool.eqb].
  unfold bind at 1.
  destruct (lookup_pts ps o) as [[Ps | e] o']; [ | reflexivity].
  do 6 (destruct Ps as [| ? Ps]; try reflexivity).
Qed.

Lemma line2twoPts_eqoangle_raises (ps : list string) (o : Optimizer) :
  exists e, line2twoPts (mkLine "eqoangle" ps) o = (Raise e, o).
Proof.
  rewrite line2twoPts_eqoangle.
  destruct (lookup_pts_cases ps o) as [[Ps E] | [e E]]; rewrite E; [ | eauto].
  do 6 (destruct Ps as [| ? Ps]; eauto).
Qed.

(** X24.  A line given with [eqoangle] reads [A], [P], [Q] and [R], which are not
  names of [line2twoPts]: the function never returns, and on five registered
  names the exception is the [NameError] for [A], before any segment is
  recorded.  So its slope-intercept form cannot be taken either, and a point
  cannot be parameterized on such a line; the object stays as it was. *)
Theorem line2twoPts_eqoangle_unbound :
  (forall ps o, exists e, line2twoPts (mkLine "eqoangle" ps) o = (Raise e, o)) /\
  (forall ps o,
      Forall (registered o) ps -> length ps = 5%nat ->
      line2twoPts (mkLine "eqoangle" ps) o = (Raise (NameError "A"), o)) /\
  (forall ps o, exists e, line2sif (mkLine "eqoangle" ps) o = (Raise e, o)) /\
  (forall mkvar p ps rest o, exists e,
      parameterize mkvar p "onLine" (ArgLine (mkLine "eqoangle" ps) :: rest) o
      = (Raise e, o)).
Proof.
  split; [exact line2twoPts_eqoangle_raises | ]. split; [ | split].
  - intros ps o Hreg Hlen. rewrite line2twoPts_eqoangle.
    destruct (lookup_pts_registered ps o Hreg) as [Ps [E L]]. rewrite E.
    rewrite Hlen in L.
    do 6 (destruct Ps as [| ? Ps]; try discriminate L). reflexivity.
  - intros ps o. destruct (line2twoPts_eqoangle_raises ps o) as [e E].
    unfold line2sif. unfold bind at 1. rewrite E. eexists; reflexivity.
  - intros mkvar p ps rest o.
    destruct (line2twoPts_eqoangle_raises ps o) as [e E].
    unfold parameterize. cbn [String.eqb Ascii.eqb Bool.eqb].
    unfold c_arg, getitem. cbn [Nat.sub nth_error]. unfold bind at 1, ret at 1.
    unfold parameterize_on_line. cbn [as_line]. unfold bind at 1, ret at 1.
    unfold bind at 1. rewrite E. eexists; reflexivity.
Qed.

Lemma line2twoPts_eqoangle_unbound_witness :
  Forall (registered eight_points) ["A"; "B"; "C"; "D"; "P"] /\
  line2twoPts (mkLine "eqoangle" ["A"; "B"; "C"; "D"; "P"]) eight_points
  = (Raise (NameError "A"), eight_points).
Proof.
  assert (H5 : Forall (registered eight_points) ["A"; "B"; "C"; "D"; "P"])
    by (repeat constructor; discriminate).
  split; [exact H5 | ].
  exact (proj1 (proj2 line2twoPts_eqoangle_unbound) _ _ H5 eq_refl).
Defined.

(** ** The second meet of a line with a circle through its first point *)

(** X25.  For two distinct points [A], [B] and any centre [O], the line [A B]
  meets the circle of centre [O] through [A]; [second_meet_pp_c] returns one
  of the two points of [inter_pp_c], on the circle and on the line, and the
  one it returns is not nearer to [A] than the other. *)
Theorem second_meet_pp_c_farther (ax ay bx by_ ox oy : R) :
  let A := RPt ax ay in
  let B := RPt bx by_ in
  let O' := RPt ox oy in
  (ax, ay) <> (bx, by_) ->
  exists qx qy px py : R,
    second_meet_pp_c A B O' = Ok (RPt qx qy) /\
    (inter_pp_c A B (mkCircleNF O' (dist O' A)) = [RPt qx qy; RPt px py] \/
     inter_pp_c A B (mkCircleNF O' (dist O' A)) = [RPt px py; RPt qx qy]) /\
    dist O' (RPt qx qy) = dist O' A /\
    coll_phi A B (RPt qx qy) = Scalar.const 0 /\
    sq_len ax ay px py <= sq_len ax ay qx qy.
Proof.
  cbv zeta. intros Hne.
  set (r := sqrt ((ox - ax) ^ 2 + (oy - ay) ^ 2)).
  assert (Hd : dist (RPt ox oy) (RPt ax ay) = Some r) by apply dist_RPt.
  assert (Hr0 : 0 <= r) by apply sqrt_pos.
  assert (Hr2 : r ^ 2 = (ox - ax) ^ 2 + (oy - ay) ^ 2).
  { unfold r. apply pow2_sqrt. apply sumsq_nonneg. }
  assert (Hrad : Scalar.lt (radicand (RPt (ax - ox) (ay - oy))
                                     (RPt (bx - ox) (by_ - oy)) (Some r))
                           (Scalar.const 0) = false).
  { rewrite radicand_RPt. apply lt_Some_false. rewrite Hr2.
    replace (((ox - ax) ^ 2 + (oy - ay) ^ 2)
             * ((ax - ox - (bx - ox)) ^ 2 + (ay - oy - (by_ - oy)) ^ 2)
             - ((bx - ox) * (ay - oy) - (ax - ox) * (by_ - oy)) ^ 2)
      with (((ax - ox) * (ax - bx) + (ay - oy) * (ay - by_)) ^ 2) by ring.
    apply pow2_ge_0. }
  destruct (inter_pp_c_meets ax ay bx by_ ox oy r Hne Hrad)
    as [q1x [q1y [q2x [q2y [E [D1 [D2 [C1 C2]]]]]]]].
  rewrite (Rabs_pos_eq r Hr0) in D1, D2.
  unfold second_meet_pp_c. rewrite Hd, E, !sqdist_RPt.
  unfold Scalar.lt, Scalar.cond, Rltb.
  destruct (Rlt_dec (sq_len ax ay q1x q1y) (sq_len ax ay q2x q2y)) as [L | L].
  - exists q2x, q2y, q1x, q1y. repeat split; auto. lra.
  - exists q1x, q1y, q2x, q2y. repeat split; auto. lra.
Qed.

Lemma second_meet_pp_c_farther_witness :
  (0, 2) <> (2, 0) /\
  exists qx qy px py : R,
    second_meet_pp_c (RPt 0 2) (RPt 2 0) (RPt 0 0) = Ok (RPt qx qy) /\
    (inter_pp_c (RPt 0 2) (RPt 2 0)
                (mkCircleNF (RPt 0 0) (dist (RPt 0 0) (RPt 0 2)))
     = [RPt qx qy; RPt px py] \/
     inter_pp_c (RPt 0 2) (RPt 2 0)
                (mkCircleNF (RPt 0 0) (dist (RPt 0 0) (RPt 0 2)))
     = [RPt px py; RPt qx qy]) /\
    dist (RPt 0 0) (RPt qx qy) = dist (RPt 0 0) (RPt 0 2) /\
    coll_phi (RPt 0 2) (RPt 2 0) (RPt qx qy) = Scalar.const 0 /\
    sq_len 0 2 px py <= sq_len 0 2 qx qy.
Proof.
  assert (H : (0, 2) <> (2, 0)) by (intros E; injection E as E _; lra).
  split; [exact H | ].
  exact (second_meet_pp_c_farther 0 2 2 0 0 0 H).
Defined.

(** ** The two points of a line *)

Lemma lookup_three (a b c : string) (A B C : Point) (o : Optimizer) :
  dict_get (name2pt o) a = Some A ->
  dict_get (name2pt o) b = Some B ->
  dict_get (name2pt o) c = Some C ->
  lookup_pts [a; b; c] o = (Ok [A; B; C], o).
Proof.
  intros Ha Hb Hc. rewrite !lookup_pts_cons, Ha, Hb, Hc. reflexivity.
Qed.

Lemma add_RPt (a b c d : R) : (RPt a b + RPt c d)%P = RPt (a + c) (b + d).
Proof. reflexivity. Qed.

Lemma sub_RPt (a b c d : R) : (RPt a b - RPt c d)%P = RPt (a - c) (b - d).
Proof. reflexivity. Qed.

Lemma rotate_counterclockwise_90_RPt (px py : R) :
  rotate_counterclockwise_90 (RPt px py) = RPt (- py) px.
Proof.
  unfold rotate_counterclockwise_90, matrix_mul, inner_product, RPt,
    Scalar.const. sc. f_equal; f_equal; ring.
Qed.

(** X26.  What the two points that [line2twoPts] gives for a line mean, on
  registered points.  For [mediator] of [A], [B] each of the two is at the
  same distance from [A] and from [B], and they differ when [A] and [B] do.
  For [perpAt] and [paraAt] of [X], [A], [B] the first is [X] and the line
  through the two is perpendicular, respectively parallel, to [A B].  The
  object is not changed. *)
Theorem line2twoPts_meaning (a b x : string) (ax ay bx by_ xx xy : R)
    (o : Optimizer) :
  let A := RPt ax ay in
  let B := RPt bx by_ in
  let X := RPt xx xy in
  dict_get (name2pt o) a = Some A ->
  dict_get (name2pt o) b = Some B ->
  dict_get (name2pt o) x = Some X ->
  (exists mx my nx ny : R,
      line2twoPts (mkLine "mediator" [a; b]) o
      = (Ok [RPt mx my; RPt nx ny], o) /\
      sq_len mx my ax ay = sq_len mx my bx by_ /\
      sq_len nx ny ax ay = sq_len nx ny bx by_ /\
      ((ax, ay) <> (bx, by_) -> (mx, my) <> (nx, ny))) /\
  (exists ux uy : R,
      line2twoPts (mkLine "perpAt" [x; a; b]) o = (Ok [X; RPt ux uy], o) /\
      perp_phi X (RPt ux uy) A B = Scalar.const 0 /\
      sq_len xx xy ux uy = sq_len ax ay bx by_) /\
  (exists ux uy : R,
      line2twoPts (mkLine "paraAt" [x; a; b]) o = (Ok [X; RPt ux uy], o) /\
      para_phi X (RPt ux uy) A B = Scalar.const 0 /\
      sq_len xx xy ux uy = sq_len ax ay bx by_).
Proof.
  cbv zeta. intros Ha Hb Hx. split; [ | split].
  - exists ((ax + bx) / 2), ((ay + by_) / 2),
      ((ax + bx) / 2 + - (ay - by_)), ((ay + by_) / 2 + (ax - bx)).
    split; [ | split; [ | split]].
    + unfold line2twoPts.
      cbn [line_pred line_points String.eqb Ascii.eqb Bool.eqb].
      unfold bind at 1. rewrite (lookup_two a b _ _ o Ha Hb).
      cbn [unpack2]. unfold bind at 1, ret at 1.
      rewrite midp_RPt, sub_RPt, rotate_counterclockwise_90_RPt, add_RPt.
      reflexivity.
    + unfold sq_len. field.
    + unfold sq_len. field.
    + intros Hne E. apply Hne.
      apply (f_equal fst) in E as E1. apply (f_equal snd) in E as E2.
      cbn [fst snd] in E1, E2. f_equal; lra.
  - exists (xx + - (ay - by_)), (xy + (ax - bx)). split; [ | split].
    + unfold line2twoPts.
      cbn [line_pred line_points String.eqb Ascii.eqb Bool.eqb].
      unfold bind at 1. rewrite (lookup_three x a b _ _ _ o Hx Ha Hb).
      cbn [unpack3]. unfold bind at 1, ret at 1.
      rewrite sub_RPt, rotate_counterclockwise_90_RPt, add_RPt.
      reflexivity.
    + unfold perp_phi, RPt, Scalar.const. sc. f_equal. ring.
    + unfold sq_len. ring.
  - exists (xx + bx - ax), (xy + by_ - ay). split; [ | split].
    + unfold line2twoPts.
      cbn [line_pred line_points String.eqb Ascii.eqb Bool.eqb].
      unfold bind at 1. rewrite (lookup_three x a b _ _ _ o Hx Ha Hb).
      reflexivity.
    + unfold para_phi, RPt, Scalar.const. sc. f_equal. ring.
    + unfold sq_len. ring.
Qed.

Lemma line2twoPts_meaning_witness :
  (dict_get (name2pt eight_points) "A" = Some (RPt 0 0) /\
   dict_get (name2pt eight_points) "D" = Some (RPt 3 1) /\
   dict_get (name2pt eight_points) "P" = Some (RPt 1 1)) /\
  exists ux uy : R,
    line2twoPts (mkLine "perpAt" ["P"; "A"; "D"]) eight_points
    = (Ok [RPt 1 1; RPt ux uy], eight_points) /\
    perp_phi (RPt 1 1) (RPt ux uy) (RPt 0 0) (RPt 3 1) = Scalar.const 0 /\
    sq_len 1 1 ux uy = sq_len 0 0 3 1.
Proof.
  split; [repeat split | ].
  exact (proj1 (proj2 (line2twoPts_meaning "A" "D" "P" 0 0 3 1 1 1 eight_points
                         eq_refl eq_refl eq_refl))).
Defined.

(** ** Nothing is ever removed from the object *)

Lemma keeps_keys_refl {V : Type} (d : list (string * V)) : keeps_keys d d.
Proof. intros k H. exact H. Qed.

Lemma keeps_keys_trans {V : Type} (d1 d2 d3 : list (string * V)) :
  keeps_keys d1 d2 -> keeps_keys d2 d3 -> keeps_keys d1 d3.
Proof. intros H1 H2 k H. apply H2, H1, H. Qed.

Lemma keeps_keys_set {V : Type} (d : list (string * V)) (key : string) (v : V) :
  keeps_keys d (dict_set d key v).
Proof.
  intros k H. destruct (String.eqb_spec key k) as [-> | N].
  - rewrite dict_get_set_same. discriminate.
  - rewrite dict_get_set_other by exact N. exact H.
Qed.

Lemma extends_refl (o : Optimizer) : extends o o.
Proof.
  repeat split; try (exists []; rewrite app_nil_r; reflexivity);
    apply keeps_keys_refl.
Qed.

Lemma extends_trans (o1 o2 o3 : Optimizer) :
  extends o1 o2 -> extends o2 o3 -> extends o1 o3.
Proof.
  intros [[l1 H1] [[c1 C1] [[s1 S1] [L1 [N1 [G1 I1]]]]]]
         [[l2 H2] [[c2 C2] [[s2 S2] [L2 [N2 [G2 I2]]]]]].
  repeat split.
  - exists (l1 ++ l2). rewrite H2, H1, app_assoc. reflexivity.
  - exists (c1 ++ c2). rewrite C2, C1, app_assoc. reflexivity.
  - exists (s1 ++ s2). rewrite S2, S1, app_assoc. reflexivity.
  - exact (keeps_keys_trans _ _ _ L1 L2).
  - exact (keeps_keys_trans _ _ _ N1 N2).
  - exact (keeps_keys_trans _ _ _ G1 G2).
  - congruence.
Qed.

Lemma ao_ret {A : Type} (a : A) : append_only (ret a).
Proof. intros o. apply extends_refl. Qed.

Lemma ao_raise {A : Type} (e : exn) : append_only (raise (A := A) e).
Proof. intros o. apply extends_refl. Qed.

Lemma ao_lift {A : Type} (r : result A) : append_only (lift r).
Proof. intros o. apply extends_refl. Qed.

Lemma ao_gets {A : Type} (f : Optimizer -> A) : append_only (gets f).
Proof. intros o. apply extends_refl. Qed.

Lemma ao_bind {A B : Type} (m : M A) (k : A -> M B) :
  append_only m -> (forall a, append_only (k a)) -> append_only (bind m k).
Proof.
  intros Hm Hk o. unfold bind. specialize (Hm o).
  destruct (m o) as [[a | e] o1]; cbn [snd] in *; [ | exact Hm].
  apply (extends_trans _ _ _ Hm). apply Hk.
Qed.

Lemma ao_mapM {A B : Type} (f : A -> M B) (l : list A) :
  (forall a, append_only (f a)) -> append_only (mapM f l).
Proof.
  intros Hf. induction l as [ | a l IH]; cbn [mapM]; [apply ao_ret | ].
  apply ao_bind; [apply Hf | intros b].
  apply ao_bind; [exact IH | intros bs; apply ao_ret].
Qed.

Lemma ao_forM_ {A : Type} (l : list A) (f : A -> M unit) :
  (forall a, append_only (f a)) -> append_only (forM_ l f).
Proof.
  intros Hf. induction l as [ | a l IH]; cbn [forM_]; [apply ao_ret | ].
  apply ao_bind; [apply Hf | intros _; exact IH].
Qed.

Lemma ao_register_pt (p : string) (P : Point) : append_only (register_pt p P).
Proof.
  intros o. unfold register_pt, bind, gets, raise, modify.
  destruct (dict_get (name2pt o) p); cbn [snd]; [apply extends_refl | ].
  repeat split; cbn [name2pt circles segments losses ndgs goals instructions
                     set_name2pt];
    try (exists []; rewrite app_nil_r; reflexivity); try apply keeps_keys_refl.
  eexists; reflexivity.
Qed.

Lemma ao_register_loss (key : string) (var : scalar) (weight : R) :
  append_only (register_loss key var weight).
Proof.
  intros o. unfold register_loss, modify. cbn [snd].
  repeat split; cbn [name2pt circles segments losses ndgs goals instructions
                     set_losses];
    try (exists []; rewrite app_nil_r; reflexivity); try apply keeps_keys_refl.
  apply keeps_keys_set.
Qed.

Lemma ao_register_ndg (key : string) (var : scalar) (weight : R) :
  append_only (register_ndg key var weight).
Proof.
  intros o. unfold register_ndg, modify. cbn [snd].
  repeat split; cbn [name2pt circles segments losses ndgs goals instructions
                     set_ndgs];
    try (exists []; rewrite app_nil_r; reflexivity); try apply keeps_keys_refl.
  apply keeps_keys_set.
Qed.

Lemma ao_register_goal (key : string) (var : scalar) :
  append_only (register_goal key var).
Proof.
  intros o. unfold register_goal, modify. cbn [snd].
  repeat split; cbn [name2pt circles segments losses ndgs goals instructions
                     set_goals];
    try (exists []; rewrite app_nil_r; reflexivity); try apply keeps_keys_refl.
  apply keeps_keys_set.
Qed.

Lemma ao_circles_append (c : Point * scalar) : append_only (circles_append c).
Proof.
  intros o. unfold circles_append, modify. cbn [snd].
  repeat split; cbn [name2pt circles segments losses ndgs goals instructions
                     set_circles];
    try (exists []; rewrite app_nil_r; reflexivity); try apply keeps_keys_refl.
  eexists; reflexivity.
Qed.

Lemma ao_segments_extend (l : list (Point * Point)) :
  append_only (segments_extend l).
Proof.
  intros o. unfold segments_extend, modify. cbn [snd].
  repeat split; cbn [name2pt circles segments losses ndgs goals instructions
                     set_segments];
    try (exists []; rewrite app_nil_r; reflexivity); try apply keeps_keys_refl.
  eexists; reflexivity.
Qed.

Lemma ao_segments_append (sg : Point * Point) : append_only (segments_append sg).
Proof. apply ao_segments_extend. Qed.

Lemma ao_lookup_pts (ps : list string) : append_only (lookup_pts ps).
Proof. intros o. rewrite lookup_pts_state. apply extends_refl. Qed.

Lemma ao_getitem {A : Type} (l : list A) (i : nat) : append_only (getitem l i).
Proof. unfold getitem. destruct (nth_error l i); [apply ao_ret | apply ao_raise]. Qed.

Lemma ao_last_item {A : Type} (l : list A) : append_only (last_item l).
Proof. unfold last_item. destruct (rev l); [apply ao_raise | apply ao_ret]. Qed.

Ltac ao_list l :=
  repeat (destruct l as [ | ? l]; try apply ao_raise; try apply ao_ret).

Lemma ao_unpack1 {A : Type} (l : list A) : append_only (unpack1 l).
Proof. unfold unpack1. ao_list l. Qed.

Lemma ao_unpack2 {A : Type} (l : list A) : append_only (unpack2 l).
Proof. unfold unpack2. ao_list l. Qed.

Lemma ao_unpack3 {A : Type} (l : list A) : append_only (unpack3 l).
Proof. unfold unpack3. ao_list l. Qed.

Lemma ao_unpack4 {A : Type} (l : list A) : append_only (unpack4 l).
Proof. unfold unpack4. ao_list l. Qed.

Lemma ao_unpack5 {A : Type} (l : list A) : append_only (unpack5 l).
Proof. unfold unpack5. ao_list l. Qed.

Lemma ao_unpack6 {A : Type} (l : list A) : append_only (unpack6 l).
Proof. unfold unpack6. ao_list l. Qed.

Lemma ao_splat3 {A : Type} (l : list A) : append_only (splat3 l).
Proof. unfold splat3. ao_list l. Qed.

Lemma ao_splat4 {A : Type} (l : list A) : append_only (splat4 l).
Proof. unfold splat4. ao_list l. Qed.

Lemma ao_splat8 {A : Type} (l : list A) : append_only (splat8 l).
Proof. unfold splat8. ao_list l. Qed.

Lemma ao_inv_len {A : Type} (l : list A) : append_only (inv_len l).
Proof. unfold inv_len. destruct l; [apply ao_raise | apply ao_ret]. Qed.

Create HintDb ao discriminated.

#[local] Hint Resolve ao_ret ao_raise ao_lift ao_gets ao_register_pt
  ao_register_loss ao_register_ndg ao_register_goal ao_circles_append
  ao_segments_extend ao_segments_append ao_lookup_pts ao_getitem ao_last_item
  ao_unpack1 ao_unpack2 ao_unpack3 ao_unpack4 ao_unpack5 ao_unpack6
  ao_splat3 ao_splat4 ao_splat8 ao_inv_len : ao.

(** One step through the body of a method. *)
Ltac ao_step :=
  match goal with
  | |- append_only (bind _ _) => apply ao_bind; [ | intros ? ]
  | |- append_only (mapM _ _) => apply ao_mapM; intros ?
  | |- append_only (forM_ _ _) => apply ao_forM_; intros ?
  | |- append_only (if ?c then _ else _) => destruct c
  | |- append_only (match ?x with _ => _ end) => destruct x
  | |- append_only _ => solve [auto with ao]
  end.

Ltac ao := cbv zeta; repeat ao_step.

Lemma ao_as_points (a : arg) : append_only (as_points a).
Proof. unfold as_points. ao. Qed.

Lemma ao_as_line (a : arg) : append_only (as_line a).
Proof. unfold as_line. ao. Qed.

Lemma ao_as_circle (a : arg) : append_only (as_circle a).
Proof. unfold as_circle. ao. Qed.

Lemma ao_as_root_select (a : arg) : append_only (as_root_select a).
Proof. unfold as_root_select. ao. Qed.

Lemma ao_names_of_vars (vs : list rs_var) : append_only (names_of_vars vs).
Proof. unfold names_of_vars. ao. Qed.

Lemma ao_iter_var (v : rs_var) : append_only (iter_var v).
Proof. unfold iter_var. ao. Qed.

Lemma ao_line_of_var (v : rs_var) : append_only (line_of_var v).
Proof. unfold line_of_var. ao. Qed.

#[local] Hint Resolve ao_as_points ao_as_line ao_as_circle ao_as_root_select
  ao_names_of_vars ao_iter_var ao_line_of_var : ao.

Lemma ao_line2twoPts (l : Line) : append_only (line2twoPts l).
Proof. unfold line2twoPts. ao. Qed.

#[local] Hint Resolve ao_line2twoPts : ao.

Lemma ao_line2sif (l : Line) : append_only (line2sif l).
Proof. unfold line2sif. ao. Qed.

Lemma ao_circ2nf (c : Circle) : append_only (circ2nf c).
Proof. unfold circ2nf. ao. Qed.

#[local] Hint Resolve ao_line2sif ao_circ2nf : ao.

Lemma ao_process_rs (P1 P2 : Point) (rs : arg) : append_only (process_rs P1 P2 rs).
Proof. unfold process_rs. ao. Qed.

#[local] Hint Resolve ao_process_rs : ao.

Lemma ao_inter_lc (l : SlopeInterceptForm) (c : CircleNF) (rs : arg) :
  append_only (inter_lc l c rs).
Proof. unfold inter_lc. ao. Qed.

#[local] Hint Resolve ao_inter_lc : ao.

Lemma ao_inter_cc (c1 c2 : CircleNF) (rs : arg) : append_only (inter_cc c1 c2 rs).
Proof. unfold inter_cc. ao. Qed.

Lemma ao_make_lc_intersect (name : string) (l : SlopeInterceptForm) (c : CircleNF) :
  append_only (make_lc_intersect name l c).
Proof. unfold make_lc_intersect. ao. Qed.

#[local] Hint Resolve ao_inter_cc ao_make_lc_intersect : ao.

Lemma ao_assertion_vals (pred : string) (ps : list string) :
  append_only (assertion_vals pred ps).
Proof. unfold assertion_vals. ao. Qed.

#[local] Hint Resolve ao_assertion_vals : ao.

Lemma ao_add (c : Constraint) : append_only (add c).
Proof. unfold add. ao. Qed.

Lemma ao_addNDG (c : Constraint) : append_only (addNDG c).
Proof. unfold addNDG. ao. Qed.

Lemma ao_confirm (c : Constraint) : append_only (confirm c).
Proof. unfold confirm. ao. Qed.

Lemma ao_compute (p c_method : string) (c_args : list arg) :
  append_only (compute p c_method c_args).
Proof.
  unfold compute, c_arg, compute_amidp_opp, compute_amidp_same,
    compute_centroid, compute_circumcenter, compute_excenter,
    compute_harmonic_l_conj, compute_incenter, compute_inter_ll,
    compute_inter_lc, compute_inter_cc, compute_isogonal, compute_isotomic,
    compute_inverse, compute_midp, compute_midp_from,
    compute_mixtilinear_incenter, compute_orthocenter.
  ao.
Qed.

Section Append_only.

Variable mkvar : string -> R -> R -> scalar.
Variable simplify : Point -> string -> Point.

Lemma ao_sample_uniform (ps : list string) :
  append_only (sample_uniform mkvar ps).
Proof. unfold sample_uniform. ao. Qed.

Lemma ao_polygon_vertices (idx : list nat) (angles scales : list scalar)
    (s : scalar) (Ps : list Point) :
  append_only (polygon_vertices simplify idx angles scales s Ps).
Proof.
  revert Ps. induction idx as [ | i idx IH]; intros Ps; cbn [polygon_vertices].
  - apply ao_ret.
  - ao.
Qed.

Lemma ao_sample_polygon (ps : list string) :
  append_only (sample_polygon mkvar simplify ps).
Proof.
  unfold sample_polygon.
  pose proof ao_polygon_vertices as Hp.
  ao.
Qed.

Lemma ao_sample_triangle (ps : list string) (iso right : option string)
    (acute equi : bool) :
  append_only (sample_triangle mkvar simplify ps iso right acute equi).
Proof.
  unfold sample_triangle.
  pose proof ao_sample_polygon as Hp.
  ao.
Qed.

Lemma ao_sample (s_method : string) (points s_args : list string) :
  append_only (sample mkvar simplify s_method points s_args).
Proof.
  unfold sample.
  pose proof ao_sample_polygon as Hp. pose proof ao_sample_triangle as Ht.
  pose proof ao_sample_uniform as Hu.
  ao.
Qed.

Lemma ao_parameterize (p p_method : string) (p_args : list arg) :
  append_only (parameterize mkvar p p_method p_args).
Proof.
  unfold parameterize, c_arg, parameterize_coords, parameterize_in_poly,
    parameterize_on_circ, parameterize_on_line, parameterize_on_ray,
    parameterize_on_ray_opp, parameterize_on_seg.
  pose proof ao_sample_uniform as Hu.
  ao.
Qed.

Lemma ao_process_instruction (i : Instruction) :
  append_only (process_instruction mkvar simplify i).
Proof.
  destruct i; cbn [process_instruction];
    auto using ao_sample, ao_compute, ao_parameterize, ao_add, ao_addNDG,
               ao_confirm, ao_raise.
Qed.

Lemma ao_preprocess : append_only (preprocess mkvar simplify).
Proof.
  unfold preprocess. apply ao_bind; [apply ao_gets | intros instrs].
  apply ao_forM_. exact ao_process_instruction.
Qed.

End Append_only.

Lemma dict_get_app_l {V : Type} (d l : list (string * V)) (k : string) (v : V) :
  dict_get d k = Some v -> dict_get (d ++ l) k = Some v.
Proof.
  induction d as [ | [k' w] d IH]; cbn [dict_get app]; [discriminate | ].
  destruct (String.eqb k' k); [auto | exact IH].
Qed.

(** X27.  Processing an instruction, and the whole pass, only add to the object,
  whether they return or raise: the points, circles and segments that were
  there stay first and in order, no label of a loss, of a non-degeneracy
  condition or of a goal goes away, and the instructions are not touched.
  So a name that was registered keeps its point. *)
Theorem preprocess_append_only
    (mkvar : string -> R -> R -> scalar) (simplify : Point -> string -> Point) :
  (forall i o, extends o (snd (process_instruction mkvar simplify i o))) /\
  (forall o, extends o (snd (preprocess mkvar simplify o))) /\
  (forall o p P,
      dict_get (name2pt o) p = Some P ->
      (forall i,
          dict_get (name2pt (snd (process_instruction mkvar simplify i o))) p
          = Some P) /\
      dict_get (name2pt (snd (preprocess mkvar simplify o))) p = Some P).
Proof.
  split; [exact (ao_process_instruction mkvar simplify) | ].
  split; [exact (ao_preprocess mkvar simplify) | ].
  intros o p P H. split; [intros i | ].
  - destruct (ao_process_instruction mkvar simplify i o) as [[l E] _].
    rewrite E. apply dict_get_app_l. exact H.
  - destruct (ao_preprocess mkvar simplify o) as [[l E] _].
    rewrite E. apply dict_get_app_l. exact H.
Qed.

Lemma preprocess_append_only_witness :
  dict_get (name2pt three_on_a_line) "A" = Some (RPt 0 0) /\
  dict_get
    (name2pt
       (snd (process_instruction (fun _ _ _ => Some 0) (fun P _ => P)
               (Compute "M" "midp" [ArgPoints ["A"; "B"]]) three_on_a_line)))
    "A"
  = Some (RPt 0 0).
Proof.
  split; [reflexivity | ].
  exact (proj1 (proj2 (proj2 (preprocess_append_only (fun _ _ _ => Some 0)
                                (fun P _ => P)))
                  three_on_a_line "A" (RPt 0 0) eq_refl)
           (Compute "M" "midp" [ArgPoints ["A"; "B"]])).
Defined.

(** ** Points that are far enough from each other *)

Lemma sqdist_sym (A B : Point) : sqdist A B = sqdist B A.
Proof.
  destruct A as [[ax | ] [ay | ]], B as [[bx | ] [by_ | ]]; try reflexivity.
  unfold sqdist. sc. f_equal. ring.
Qed.

Lemma dist_sym (A B : Point) : dist A B = dist B A.
Proof. unfold dist. rewrite sqdist_sym. reflexivity. Qed.

Lemma dict_get_key {V : Type} (d : list (string * V)) (k : string) (v : V) :
  dict_get d k = Some v -> In k (map fst d).
Proof.
  induction d as [ | [k' w] d IH]; cbn [dict_get map fst]; [discriminate | ].
  destruct (String.eqb_spec k' k) as [-> | N]; [left; reflexivity | ].
  intros H. right. apply IH. exact H.
Qed.

Lemma dict_get_of_key {V : Type} (d : list (string * V)) (k : string) :
  In k (map fst d) -> exists v, dict_get d k = Some v.
Proof.
  induction d as [ | [k' w] d IH]; cbn [dict_get map fst]; [contradiction | ].
  intros [-> | H].
  - rewrite String.eqb_refl. eauto.
  - destruct (String.eqb k' k); [eauto | apply IH; exact H].
Qed.

Lemma combinations_1 {A : Type} (l : list A) :
  combinations l 1 = map (fun a => [a]) l.
Proof.
  induction l as [ | a l IH]; [reflexivity | ].
  cbn [combinations map app]. rewrite IH. destruct l; reflexivity.
Qed.

Lemma combinations_2_cover {A : Type} (l : list A) (a b : A) :
  In a l -> In b l -> a <> b ->
  In [a; b] (combinations l 2) \/ In [b; a] (combinations l 2).
Proof.
  induction l as [ | c l IH]; intros Ha Hb Hne; [contradiction | ].
  change (combinations (c :: l) 2)
    with (map (cons c) (combinations l 1) ++ combinations l 2).
  rewrite combinations_1, map_map.
  destruct Ha as [-> | Ha], Hb as [-> | Hb].
  - contradiction.
  - left. apply in_or_app. left. apply in_map_iff. exists b. auto.
  - right. apply in_or_app. left. apply in_map_iff. exists a. auto.
  - destruct (IH Ha Hb Hne) as [H | H]; [left | right];
      apply in_or_app; right; exact H.
Qed.

Lemma far_enough_loop_spec (d : list (string * Point)) (m : scalar)
    (pairs : list (list string)) :
  (forall t, In t pairs ->
             exists a b, t = [a; b] /\ In a (map fst d) /\ In b (map fst d)) ->
  exists r : bool,
    far_enough_loop d m pairs = Ok r /\
    (r = true <->
     forall a b A B, In [a; b] pairs ->
                     dict_get d a = Some A -> dict_get d b = Some B ->
                     Scalar.lt (dist A B) m = false).
Proof.
  induction pairs as [ | t pairs IH]; intros Hp.
  - exists true. split; [reflexivity | ]. split; [intros _ a b A B [] | reflexivity].
  - destruct (Hp t (or_introl eq_refl)) as [a [b [-> [Ha Hb]]]].
    destruct (dict_get_of_key d a Ha) as [A EA].
    destruct (dict_get_of_key d b Hb) as [B EB].
    cbn [far_enough_loop]. rewrite EA, EB. cbv zeta.
    destruct (Scalar.lt (dist A B) m) eqn:El.
    + exists false. split; [reflexivity | ]. split; [discriminate | ].
      intros H. specialize (H a b A B (or_introl eq_refl) EA EB). congruence.
    + destruct IH as [r [Er Hr]].
      { intros t Ht. apply Hp. right. exact Ht. }
      exists r. split; [exact Er | ]. rewrite Hr. split.
      * intros H a' b' A' B' [E | Hin] HA HB.
        -- injection E as <- <-. congruence.
        -- exact (H a' b' A' B' Hin HA HB).
      * intros H a' b' A' B' Hin HA HB.
        exact (H a' b' A' B' (or_intror Hin) HA HB).
Qed.

(** X28.  On a registry (its names are distinct), [points_far_enough_away] never
  raises, and it returns [True] exactly when no two points under different
  names are at a distance that compares below the bound.  A distance that
  is undefined does not compare below anything, so such a pair counts as
  far enough. *)
Theorem points_far_enough_away_spec (d : list (string * Point)) (m : scalar) :
  NoDup (map fst d) ->
  (exists r : bool,
      points_far_enough_away d m = Ok r /\
      (r = true <->
       forall a b A B, a <> b ->
                       dict_get d a = Some A -> dict_get d b = Some B ->
                       Scalar.lt (dist A B) m = false)) /\
  (forall A B, dist A B = None -> Scalar.lt (dist A B) m = false).
Proof.
  intros Hnd. split; [ | intros A B ->; reflexivity].
  destruct (far_enough_loop_spec d m (combinations (map fst d) 2)) as [r [Er Hr]].
  { intros t Ht.
    pose proof (combinations_length _ _ _ Ht) as Hl.
    pose proof (combinations_incl _ _ _ Ht) as Hi.
    destruct t as [ | a [ | b [ | c t]]]; try discriminate Hl.
    exists a, b. split; [reflexivity | ].
    split; apply Hi; cbn; auto. }
  exists r. split; [exact Er | ]. rewrite Hr. split.
  - intros H a b A B Hne HA HB.
    destruct (combinations_2_cover (map fst d) a b
                (dict_get_key _ _ _ HA) (dict_get_key _ _ _ HB) Hne) as [Hin | Hin].
    + exact (H a b A B Hin HA HB).
    + rewrite dist_sym. exact (H b a B A Hin HB HA).
  - intros H a b A B Hin HA HB. apply (H a b A B); [ | exact HA | exact HB].
    pose proof (combinations_NoDup _ _ _ Hnd Hin) as Hd.
    inversion Hd as [ | ? ? Hn _]; subst. intros ->. apply Hn. left. reflexivity.
Qed.

Lemma points_far_enough_away_spec_witness :
  NoDup (map fst (name2pt three_on_a_line)) /\
  exists r : bool,
    points_far_enough_away (name2pt three_on_a_line) (Scalar.const 1) = Ok r /\
    (r = true <->
     forall a b A B, a <> b ->
                     dict_get (name2pt three_on_a_line) a = Some A ->
                     dict_get (name2pt three_on_a_line) b = Some B ->
                     Scalar.lt (dist A B) (Scalar.const 1) = false).
Proof.
  assert (H : NoDup (map fst (name2pt three_on_a_line))).
  { cbn. repeat constructor; cbn; intuition discriminate. }
  split; [exact H | ].
  exact (proj1 (points_far_enough_away_spec (name2pt three_on_a_line)
                  (Scalar.const 1) H)).
Defined.

(** ** A computed point meets the assertion of its construction *)

Lemma dist_self (u v : R) : dist (RPt u v) (RPt u v) = Scalar.const 0.
Proof.
  rewrite dist_RPt. unfold Scalar.const. f_equal.
  replace ((u - u) ^ 2 + (v - v) ^ 2) with 0 by ring. apply sqrt_0.
Qed.

Lemma dict_get_app_new {V : Type} (d : list (string * V)) (k : string) (v : V) :
  dict_get d k = None -> dict_get (d ++ [(k, v)]) k = Some v.
Proof. intros H. rewrite dict_get_app, H, String.eqb_refl. reflexivity. Qed.

(** X29.  After [Compute] with [midp] on two registered points, under a free
  name, the name is registered and the assertion [midp] on the new point
  and the two points has the residual 0; after [midpFrom] the assertion
  [midp] that puts the given midpoint between the new point and the other
  one has the residual 0.  The assertions leave the object as the
  construction left it. *)
Theorem compute_midp_then_assert (m a b : string) (ax ay bx by_ : R)
    (o : Optimizer) :
  let A := RPt ax ay in
  let B := RPt bx by_ in
  dict_get (name2pt o) a = Some A ->
  dict_get (name2pt o) b = Some B ->
  dict_get (name2pt o) m = None ->
  (exists o1,
      compute m "midp" [ArgPoints [a; b]] o = (Ok tt, o1) /\
      dict_get (name2pt o1) m = Some (midp A B) /\
      segments o1 = segments o ++ [(A, B)] /\
      assertion_vals "midp" [m; a; b] o1 = (Ok [Scalar.const 0], o1)) /\
  (exists o1,
      compute m "midpFrom" [ArgPoints [a; b]] o = (Ok tt, o1) /\
      dict_get (name2pt o1) m = Some (midp_from A B) /\
      segments o1 = segments o ++ [(midp_from A B, B)] /\
      assertion_vals "midp" [a; m; b] o1 = (Ok [Scalar.const 0], o1)).
Proof.
  cbv zeta. intros Ha Hb Hm. split.
  - eexists. split; [ | split; [ | split]].
    + unfold compute. cbn [String.eqb Ascii.eqb Bool.eqb].
      unfold c_arg, getitem. cbn [Nat.sub nth_error]. unfold bind at 1, ret at 1.
      unfold compute_midp. cbn [as_points]. unfold bind at 1, ret at 1.
      unfold bind at 1. rewrite (lookup_two a b _ _ o Ha Hb).
      cbn [unpack2]. unfold bind at 1, ret at 1.
      unfold bind at 1. rewrite register_pt_fresh by exact Hm.
      reflexivity.
    + cbn [name2pt set_name2pt set_segments]. apply dict_get_app_new. exact Hm.
    + reflexivity.
    + unfold assertion_vals. cbn [String.eqb Ascii.eqb Bool.eqb].
      unfold bind at 1. rewrite (lookup_three m a b (midp (RPt ax ay) (RPt bx by_))
                                   (RPt ax ay) (RPt bx by_)).
      * cbn [unpack3]. unfold bind at 1, ret at 1. unfold ret.
        rewrite midp_RPt, dist_self. reflexivity.
      * cbn [name2pt set_name2pt set_segments]. apply dict_get_app_new. exact Hm.
      * cbn [name2pt set_name2pt set_segments]. apply dict_get_app_l. exact Ha.
      * cbn [name2pt set_name2pt set_segments]. apply dict_get_app_l. exact Hb.
  - eexists. split; [ | split; [ | split]].
    + unfold compute. cbn [String.eqb Ascii.eqb Bool.eqb].
      unfold c_arg, getitem. cbn [Nat.sub nth_error]. unfold bind at 1, ret at 1.
      unfold compute_midp_from. cbn [as_points]. unfold bind at 1, ret at 1.
      unfold bind at 1. rewrite (lookup_two a b _ _ o Ha Hb).
      cbn [unpack2]. unfold bind at 1, ret at 1.
      unfold bind at 1. rewrite register_pt_fresh by exact Hm.
      reflexivity.
    + cbn [name2pt set_name2pt set_segments]. apply dict_get_app_new. exact Hm.
    + reflexivity.
    + unfold assertion_vals. cbn [String.eqb Ascii.eqb Bool.eqb].
      unfold bind at 1.
      rewrite (lookup_three a m b (RPt ax ay)
                 (midp_from (RPt ax ay) (RPt bx by_)) (RPt bx by_)).
      * cbn [unpack3]. unfold bind at 1, ret at 1. unfold ret.
        rewrite midp_from_RPt, midp_RPt.
        replace ((2 * ax - bx + bx) / 2) with ax by field.
        replace ((2 * ay - by_ + by_) / 2) with ay by field.
        rewrite dist_self. reflexivity.
      * cbn [name2pt set_name2pt set_segments]. apply dict_get_app_l. exact Ha.
      * cbn [name2pt set_name2pt set_segments]. apply dict_get_app_new. exact Hm.
      * cbn [name2pt set_name2pt set_segments]. apply dict_get_app_l. exact Hb.
Qed.

Lemma compute_midp_then_assert_witness :
  (dict_get (name2pt three_on_a_line) "A" = Some (RPt 0 0) /\
   dict_get (name2pt three_on_a_line) "C" = Some (RPt 2 2) /\
   dict_get (name2pt three_on_a_line) "M" = None) /\
  exists o1,
    compute "M" "midp" [ArgPoints ["A"; "C"]] three_on_a_line = (Ok tt, o1) /\
    dict_get (name2pt o1) "M" = Some (midp (RPt 0 0) (RPt 2 2)) /\
    segments o1 = segments three_on_a_line ++ [(RPt 0 0, RPt 2 2)] /\
    assertion_vals "midp" ["M"; "A"; "C"] o1 = (Ok [Scalar.const 0], o1).
Proof.
  split; [repeat split | ].
  exact (proj1 (compute_midp_then_assert "M" "A" "C" 0 0 2 2 three_on_a_line
                  eq_refl eq_refl eq_refl)).
Defined.

(** ** Sampling a polygon *)

Section Polygon.

Variable mkvar : string -> R -> R -> scalar.
Variable simplify : Point -> string -> Point.

Lemma last_two_two {A : Type} (l : list A) :
  (2 <= length l)%nat -> exists a b, last_two l = [a; b].
Proof.
  intros H. unfold last_two.
  assert (L : length (skipn (length l - 2) l) = 2%nat)
    by (rewrite length_skipn; lia).
  destruct (skipn (length l - 2) l) as [ | a [ | b [ | c t]]]; try discriminate L.
  eauto.
Qed.

Lemma getitem_in_range {A : Type} (l : list A) (i : nat) (o : Optimizer) :
  (i < length l)%nat -> exists a, getitem l i o = (Ok a, o).
Proof.
  intros H. unfold getitem.
  destruct (nth_error l i) as [a | ] eqn:E; [eexists; reflexivity | ].
  apply nth_error_None in E. lia.
Qed.

(** The loop that builds the vertices adds one vertex for each index, after
  the vertices that are there, and does not touch the object. *)
Lemma polygon_vertices_total (idx : list nat) (angles scales : list scalar)
    (s : scalar) (Ps : list Point) (o : Optimizer) :
  (2 <= length Ps)%nat ->
  Forall (fun i => (i - 1 < length angles)%nat /\ (i - 1 < length scales)%nat) idx ->
  exists Qs,
    polygon_vertices simplify idx angles scales s Ps o = (Ok (Ps ++ Qs), o) /\
    length Qs = length idx.
Proof.
  intros HP Hidx. revert Ps HP.
  induction Hidx as [ | i idx [Ha Hs] _ IH]; intros Ps HP.
  - exists []. rewrite app_nil_r. split; reflexivity.
  - cbn [polygon_vertices].
    destruct (last_two_two Ps HP) as [A [B E]]. rewrite E.
    cbn [unpack2]. unfold bind at 1, ret at 1.
    destruct (getitem_in_range angles (i - 1) o Ha) as [a Ea].
    unfold bind at 1. rewrite Ea.
    destruct (getitem_in_range scales (i - 1) o Hs) as [sc Esc].
    unfold bind at 1. rewrite Esc.
    match goal with
    | |- context [polygon_vertices simplify idx angles scales s (Ps ++ [?P])] =>
        destruct (IH (Ps ++ [P])) as [Qs [EQ LQ]];
        [rewrite length_app; cbn [length]; lia | ];
        exists (P :: Qs); rewrite EQ, <- app_assoc; split;
        [reflexivity | cbn [length]; congruence]
    end.
Qed.

Lemma polygon_segments_loop (Ps : list Point) (n : nat) (idx : list nat)
    (o : Optimizer) :
  (n < length Ps)%nat ->
  Forall (fun i => (i < n)%nat) idx ->
  exists sg,
    forM_ idx (fun i => (Pi <- getitem Ps i ;;
                         Pj <- getitem Ps ((i + 1) mod n) ;;
                         segments_append (Pi, Pj))%M) o
    = (Ok tt, set_segments (segments o ++ sg) o) /\
    length sg = length idx.
Proof.
  intros Hn H.
  remember (fun i => (Pi <- getitem Ps i ;;
                      Pj <- getitem Ps ((i + 1) mod n) ;;
                      segments_append (Pi, Pj))%M) as body eqn:Hbody.
  revert o. induction H as [| i idx Hi _ IH]; intros o.
  - exists []. cbn [forM_]. unfold ret. rewrite app_nil_r.
    split; [destruct o; reflexivity | reflexivity].
  - assert (Hm : ((i + 1) mod n < n)%nat) by (apply Nat.mod_upper_bound; lia).
    destruct (nth_error Ps i) as [a | ] eqn:Ea.
    2:{ apply nth_error_None in Ea. lia. }
    destruct (nth_error Ps ((i + 1) mod n)) as [b | ] eqn:Eb.
    2:{ apply nth_error_None in Eb. lia. }
    assert (Hstep : body i o = (Ok tt, set_segments (segments o ++ [(a, b)]) o)).
    { rewrite Hbody. unfold bind, getitem. rewrite Ea, Eb. reflexivity. }
    cbn [forM_]. unfold bind at 1. rewrite Hstep.
    destruct (IH (set_segments (segments o ++ [(a, b)]) o)) as [sg [E L]].
    rewrite E. exists ((a, b) :: sg).
    cbn [segments set_segments]. rewrite <- app_assoc.
    split; [reflexivity | cbn [length]; congruence].
Qed.

Lemma dict_get_app_none {V : Type} (d l : list (string * V)) (k : string) :
  dict_get d k = None -> ~ In k (map fst l) -> dict_get (d ++ l) k = None.
Proof.
  intros Hd Hl. induction d as [ | [k' w] d IH]; cbn [dict_get app].
  - induction l as [ | [k' w] l IHl]; [reflexivity | ].
    cbn [dict_get]. cbn [map fst] in Hl.
    destruct (String.eqb_spec k' k) as [-> | N].
    + exfalso. apply Hl. left. reflexivity.
    + apply IHl. intros H. apply Hl. right. exact H.
  - cbn [dict_get] in Hd. destruct (String.eqb k' k); [discriminate | ].
    apply IH. exact Hd.
Qed.

(** Registering distinct free names, one after the other. *)
Lemma register_all (ps : list string) (Qs : list Point) (o : Optimizer) :
  NoDup ps ->
  Forall (fun p => dict_get (name2pt o) p = None) ps ->
  forM_ (combine ps Qs) (fun '(p, P) => register_pt p P) o
  = (Ok tt, set_name2pt (name2pt o ++ combine ps Qs) o).
Proof.
  intros Hnd. revert Qs o.
  induction Hnd as [ | p ps Hp Hnd IH]; intros Qs o Hf.
  - cbn [combine forM_]. unfold ret. rewrite app_nil_r. destruct o; reflexivity.
  - destruct Qs as [ | Q Qs].
    + cbn [combine forM_]. unfold ret. rewrite app_nil_r. destruct o; reflexivity.
    + inversion Hf as [ | ? ? Hp0 Hf']; subst.
      cbn [combine forM_]. unfold bind at 1.
      rewrite register_pt_fresh by exact Hp0.
      rewrite IH.
      * cbn [name2pt set_name2pt]. rewrite <- app_assoc. destruct o; reflexivity.
      * cbn [name2pt set_name2pt]. apply Forall_forall. intros q Hq.
        rewrite Forall_forall in Hf'.
        apply dict_get_app_none; [apply Hf'; exact Hq | ].
        cbn [map fst]. intros [E | []]. subst q. contradiction.
Qed.

(** X30.  [sample_polygon] on names that are distinct and free, at least one,
  does not raise, whatever the backend gives for the free variables and for
  [simplify]: each index it reads is in range.  It registers the names, in
  order, at the first vertices of a chain that starts with (-2, 0) and
  (2, 0) and has one vertex more than there are names; it records as many
  segments as names, and the three losses of the polygon.  On no name at all
  it raises [ZeroDivisionError] and changes nothing. *)
Theorem sample_polygon_total (ps : list string) (o : Optimizer) :
  (ps <> [] -> NoDup ps ->
   Forall (fun p => dict_get (name2pt o) p = None) ps ->
   exists (Qs : list Point) (sg : list (Point * Point)) (o' : Optimizer),
     sample_polygon mkvar simplify ps o = (Ok tt, o') /\
     length Qs = (length ps - 1)%nat /\
     name2pt o'
     = name2pt o ++ combine ps (removelast (RPt (-2) 0 :: RPt 2 0 :: Qs)) /\
     segments o' = segments o ++ sg /\ length sg = length ps /\
     circles o' = circles o /\
     (forall k, In k ["polygon-angle-sum"; "polygon-first-eq-last";
                      "polygon-first-angle-eq-sampled"] ->
                dict_get (losses o') k <> None)) /\
  sample_polygon mkvar simplify [] o = (Raise ZeroDivisionError, o).
Proof.
  split; [ | reflexivity].
  intros Hne Hnd Hfresh.
  unfold sample_polygon. cbv zeta.
  set (n := length ps).
  assert (Hn : (0 < n)%nat) by (destruct ps; [congruence | cbn; lia]).
  destruct (Nat.eqb_spec n 0) as [E0 | _]; [lia | ].
  unfold bind at 1, ret at 1.
  cbn [getitem nth_error]. unfold bind at 1, ret at 1. unfold bind at 1, ret at 1.
  set (angles := map _ (map _ (seq 0 n))).
  set (scales := map _ (map _ (seq 0 n))).
  assert (La : length angles = n) by (unfold angles; rewrite !length_map, length_seq; reflexivity).
  assert (Ls : length scales = n) by (unfold scales; rewrite !length_map, length_seq; reflexivity).
  match goal with
  | |- context [polygon_vertices simplify ?idx angles scales ?s ?P0] =>
      destruct (polygon_vertices_total idx angles scales s P0 o) as [Qs [EQ LQ]]
  end.
  { cbn [length]. lia. }
  { apply Forall_forall. intros i Hi. apply in_seq in Hi. lia. }
  rewrite length_seq in LQ.
  unfold bind at 1. rewrite EQ. clear EQ.
  change ([get_point #(-2.0) #0.0; get_point #2.0 #0.0] ++ Qs)
    with (get_point #(-2.0) #0.0 :: get_point #2.0 #0.0 :: Qs).
  set (Ps := get_point #(-2.0) #0.0 :: get_point #2.0 #0.0 :: Qs).
  assert (LP : length Ps = S n) by (unfold Ps; cbn [length]; lia).
  unfold bind at 1. unfold register_loss at 1, modify at 1.
  match goal with |- context [set_losses ?d o] => set (o1 := set_losses d o) end.
  unfold bind at 1. unfold getitem at 1. cbn [Ps nth_error]. unfold ret at 1.
  fold Ps.
  destruct (getitem_in_range Ps n o1) as [Pn EPn]; [lia | ].
  unfold bind at 1. rewrite EPn.
  unfold bind at 1. unfold register_loss at 1, modify at 1.
  match goal with |- context [set_losses ?d o1] => set (o2 := set_losses d o1) end.
  destruct (getitem_in_range angles 0 o2) as [a0 Ea0]; [lia | ].
  unfold bind at 1. rewrite Ea0.
  assert (Elast : exists Pl, last_item Ps o2 = (Ok Pl, o2)).
  { unfold last_item. destruct (rev Ps) as [ | Pl t] eqn:Er; [ | eexists; reflexivity].
    apply (f_equal (@length Point)) in Er. rewrite length_rev, LP in Er.
    discriminate Er. }
  destruct Elast as [Pl EPl].
  unfold bind at 1. rewrite EPl.
  unfold bind at 1. unfold getitem at 1. cbn [Ps nth_error]. unfold ret at 1.
  unfold bind at 1. unfold getitem at 1. cbn [Ps nth_error]. unfold ret at 1.
  fold Ps.
  unfold bind at 1. unfold register_loss at 1, modify at 1.
  match goal with |- context [set_losses ?d o2] => set (o3 := set_losses d o2) end.
  destruct (polygon_segments_loop Ps n (seq 0 n) o3) as [sg [Esg Lsg]]; [lia | | ].
  { apply Forall_forall. intros i Hi. apply in_seq in Hi. lia. }
  rewrite length_seq in Lsg.
  unfold bind at 1. rewrite Esg.
  rewrite register_all.
  2:{ exact Hnd. }
  2:{ exact Hfresh. }
  assert (EB : get_point #(-2.0) #0.0 = RPt (-2) 0).
  { unfold RPt, Scalar.const. f_equal; f_equal; lra. }
  assert (EC : get_point #2.0 #0.0 = RPt 2 0).
  { unfold RPt, Scalar.const. f_equal; f_equal; lra. }
  exists Qs, sg. eexists. split; [reflexivity | ].
  split; [exact LQ | ].
  split.
  { unfold Ps, o3, o2, o1.
    cbn [name2pt set_name2pt set_segments set_losses].
    rewrite EB, EC. reflexivity. }
  split; [reflexivity | ].
  split; [exact Lsg | ].
  split; [reflexivity | ].
  intros k Hk. unfold o3, o2, o1.
  cbn [losses set_name2pt set_segments set_losses].
  destruct Hk as [<- | [<- | [<- | []]]].
  - apply keeps_keys_set, keeps_keys_set. rewrite dict_get_set_same. discriminate.
  - apply keeps_keys_set. rewrite dict_get_set_same. discriminate.
  - rewrite dict_get_set_same. discriminate.
Qed.

End Polygon.

Lemma sample_polygon_total_witness :
  (["P"; "Q"; "R"; "S"] <> [] /\ NoDup ["P"; "Q"; "R"; "S"] /\
   Forall (fun p => dict_get (name2pt three_on_a_line) p = None)
          ["P"; "Q"; "R"; "S"]) /\
  exists (Qs : list Point) (sg : list (Point * Point)) (o' : Optimizer),
    sample_polygon (fun _ _ _ => Some 0) (fun P _ => P) ["P"; "Q"; "R"; "S"]
                   three_on_a_line = (Ok tt, o') /\
    length Qs = (length ["P"; "Q"; "R"; "S"] - 1)%nat /\
    name2pt o'
    = name2pt three_on_a_line
      ++ combine ["P"; "Q"; "R"; "S"] (removelast (RPt (-2) 0 :: RPt 2 0 :: Qs)) /\
    segments o' = segments three_on_a_line ++ sg /\
    length sg = length ["P"; "Q"; "R"; "S"] /\
    circles o' = circles three_on_a_line /\
    (forall k, In k ["polygon-angle-sum"; "polygon-first-eq-last";
                     "polygon-first-angle-eq-sampled"] ->
               dict_get (losses o') k <> None).
Proof.
  assert (H1 : ["P"; "Q"; "R"; "S"] <> []) by discriminate.
  assert (H2 : NoDup ["P"; "Q"; "R"; "S"]).
  { repeat constructor; cbn; intuition discriminate. }
  assert (H3 : Forall (fun p => dict_get (name2pt three_on_a_line) p = None)
                      ["P"; "Q"; "R"; "S"]).
  { repeat constructor. }
  split; [repeat split; assumption | ].
  exact (proj1 (sample_polygon_total (fun _ _ _ => Some 0) (fun P _ => P)
                  ["P"; "Q"; "R"; "S"] three_on_a_line) H1 H2 H3).
Defined.
